(** * Endecrypt: container codec, chunk reader and LSB steganography

    A shallow embedding of the JavaScript sources
      - [src/steganography/lsb-encoder.js]   (module [LSBEncoder])
      - [src/file-handling/chunked-reader.js] (module [ChunkedFileReader])
      - [src/crypto/encryptor.js], [src/crypto/decryptor.js],
        [src/crypto/key-manager.js]           (modules [Encryptor],
        [Decryptor], [KeyManager])
      - the rest of [src/crypto/decryptor.js] (module [Decryption])
      - [src/file-handling/blob-builder.js], [src/file-handling/downloader.js],
        [src/utils/validation.js], [src/media/memory-manager.js]
        (modules [BlobBuilder], [Downloader], [FileValidator],
        [MemoryManager])
      - [src/main.js]: [handleEncryption] (module [Main]), the password
        meter, [handleDecryption] and the two steganography handlers
        (module [Handlers])
    followed by the properties proved about them.  Left out: what only
    draws on the page, and what computes with floating-point logarithms
    or percentages ([formatFileSize], the progress displays).

    Conventions.  A typed array ([Uint8Array], [Uint8ClampedArray]) is a
    [list Z] of samples in [0, 255]; a JavaScript string is the list of its
    UTF-16 code units; a JavaScript number is an exact rational, which is
    what a double is on the integers and quotients the program computes
    with.  A thrown [Error] is a [Throw] result carrying the constructor
    that stands for its message. *)

From Stdlib Require Import ZArith QArith Qround List Lia Bool Permutation.
From Stdlib Require Ascii String.
From Equations Require Import Equations.
Import ListNotations.
Import String.StringSyntax.
Local Open Scope string_scope.
Local Open Scope Z_scope.

(** ** JavaScript basics *)

Module JS.

(** The messages of the [Error]s the sources throw. *)
Inductive Error : Type :=
| FileTooLarge            (* 'File is too large for this cover image.' *)
| NoValidHiddenData       (* 'No valid hidden data found or file corrupted.' *)
| FileTooSmall            (* 'File is too small to be a valid encrypted file' *)
| InvalidMetadataLength   (* 'Invalid metadata length in encrypted file' *)
| MetadataOverlapsHeader  (* 'Invalid file structure: metadata overlaps with header' *)
| InvalidMetadataJSON     (* `Invalid metadata JSON: ${e.message}` *)
| PasswordRequired        (* 'Password required for this file' *)
| MissingKeyData.         (* 'Invalid file format: missing key data' *)

(** The taxonomy of the specification (section 7).  The sources throw
    plain [Error]s, told apart by their messages only. *)
Inductive ErrorClass : Type :=
| CapacityError
| CorruptionError
| FormatError
| MissingPasswordError
| MalformedMetadataError.

Definition classify (e : Error) : ErrorClass :=
  match e with
  | FileTooLarge => CapacityError
  | NoValidHiddenData => CorruptionError
  | FileTooSmall => FormatError
  | InvalidMetadataLength => FormatError
  | MetadataOverlapsHeader => FormatError
  | InvalidMetadataJSON => FormatError
  | PasswordRequired => MissingPasswordError
  | MissingKeyData => MalformedMetadataError
  end.

Inductive result (A : Type) : Type :=
| Ok (a : A)
| Throw (e : Error).
Arguments Ok {A} a.
Arguments Throw {A} e.

(** [arr.length] *)
Definition len {A : Type} (l : list A) : Z := Z.of_nat (length l).

(** [Math.floor], [Math.ceil] and [/] on numbers. *)
Definition Math_floor (x : Q) : Z := Qfloor x.
Definition Math_ceil (x : Q) : Z := Qceiling x.
Definition num (z : Z) : Q := inject_Z z.

(** [arr.slice(start, end)] for [0 <= start], [0 <= end]. *)
Definition slice {A : Type} (l : list A) (start end_ : Z) : list A :=
  firstn (Z.to_nat (end_ - start)) (skipn (Z.to_nat start) l).

(** [arr[idx] = v]: a store outside the array is ignored. *)
Fixpoint set_nth {A : Type} (l : list A) (n : nat) (v : A) : list A :=
  match l, n with
  | [], _ => []
  | _ :: t, O => v :: t
  | h :: t, S n' => h :: set_nth t n' v
  end.

(** Conversion of a stored value: [Uint8Array] wraps, [Uint8ClampedArray]
    clamps. *)
Definition ToUint8 (v : Z) : Z := v mod 256.
Definition ToUint8Clamp (v : Z) : Z := Z.max 0 (Z.min 255 v).

Definition Uint8Array_store (buf : list Z) (idx v : Z) : list Z :=
  if idx <? 0 then buf else set_nth buf (Z.to_nat idx) (ToUint8 v).

(** [new Uint8Array(n)] *)
Definition Uint8Array_new (n : Z) : list Z := repeat 0 (Z.to_nat n).

(** [ToInt32], the range of the results of [<<] and [|]. *)
Definition ToInt32 (v : Z) : Z := (v + 2 ^ 31) mod 2 ^ 32 - 2 ^ 31.

(** [DataView.setUint32(0, v)] and [getUint32(0)], big-endian by default,
    little-endian when the last argument is [true]. *)
Definition setUint32_be (v : Z) : list Z :=
  let u := v mod 2 ^ 32 in
  [u / 2 ^ 24; (u / 2 ^ 16) mod 256; (u / 2 ^ 8) mod 256; u mod 256].

Definition getUint32_be (b : list Z) : Z :=
  nth 0 b 0 * 2 ^ 24 + nth 1 b 0 * 2 ^ 16 + nth 2 b 0 * 2 ^ 8 + nth 3 b 0.

Definition setUint32_le (v : Z) : list Z := rev (setUint32_be v).
Definition getUint32_le (b : list Z) : Z := getUint32_be (rev b).

Definition is_byte (b : Z) : Prop := 0 <= b <= 255.

(** A [File]: [file.name], [file.type] and the bytes it holds;
    [file.size] is their number. *)
Record File : Type := {
  name : list Z;
  type : list Z;
  bytes : list Z
}.

Definition size (file : File) : Z := len (bytes file).

Definition is_byteb (b : Z) : bool := (0 <=? b) && (b <=? 255).

(** A check of the [2 ^ bits] integers from [base] on, for proofs by
    evaluation. *)
Fixpoint check_range (bits : nat) (base : Z) (f : Z -> bool) : bool :=
  match bits with
  | O => f base
  | S b => check_range b base f && check_range b (base + 2 ^ Z.of_nat b) f
  end.

(** A check of all 256 byte values, for proofs by evaluation. *)
Definition all_bytes (f : Z -> bool) : bool :=
  forallb f (map Z.of_nat (seq 0 256)).

End JS.
Import JS.

(** ** Strings: UTF-16, UTF-8, [TextEncoder] and [TextDecoder]

    A string is the list of its UTF-16 code units.  The conversions follow
    ECMA-262 ([StringToCodePoints], [UTF16EncodeCodePoint]) and the WHATWG
    Encoding Standard (UTF-8 encoder and decoder). *)

Module Unicode.

Definition is_code_unit (u : Z) : Prop := 0 <= u < 65536.

Definition is_leading (u : Z) : bool := (0xD800 <=? u) && (u <=? 0xDBFF).
Definition is_trailing (u : Z) : bool := (0xDC00 <=? u) && (u <=? 0xDFFF).
Definition is_surrogate (u : Z) : bool := (0xD800 <=? u) && (u <=? 0xDFFF).

Definition UTF16SurrogatePairToCodePoint (lead trail : Z) : Z :=
  (lead - 0xD800) * 0x400 + (trail - 0xDC00) + 0x10000.

(** A surrogate that is not part of a pair is a code point of its own. *)
Fixpoint StringToCodePoints (s : list Z) : list Z :=
  match s with
  | [] => []
  | first :: rest =>
      if is_leading first then
        match rest with
        | second :: rest' =>
            if is_trailing second
            then UTF16SurrogatePairToCodePoint first second
                   :: StringToCodePoints rest'
            else first :: StringToCodePoints rest
        | [] => [first]
        end
      else first :: StringToCodePoints rest
  end.

Definition UTF16EncodeCodePoint (cp : Z) : list Z :=
  if cp <=? 0xFFFF then [cp]
  else [(cp - 0x10000) / 0x400 + 0xD800; (cp - 0x10000) mod 0x400 + 0xDC00].

Definition CodePointsToString (cps : list Z) : list Z :=
  flat_map UTF16EncodeCodePoint cps.

(** The UTF-8 encoder, on a scalar value. *)
Definition utf8_encode (cp : Z) : list Z :=
  if cp <=? 0x7F then [cp]
  else if cp <=? 0x7FF then
    [Z.shiftr cp 6 + 0xC0; Z.lor 0x80 (Z.land cp 0x3F)]
  else if cp <=? 0xFFFF then
    [Z.shiftr cp 12 + 0xE0;
     Z.lor 0x80 (Z.land (Z.shiftr cp 6) 0x3F);
     Z.lor 0x80 (Z.land cp 0x3F)]
  else
    [Z.shiftr cp 18 + 0xF0;
     Z.lor 0x80 (Z.land (Z.shiftr cp 12) 0x3F);
     Z.lor 0x80 (Z.land (Z.shiftr cp 6) 0x3F);
     Z.lor 0x80 (Z.land cp 0x3F)].

(** Conversion to a sequence of scalar values: a lone surrogate becomes
    U+FFFD. *)
Definition to_scalar_value (cp : Z) : Z :=
  if is_surrogate cp then 0xFFFD else cp.

(** [new TextEncoder().encode(s)] *)
Definition TextEncoder_encode (s : list Z) : list Z :=
  flat_map utf8_encode (map to_scalar_value (StringToCodePoints s)).

(** The UTF-8 decoder. *)
Record Utf8Decoder : Type := {
  code_point : Z;
  bytes_seen : Z;
  bytes_needed : Z;
  lower_boundary : Z;
  upper_boundary : Z
}.

Definition utf8_initial : Utf8Decoder :=
  {| code_point := 0; bytes_seen := 0; bytes_needed := 0;
     lower_boundary := 0x80; upper_boundary := 0xBF |}.

(** A byte read when no continuation byte is awaited. *)
Definition utf8_lead (byte : Z) : Utf8Decoder * list Z :=
  if (0 <=? byte) && (byte <=? 0x7F) then (utf8_initial, [byte])
  else if (0xC2 <=? byte) && (byte <=? 0xDF) then
    ({| code_point := Z.land byte 0x1F; bytes_seen := 0; bytes_needed := 1;
        lower_boundary := 0x80; upper_boundary := 0xBF |}, [])
  else if (0xE0 <=? byte) && (byte <=? 0xEF) then
    ({| code_point := Z.land byte 0xF; bytes_seen := 0; bytes_needed := 2;
        lower_boundary := if byte =? 0xE0 then 0xA0 else 0x80;
        upper_boundary := if byte =? 0xED then 0x9F else 0xBF |}, [])
  else if (0xF0 <=? byte) && (byte <=? 0xF4) then
    ({| code_point := Z.land byte 0x7; bytes_seen := 0; bytes_needed := 3;
        lower_boundary := if byte =? 0xF0 then 0x90 else 0x80;
        upper_boundary := if byte =? 0xF4 then 0x8F else 0xBF |}, [])
  else (utf8_initial, [0xFFFD]).

(** One byte: the new state and the code points emitted.  A byte outside
    the awaited range ends the sequence with U+FFFD and is read again as a
    lead byte. *)
Definition utf8_step (d : Utf8Decoder) (byte : Z) : Utf8Decoder * list Z :=
  if bytes_needed d =? 0 then utf8_lead byte
  else if negb ((lower_boundary d <=? byte) && (byte <=? upper_boundary d))
  then let '(d', out) := utf8_lead byte in (d', 0xFFFD :: out)
  else
    let cp := Z.lor (Z.shiftl (code_point d) 6) (Z.land byte 0x3F) in
    let seen := bytes_seen d + 1 in
    if seen =? bytes_needed d then (utf8_initial, [cp])
    else ({| code_point := cp; bytes_seen := seen;
             bytes_needed := bytes_needed d;
             lower_boundary := 0x80; upper_boundary := 0xBF |}, []).

Fixpoint utf8_decode (d : Utf8Decoder) (bytes : list Z) : list Z :=
  match bytes with
  | [] => if bytes_needed d =? 0 then [] else [0xFFFD]
  | b :: rest => let '(d', out) := utf8_step d b in out ++ utf8_decode d' rest
  end.

(** [new TextDecoder().decode(bytes)]: not fatal, and a leading byte order
    mark is dropped. *)
Definition TextDecoder_decode (bytes : list Z) : list Z :=
  let cps := utf8_decode utf8_initial bytes in
  CodePointsToString
    match cps with
    | c :: rest => if c =? 0xFEFF then rest else cps
    | [] => []
    end.

(** The decoder run over some bytes: its state and the code points
    emitted. *)
Fixpoint utf8_run (d : Utf8Decoder) (bytes : list Z) : Utf8Decoder * list Z :=
  match bytes with
  | [] => (d, [])
  | b :: rest =>
      let '(d', out) := utf8_step d b in
      let '(d'', out') := utf8_run d' rest in
      (d'', out ++ out')
  end.

Definition is_scalar_value (cp : Z) : bool :=
  (0 <=? cp) && (cp <? 0x110000) && negb (is_surrogate cp).

(** The check that the decoder reads [cp] back from its encoding. *)
Definition utf8_reads_back (cp : Z) : bool :=
  negb (is_scalar_value cp)
  || match utf8_run utf8_initial (utf8_encode cp) with
     | (d, [c]) =>
         (c =? cp) && (bytes_needed d =? 0) && (code_point d =? 0)
         && (bytes_seen d =? 0) && (lower_boundary d =? 0x80)
         && (upper_boundary d =? 0xBF)
     | _ => false
     end.

(** The code units of an ASCII literal of the sources. *)
Definition units (s : String.string) : list Z :=
  map (fun c => Z.of_N (Ascii.N_of_ascii c)) (String.list_ascii_of_string s).

(** A string with no lone surrogate. *)
Fixpoint well_formed (s : list Z) : bool :=
  match s with
  | [] => true
  | first :: rest =>
      if is_leading first then
        match rest with
        | second :: rest' => is_trailing second && well_formed rest'
        | [] => false
        end
      else negb (is_trailing first) && well_formed rest
  end.

(** A string of code units with no lone surrogate. *)
Definition clean (s : list Z) : Prop :=
  Forall is_code_unit s /\ well_formed s = true.

End Unicode.

(** ** [JSON.parse] and [JSON.stringify]

    [JSON.parse] follows the JSON grammar of ECMA-262 and ECMA-404 on the
    code units of the text.  A number is the exact rational its literal
    denotes (the double of the engine is the nearest one; the two agree on
    the integers of magnitude below 2^53).  An object is the list of its
    members in creation order; a repeated key overwrites the value of the
    first occurrence, as [CreateDataProperty] does. *)

Module JSON.

Import Unicode.

#[local] Unset Elimination Schemes.
Inductive value : Type :=
| JNull
| JBool (b : bool)
| JNumber (q : Q)
| JString (s : list Z)
| JArray (items : list value)
| JObject (members : list (list Z * value)).
#[local] Set Elimination Schemes.

Fixpoint string_eqb (a b : list Z) : bool :=
  match a, b with
  | [], [] => true
  | x :: a', y :: b' => (x =? y) && string_eqb a' b'
  | _, _ => false
  end.

Fixpoint obj_set (members : list (list Z * value)) (key : list Z) (v : value)
  : list (list Z * value) :=
  match members with
  | [] => [(key, v)]
  | (k, w) :: rest =>
      if string_eqb k key then (k, v) :: rest
      else (k, w) :: obj_set rest key v
  end.

(** *** Parsing *)

Definition is_ws (c : Z) : bool :=
  (c =? 32) || (c =? 9) || (c =? 10) || (c =? 13).

Fixpoint skip_ws (s : list Z) : list Z :=
  match s with
  | c :: rest => if is_ws c then skip_ws rest else s
  | [] => []
  end.

Definition is_digit (c : Z) : bool := (48 <=? c) && (c <=? 57).

Definition hex_value (c : Z) : option Z :=
  if (48 <=? c) && (c <=? 57) then Some (c - 48)
  else if (97 <=? c) && (c <=? 102) then Some (c - 87)
  else if (65 <=? c) && (c <=? 70) then Some (c - 55)
  else None.

Definition hex4 (h1 h2 h3 h4 : Z) : option Z :=
  match hex_value h1, hex_value h2, hex_value h3, hex_value h4 with
  | Some a, Some b, Some c, Some d => Some (((a * 16 + b) * 16 + c) * 16 + d)
  | _, _, _, _ => None
  end.

(** The character after a backslash: quote, backslash, slash, b f n r t. *)
Definition escape_char (e : Z) : option Z :=
  if e =? 34 then Some 34
  else if e =? 92 then Some 92
  else if e =? 47 then Some 47
  else if e =? 98 then Some 8
  else if e =? 102 then Some 12
  else if e =? 110 then Some 10
  else if e =? 114 then Some 13
  else if e =? 116 then Some 9
  else None.

Definition cons_result (c : Z) (r : option (list Z * list Z))
  : option (list Z * list Z) :=
  match r with
  | Some (str, rest) => Some (c :: str, rest)
  | None => None
  end.

(** A string literal after its opening quote: the string and the text
    after the closing quote. *)
Fixpoint parse_string_body (s : list Z) : option (list Z * list Z) :=
  match s with
  | [] => None
  | c :: rest =>
      if c =? 34 then Some ([], rest)
      else if c =? 92 then
        match rest with
        | e :: rest' =>
            if e =? 117 then
              match rest' with
              | h1 :: h2 :: h3 :: h4 :: rest'' =>
                  match hex4 h1 h2 h3 h4 with
                  | Some u => cons_result u (parse_string_body rest'')
                  | None => None
                  end
              | _ => None
              end
            else
              match escape_char e with
              | Some ch => cons_result ch (parse_string_body rest')
              | None => None
              end
        | [] => None
        end
      else if c <? 32 then None
      else cons_result c (parse_string_body rest)
  end.

Fixpoint take_digits (s : list Z) : list Z * list Z :=
  match s with
  | c :: rest =>
      if is_digit c
      then let '(ds, r) := take_digits rest in (c - 48 :: ds, r)
      else ([], s)
  | [] => ([], [])
  end.

Definition digits_value (ds : list Z) : Z :=
  fold_left (fun acc d => acc * 10 + d) ds 0.

Definition number_value (negative : bool) (int frac : list Z) (exponent : Z)
  : Q :=
  let m := digits_value (int ++ frac) in
  Qred (num (if negative then - m else m)
        * Qpower (num 10) (exponent - len frac)).

(** [-? int frac? exp?] with [int = 0 | [1-9][0-9]*]. *)
Definition parse_number (s : list Z) : option (Q * list Z) :=
  let '(negative, s1) :=
    match s with
    | c :: r => if c =? 45 then (true, r) else (false, s)
    | [] => (false, s)
    end in
  let '(int, s2) :=
    match s1 with
    | c :: r => if c =? 48 then ([0], r) else take_digits s1
    | [] => ([], s1)
    end in
  match int with
  | [] => None
  | _ :: _ =>
      let frac_part :=
        match s2 with
        | c :: r =>
            if c =? 46 then
              match take_digits r with
              | ([], _) => None
              | (fs, r') => Some (fs, r')
              end
            else Some ([], s2)
        | [] => Some ([], s2)
        end in
      match frac_part with
      | None => None
      | Some (frac, s3) =>
          let exp_part :=
            match s3 with
            | c :: r =>
                if (c =? 101) || (c =? 69) then
                  let '(negexp, r1) :=
                    match r with
                    | sg :: r' =>
                        if sg =? 45 then (true, r')
                        else if sg =? 43 then (false, r')
                        else (false, r)
                    | [] => (false, r)
                    end in
                  match take_digits r1 with
                  | ([], _) => None
                  | (es, r2) =>
                      Some (if negexp then - digits_value es
                            else digits_value es, r2)
                  end
                else Some (0, s3)
            | [] => Some (0, s3)
            end in
          match exp_part with
          | None => None
          | Some (exponent, s4) =>
              Some (number_value negative int frac exponent, s4)
          end
      end
  end.

Inductive presult : Type :=
| POk (v : value) (rest : list Z)
| PSyntaxError
| POutOfFuel.

(** The literal [lit] at the head of the text. *)
Fixpoint expect (lit s : list Z) : option (list Z) :=
  match lit, s with
  | [], _ => Some s
  | l :: lit', c :: s' => if c =? l then expect lit' s' else None
  | _ :: _, [] => None
  end.

Fixpoint parse_value (fuel : nat) (s : list Z) : presult :=
  match fuel with
  | O => POutOfFuel
  | S fuel' =>
      match skip_ws s with
      | [] => PSyntaxError
      | c :: rest =>
          if c =? 123 then
            match skip_ws rest with
            | c' :: rest' =>
                if c' =? 125 then POk (JObject []) rest'
                else parse_members fuel' rest []
            | [] => PSyntaxError
            end
          else if c =? 91 then
            match skip_ws rest with
            | c' :: rest' =>
                if c' =? 93 then POk (JArray []) rest'
                else parse_elements fuel' rest []
            | [] => PSyntaxError
            end
          else if c =? 34 then
            match parse_string_body rest with
            | Some (str, rest') => POk (JString str) rest'
            | None => PSyntaxError
            end
          else if c =? 116 then
            match expect [114; 117; 101] rest with
            | Some rest' => POk (JBool true) rest'
            | None => PSyntaxError
            end
          else if c =? 102 then
            match expect [97; 108; 115; 101] rest with
            | Some rest' => POk (JBool false) rest'
            | None => PSyntaxError
            end
          else if c =? 110 then
            match expect [117; 108; 108] rest with
            | Some rest' => POk JNull rest'
            | None => PSyntaxError
            end
          else
            match parse_number (c :: rest) with
            | Some (q, rest') => POk (JNumber q) rest'
            | None => PSyntaxError
            end
      end
  end

with parse_elements (fuel : nat) (s : list Z) (acc : list value) : presult :=
  match fuel with
  | O => POutOfFuel
  | S fuel' =>
      match parse_value fuel' s with
      | POk v rest =>
          match skip_ws rest with
          | c :: rest' =>
              if c =? 44 then parse_elements fuel' rest' (acc ++ [v])
              else if c =? 93 then POk (JArray (acc ++ [v])) rest'
              else PSyntaxError
          | [] => PSyntaxError
          end
      | PSyntaxError => PSyntaxError
      | POutOfFuel => POutOfFuel
      end
  end

with parse_members (fuel : nat) (s : list Z) (acc : list (list Z * value))
  : presult :=
  match fuel with
  | O => POutOfFuel
  | S fuel' =>
      match skip_ws s with
      | c :: rest =>
          if c =? 34 then
            match parse_string_body rest with
            | Some (key, rest1) =>
                match skip_ws rest1 with
                | c1 :: rest2 =>
                    if c1 =? 58 then
                      match parse_value fuel' rest2 with
                      | POk v rest3 =>
                          match skip_ws rest3 with
                          | c3 :: rest4 =>
                              if c3 =? 44
                              then parse_members fuel' rest4 (obj_set acc key v)
                              else if c3 =? 125
                              then POk (JObject (obj_set acc key v)) rest4
                              else PSyntaxError
                          | [] => PSyntaxError
                          end
                      | PSyntaxError => PSyntaxError
                      | POutOfFuel => POutOfFuel
                      end
                    else PSyntaxError
                | [] => PSyntaxError
                end
            | None => PSyntaxError
            end
          else PSyntaxError
      | [] => PSyntaxError
      end
  end.

(** [JSON.parse(text)]; [None] stands for the [SyntaxError]. *)
Definition parse (text : list Z) : option value :=
  match parse_value (2 * length text + 2) text with
  | POk v rest =>
      match skip_ws rest with
      | [] => Some v
      | _ :: _ => None
      end
  | _ => None
  end.

(** *** Serializing *)

Definition hex_digit (d : Z) : Z := if d <? 10 then 48 + d else 87 + d.

Definition UnicodeEscape (c : Z) : list Z :=
  [92; 117; hex_digit (c / 4096); hex_digit ((c / 256) mod 16);
   hex_digit ((c / 16) mod 16); hex_digit (c mod 16)].

Definition quote_code_point (c : Z) : list Z :=
  if c =? 8 then [92; 98]
  else if c =? 9 then [92; 116]
  else if c =? 10 then [92; 110]
  else if c =? 12 then [92; 102]
  else if c =? 13 then [92; 114]
  else if c =? 34 then [92; 34]
  else if c =? 92 then [92; 92]
  else if (c <? 32) || is_surrogate c then UnicodeEscape c
  else UTF16EncodeCodePoint c.

Definition QuoteJSONString (s : list Z) : list Z :=
  34 :: flat_map quote_code_point (StringToCodePoints s) ++ [34].

Fixpoint to_digits (fuel : nat) (n : Z) (acc : list Z) : list Z :=
  match fuel with
  | O => acc
  | S fuel' =>
      let acc' := (48 + n mod 10) :: acc in
      if n <? 10 then acc' else to_digits fuel' (n / 10) acc'
  end.

Definition decimal (n : Z) : list Z :=
  to_digits (S (Z.to_nat (Z.log2 n))) n [].

(** [Number::toString] on an integer of magnitude below 10^21. *)
Definition Number_toString (n : Z) : list Z :=
  if n <? 0 then 45 :: decimal (- n) else decimal n.

Fixpoint join_comma (items : list (list Z)) : list Z :=
  match items with
  | [] => []
  | [x] => x
  | x :: rest => x ++ 44 :: join_comma rest
  end.

(** *** Checks and notions used in the proofs *)

Definition hex4_ok (c : Z) : bool :=
  match hex4 (hex_digit (c / 4096)) (hex_digit ((c / 256) mod 16))
             (hex_digit ((c / 16) mod 16)) (hex_digit (c mod 16)) with
  | Some v => v =? c
  | None => false
  end.

(** A result consumes part of the text, and the fuel of [parse] is never
    used up. *)
Definition progresses (p : presult) (s : list Z) : Prop :=
  match p with
  | POk _ r => (length r < length s)%nat
  | PSyntaxError => True
  | POutOfFuel => False
  end.

Definition is_decimal_digit (d : Z) : Prop := 0 <= d <= 9.

(** The characters that follow a value in the texts considered: a comma,
    a closing bracket or a closing brace. *)
Definition ends_value (c : Z) : Prop := c = 44 \/ c = 93 \/ c = 125.

End JSON.

(** ** The Web Crypto interface

    [crypto.subtle] is the platform's; the sources only pass arguments to
    it.  It is an interface here, with the keys as an abstract type.  Its
    operations are functions: the Web Cryptography API puts no condition
    on the length of a PBKDF2 password or of the data to encrypt, and the
    raw AES keys the sources import are the 32 bytes they exported.  The
    values [crypto.getRandomValues] and [generateKey] draw in one run are
    an input of that run. *)

Class SubtleCrypto : Type := {
  KeyMaterial : Type;
  CryptoKey : Type;
  (** [importKey('raw', bytes, { name: 'PBKDF2' }, false, ...)] *)
  importKey_PBKDF2 : list Z -> KeyMaterial;
  (** [deriveKey({ name: 'PBKDF2', salt, iterations, hash: 'SHA-256' },
      keyMaterial, { name: 'AES-GCM', length: 256 }, ...)] *)
  deriveKey_PBKDF2 : list Z -> Z -> KeyMaterial -> CryptoKey;
  (** [importKey('raw', keyData, { name: 'AES-GCM', length: 256 }, ...)] *)
  importKey_AES_GCM : list Z -> CryptoKey;
  exportKey_raw : CryptoKey -> list Z;
  (** [encrypt({ name: 'AES-GCM', iv }, key, data)] *)
  encrypt_AES_GCM : list Z -> CryptoKey -> list Z -> list Z
}.

(** A stand-in implementation, to run the sources on concrete inputs: keys
    are their raw bytes and ciphertexts carry no secret. *)
Definition toy_crypto : SubtleCrypto :=
  {| KeyMaterial := list Z;
     CryptoKey := list Z;
     importKey_PBKDF2 := fun password => password;
     deriveKey_PBKDF2 := fun salt _ keyMaterial => keyMaterial ++ salt;
     importKey_AES_GCM := fun keyData => keyData;
     exportKey_raw := fun key => key;
     encrypt_AES_GCM := fun iv key data => data ++ iv |}.

Record Randomness : Type := {
  random_salt : list Z;   (* getRandomValues(new Uint8Array(16)) *)
  random_iv : list Z;     (* getRandomValues(new Uint8Array(12)) *)
  random_key : list Z     (* the raw bytes of the generateKey result *)
}.

(** ** src/crypto/key-manager.js *)

Module KeyManager.

Section WithCrypto.
Context `{SubtleCrypto}.

Definition generateSalt (r : Randomness) : list Z := random_salt r.

Definition generateIV (r : Randomness) : list Z := random_iv r.

Definition deriveKey (password : list Z) (salt : list Z) : result CryptoKey :=
  let passwordBuffer := Unicode.TextEncoder_encode password in
  let keyMaterial := importKey_PBKDF2 passwordBuffer in
  Ok (deriveKey_PBKDF2 salt 100000 keyMaterial).

Definition generateRandomKey (r : Randomness) : CryptoKey :=
  importKey_AES_GCM (random_key r).

Definition exportKey (key : CryptoKey) : list Z := exportKey_raw key.

Definition importKey (keyData : list Z) : CryptoKey :=
  importKey_AES_GCM keyData.

End WithCrypto.

End KeyManager.

(** ** src/file-handling/chunked-reader.js *)

Module ChunkedFileReader.

Definition CHUNK_SIZE : Z := 10 * 1024 * 1024.

Record Reader : Type := {
  file : File;
  totalChunks : Z
}.

Definition constructor (file : File) : Reader :=
  {| file := file;
     totalChunks := Math_ceil (num (size file) / num CHUNK_SIZE) |}.

Definition getTotalChunks (this : Reader) : Z := totalChunks this.

(** What [readChunks] yields; [progress], a percentage for display, is
    left out. *)
Record Chunk : Type := {
  data : list Z;
  index : Z
}.

(** The [while (offset < this.file.size)] loop of [readChunks]: the chunks
    yielded from [offset] on. *)
Equations? readChunks_from (file : File) (offset chunkIndex : Z) : list Chunk
  by wf (Z.to_nat (size file - offset)) lt :=
  readChunks_from file offset chunkIndex with Z_lt_dec offset (size file) := {
    | left Hlt =>
        let end_ := Z.min (offset + CHUNK_SIZE) (size file) in
        let chunk := slice (bytes file) offset end_ in
        {| data := chunk; index := chunkIndex |}
          :: readChunks_from file end_ (chunkIndex + 1);
    | right _ => [] }.
Proof. subst end_. unfold CHUNK_SIZE. lia. Qed.

Definition readChunks (this : Reader) : list Chunk :=
  readChunks_from (file this) 0 0.

Definition shouldChunk (this : Reader) : bool := size (file this) >? CHUNK_SIZE.

(** The chunk sequence as the specification describes it: [k] chunks of
    [CHUNK_SIZE] bytes from [offset] on, the last one cut at the end of
    the file. *)
Fixpoint chunk_list (file : File) (offset chunkIndex : Z) (k : nat)
  : list Chunk :=
  match k with
  | O => []
  | S k' =>
      {| data := slice (bytes file) offset
                   (Z.min (offset + CHUNK_SIZE) (size file));
         index := chunkIndex |}
        :: chunk_list file (offset + CHUNK_SIZE) (chunkIndex + 1) k'
  end.

(** [ceil(n / d)] on integers. *)
Definition ceil_div (n d : Z) : Z := (n + d - 1) / d.

End ChunkedFileReader.

(** ** src/crypto/encryptor.js *)

Module Encryptor.

Import Unicode JSON.

(** The object [createMetadata] builds. *)
Record Metadata : Type := {
  version : list Z;
  filename : list Z;
  mimeType : list Z;
  hasPassword : bool;
  chunksCount : Z;
  timestamp : Z;
  key : option (list Z)
}.

(** The documented field types: strings of code units, safe integers, and
    an array of bytes or [null]. *)
Definition is_safe_integer (n : Z) : Prop := - (2 ^ 53 - 1) <= n <= 2 ^ 53 - 1.

Definition wf_metadata (m : Metadata) : Prop :=
  Forall is_code_unit (version m)
  /\ Forall is_code_unit (filename m)
  /\ Forall is_code_unit (mimeType m)
  /\ is_safe_integer (chunksCount m)
  /\ is_safe_integer (timestamp m)
  /\ match key m with
     | Some keyData => Forall is_byte keyData
     | None => True
     end.

Definition is_code_unitb (u : Z) : bool := (0 <=? u) && (u <? 65536).

Definition is_safe_integerb (n : Z) : bool :=
  (- (2 ^ 53 - 1) <=? n) && (n <=? 2 ^ 53 - 1).

Definition wf_metadatab (m : Metadata) : bool :=
  forallb is_code_unitb (version m)
  && forallb is_code_unitb (filename m)
  && forallb is_code_unitb (mimeType m)
  && is_safe_integerb (chunksCount m)
  && is_safe_integerb (timestamp m)
  && match key m with
     | Some keyData => forallb is_byteb keyData
     | None => true
     end.

(** The same object as a JSON value. *)
Definition metadata_value (m : Metadata) : value :=
  JObject
    [(units "version", JString (version m));
     (units "filename", JString (filename m));
     (units "mimeType", JString (mimeType m));
     (units "hasPassword", JBool (hasPassword m));
     (units "chunksCount", JNumber (num (chunksCount m)));
     (units "timestamp", JNumber (num (timestamp m)));
     (units "key",
      match key m with
      | Some keyData => JArray (map (fun b => JNumber (num b)) keyData)
      | None => JNull
      end)].

(** [JSON.stringify] on such an object: its members in creation order. *)
Definition JSON_stringify (m : Metadata) : list Z :=
  [123]
    ++ QuoteJSONString (units "version") ++ [58]
    ++ QuoteJSONString (version m) ++ [44]
    ++ QuoteJSONString (units "filename") ++ [58]
    ++ QuoteJSONString (filename m) ++ [44]
    ++ QuoteJSONString (units "mimeType") ++ [58]
    ++ QuoteJSONString (mimeType m) ++ [44]
    ++ QuoteJSONString (units "hasPassword") ++ [58]
    ++ (if hasPassword m then units "true" else units "false") ++ [44]
    ++ QuoteJSONString (units "chunksCount") ++ [58]
    ++ Number_toString (chunksCount m) ++ [44]
    ++ QuoteJSONString (units "timestamp") ++ [58]
    ++ Number_toString (timestamp m) ++ [44]
    ++ QuoteJSONString (units "key") ++ [58]
    ++ match key m with
       | Some keyData => [91] ++ join_comma (map Number_toString keyData) ++ [93]
       | None => units "null"
       end
    ++ [125].

(** The length of the embedded key, the measure of the fuel needed. *)
Definition key_length (m : Metadata) : nat :=
  match key m with
  | Some keyData => length keyData
  | None => O
  end.

(** One call of [crypto.subtle.encrypt]: its arguments. *)
Record Seal `{SubtleCrypto} : Type := {
  seal_iv : list Z;
  seal_key : CryptoKey;
  seal_data : list Z
}.

Section WithCrypto.
Context `{SubtleCrypto}.

(** [encryptChunk(data, key, iv)]: the call it makes and the ciphertext. *)
Definition encryptChunk (data : list Z) (key : CryptoKey) (iv : list Z)
  : Seal * list Z :=
  ({| seal_iv := iv; seal_key := key; seal_data := data |},
   encrypt_AES_GCM iv key data).

(** [prepareKey(password, salt)]: [if (password)] holds for a string that
    is neither [null] nor empty. *)
Definition prepareKey (r : Randomness) (password : option (list Z))
  (salt : list Z) : result (CryptoKey * option (list Z)) :=
  match password with
  | Some (c :: pw) =>
      match KeyManager.deriveKey (c :: pw) salt with
      | Ok key => Ok (key, None)
      | Throw e => Throw e
      end
  | _ =>
      let key := KeyManager.generateRandomKey r in
      let keyData := KeyManager.exportKey key in
      Ok (key, Some keyData)
  end.

End WithCrypto.

(** [createMetadata(...)]; [now] is [Date.now()]. *)
Definition createMetadata (now : Z) (filename mimeType : list Z)
  (hasPassword : bool) (chunksCount : Z) (keyData : option (list Z))
  : Metadata :=
  {| version := units "1.0";
     filename := filename;
     mimeType := mimeType;
     hasPassword := hasPassword;
     chunksCount := chunksCount;
     timestamp := now;
     key := keyData |}.

Definition serializeMetadata (metadata : Metadata) : list Z :=
  let json := JSON_stringify metadata in
  let metadataBytes := TextEncoder_encode json in
  metadataBytes ++ setUint32_le (len metadataBytes).

(** [buildEncryptedFile(...)]: the bytes of the [Blob]. *)
Definition buildEncryptedFile (salt iv : list Z)
  (encryptedChunks : list (list Z)) (metadata : list Z) : list Z :=
  let parts := [salt; iv] ++ encryptedChunks ++ [metadata] in
  concat parts.

End Encryptor.

(** ** src/crypto/decryptor.js *)

Module Decryptor.

Import Unicode.

Record Parsed : Type := {
  salt : list Z;
  iv : list Z;
  encryptedData : list Z;
  metadata : JSON.value
}.

Definition parseEncryptedFile (fileData : list Z) : result Parsed :=
  let data := fileData in
  if len data <? 28 + 4 then Throw FileTooSmall
  else
    let salt := slice data 0 16 in
    let iv := slice data 16 28 in
    let metadataLength := getUint32_le (slice fileData (len data - 4) (len data)) in
    if (metadataLength <=? 0) || (metadataLength >? len data - 32)
    then Throw InvalidMetadataLength
    else
      let metadataStart := len data - 4 - metadataLength in
      if metadataStart <? 28 then Throw MetadataOverlapsHeader
      else
        let metadataBytes := slice data metadataStart (len data - 4) in
        let metadataJson := TextDecoder_decode metadataBytes in
        match JSON.parse metadataJson with
        | None => Throw InvalidMetadataJSON
        | Some metadata =>
            let encryptedData := slice data 28 metadataStart in
            Ok {| salt := salt; iv := iv;
                  encryptedData := encryptedData; metadata := metadata |}
        end.

End Decryptor.

(** ** src/main.js: [handleEncryption] *)

Module Main.

Section WithCrypto.
Context `{SubtleCrypto}.

(** The [for await (const chunk of reader.readChunks())] loop: the calls
    of [encryptChunk] in order, and [encryptedChunks]. *)
Fixpoint encrypt_chunks (chunks : list ChunkedFileReader.Chunk)
  (key : CryptoKey) (iv : list Z) : list Encryptor.Seal * list (list Z) :=
  match chunks with
  | [] => ([], [])
  | chunk :: rest =>
      let '(seal, encrypted) :=
        Encryptor.encryptChunk (ChunkedFileReader.data chunk) key iv in
      let '(seals, encryptedChunks) := encrypt_chunks rest key iv in
      (seal :: seals, encrypted :: encryptedChunks)
  end.

Record Encrypted : Type := {
  seals : list Encryptor.Seal;
  encryptedBlob : list Z
}.

(** [handleEncryption()] without its status and progress display:
    [encryptFile] is the selected file, [usePassword] the state of the
    check box and [passwordValue] the content of the password field.
    [None] is the early [return] on a missing password. *)
Definition handleEncryption (r : Randomness) (now : Z) (encryptFile : File)
  (usePassword : bool) (passwordValue : list Z)
  : option (result Encrypted) :=
  let password := if usePassword then Some passwordValue else None in
  if usePassword && (len passwordValue =? 0) then None
  else Some
    (let salt := KeyManager.generateSalt r in
     let iv := KeyManager.generateIV r in
     match Encryptor.prepareKey r password salt with
     | Throw e => Throw e
     | Ok (key, keyData) =>
         let reader := ChunkedFileReader.constructor encryptFile in
         let '(seals, encryptedChunks) :=
           encrypt_chunks (ChunkedFileReader.readChunks reader) key iv in
         let metadata :=
           Encryptor.createMetadata now (name encryptFile)
             (match type encryptFile with
              | [] => Unicode.units "application/octet-stream"
              | t => t
              end)
             usePassword (len encryptedChunks) keyData in
         let serializedMetadata := Encryptor.serializeMetadata metadata in
         Ok {| seals := seals;
               encryptedBlob :=
                 Encryptor.buildEncryptedFile salt iv encryptedChunks
                   serializedMetadata |}
     end).

End WithCrypto.

(** A file of [CHUNK_SIZE + 1] zero bytes, the smallest that spans two
    chunks, and the values drawn in a run on it. *)
Definition two_chunk_file : File :=
  {| name := Unicode.units "a.bin";
     type := [];
     bytes := repeat 0 (Z.to_nat (ChunkedFileReader.CHUNK_SIZE + 1)) |}.

Definition small_file : File :=
  {| name := Unicode.units "a.txt";
     type := Unicode.units "text/plain";
     bytes := [104; 105; 33] |}.

Definition some_randomness : Randomness :=
  {| random_salt := repeat 1 16;
     random_iv := repeat 2 12;
     random_key := repeat 3 32 |}.

End Main.

(** ** src/steganography/lsb-encoder.js *)

Module LSBEncoder.

(** A loaded image: [image.width], [image.height], and the samples
    [ctx.getImageData(0, 0, width, height).data] of the canvas it is drawn
    on, four ([R], [G], [B], [A]) per pixel in raster order. *)
Record Image : Type := {
  width : Z;
  height : Z;
  data : list Z
}.

Definition wf_image (image : Image) : Prop :=
  0 <= width image /\ 0 <= height image /\
  len (data image) = 4 * (width image * height image) /\
  Forall is_byte (data image).

Definition wf_imageb (image : Image) : bool :=
  (0 <=? width image) && (0 <=? height image)
  && (len (data image) =? 4 * (width image * height image))
  && forallb is_byteb (data image).

Definition hasCapacity (image : Image) (dataSizeInBytes : Z) : bool :=
  let totalPixels := width image * height image in
  let maxBytes := Math_floor (num ((totalPixels * 3) - 32) / num 8) in
  dataSizeInBytes <=? maxBytes.

Definition getMaxCapacity (image : Image) : Z :=
  let totalPixels := width image * height image in
  Math_floor (num ((totalPixels * 3) - 32) / num 8).

(** The write cursor of [hide]. *)
Record Cursor : Type := {
  dataIndex : Z;
  bitIndex : Z
}.

(** The body of [for (let j = 0; j < 3; j++)] in [hide], over the samples
    [pixels[i + j]] still to visit; [break] leaves the rest as it is. *)
Fixpoint hide_channels (fullData : list Z) (chans : list Z) (c : Cursor)
  : list Z * Cursor :=
  match chans with
  | [] => ([], c)
  | p :: rest =>
      if dataIndex c >=? len fullData then (chans, c)
      else
        let byte := nth (Z.to_nat (dataIndex c)) fullData 0 in
        let bit := Z.land (Z.shiftr byte (7 - bitIndex c)) 1 in
        let p' := ToUint8Clamp (Z.lor (Z.land p (Z.lnot 1)) bit) in
        let bitIndex' := bitIndex c + 1 in
        let c' := if bitIndex' =? 8
                  then {| dataIndex := dataIndex c + 1; bitIndex := 0 |}
                  else {| dataIndex := dataIndex c; bitIndex := bitIndex' |} in
        let '(rest', c'') := hide_channels fullData rest c' in
        (p' :: rest', c'')
  end.

(** [for (let i = 0; i < pixels.length; i += 4)] in [hide]: one round per
    pixel; the alpha sample is never written. *)
Fixpoint hide_pixels (fullData : list Z) (pixels : list Z) (c : Cursor)
  : list Z :=
  match pixels with
  | r :: g :: b :: a :: rest =>
      if dataIndex c >=? len fullData then pixels
      else
        let '(rgb, c') := hide_channels fullData [r; g; b] c in
        rgb ++ a :: hide_pixels fullData rest c'
  | _ => pixels
  end.

(** [hide(coverImageFile, secretData)].  The result pairs the outcome with
    the samples as they stand when [hide] returns or throws: the capacity
    check comes before the canvas samples are written. *)
Definition hide (image : Image) (secretData : list Z)
  : result unit * list Z :=
  if negb (hasCapacity image (len secretData)) then
    (Throw FileTooLarge, data image)
  else
    let pixels := data image in
    let lengthHeader := setUint32_be (len secretData) in
    let fullData := lengthHeader ++ secretData in
    (Ok tt, hide_pixels fullData pixels {| dataIndex := 0; bitIndex := 0 |}).

(** First pass of [reveal]: the 32 header bits. *)
Record HeaderState : Type := {
  headerBytes : list Z;
  byteIndex : Z;
  hBitIndex : Z;
  hCurrentByte : Z
}.

Fixpoint header_channels (chans : list Z) (s : HeaderState) : HeaderState :=
  match chans with
  | [] => s
  | p :: rest =>
      if byteIndex s >=? 4 then s
      else
        let bit := Z.land p 1 in
        let currentByte := Z.lor (Z.shiftl (hCurrentByte s) 1) bit in
        let bitIndex := hBitIndex s + 1 in
        header_channels rest
          (if bitIndex =? 8
           then {| headerBytes :=
                     Uint8Array_store (headerBytes s) (byteIndex s) currentByte;
                   byteIndex := byteIndex s + 1;
                   hBitIndex := 0;
                   hCurrentByte := 0 |}
           else {| headerBytes := headerBytes s;
                   byteIndex := byteIndex s;
                   hBitIndex := bitIndex;
                   hCurrentByte := currentByte |})
  end.

(** [while (byteIndex < 4 && pixelIndex < pixels.length)] *)
Fixpoint header_pixels (pixels : list Z) (s : HeaderState) : HeaderState :=
  match pixels with
  | r :: g :: b :: _ :: rest =>
      if byteIndex s <? 4
      then header_pixels rest (header_channels [r; g; b] s)
      else s
  | _ => s
  end.

(** Second pass of [reveal]: the single-pass state machine. *)
Record ReadState : Type := {
  readingHeader : bool;
  headerBuffer : Z;
  headerBitsRead : Z;
  outputBuffer : list Z;
  outputIndex : Z;
  rBitIndex : Z;
  rCurrentByte : Z
}.

Fixpoint read_channels (dataLength : Z) (chans : list Z) (s : ReadState)
  : ReadState :=
  match chans with
  | [] => s
  | p :: rest =>
      let bit := Z.land p 1 in
      if readingHeader s then
        let headerBuffer' := ToInt32 (Z.lor (Z.shiftl (headerBuffer s) 1) bit) in
        let headerBitsRead' := headerBitsRead s + 1 in
        read_channels dataLength rest
          {| readingHeader := negb (headerBitsRead' =? 32);
             headerBuffer := headerBuffer';
             headerBitsRead := headerBitsRead';
             outputBuffer := outputBuffer s;
             outputIndex := outputIndex s;
             rBitIndex := rBitIndex s;
             rCurrentByte := rCurrentByte s |}
      else if outputIndex s >=? dataLength then s
      else
        let currentByte := Z.lor (Z.shiftl (rCurrentByte s) 1) bit in
        let bitIndex := rBitIndex s + 1 in
        read_channels dataLength rest
          (if bitIndex =? 8
           then {| readingHeader := false;
                   headerBuffer := headerBuffer s;
                   headerBitsRead := headerBitsRead s;
                   outputBuffer :=
                     Uint8Array_store (outputBuffer s) (outputIndex s) currentByte;
                   outputIndex := outputIndex s + 1;
                   rBitIndex := 0;
                   rCurrentByte := 0 |}
           else {| readingHeader := false;
                   headerBuffer := headerBuffer s;
                   headerBitsRead := headerBitsRead s;
                   outputBuffer := outputBuffer s;
                   outputIndex := outputIndex s;
                   rBitIndex := bitIndex;
                   rCurrentByte := currentByte |})
  end.

Fixpoint read_pixels (dataLength : Z) (pixels : list Z) (s : ReadState)
  : ReadState :=
  match pixels with
  | r :: g :: b :: _ :: rest =>
      let s' := read_channels dataLength [r; g; b] s in
      if negb (readingHeader s') && (outputIndex s' >=? dataLength) then s'
      else read_pixels dataLength rest s'
  | _ => s
  end.

(** [reveal(stegoImageFile)] *)
Definition reveal (image : Image) : result (list Z) :=
  let pixels := data image in
  let h := header_pixels pixels
             {| headerBytes := Uint8Array_new 4; byteIndex := 0;
                hBitIndex := 0; hCurrentByte := 0 |} in
  let dataLength := getUint32_be (headerBytes h) in
  if (dataLength <=? 0)
     || negb (Qle_bool (num dataLength) (num (len pixels * 3) / num 8))
  then Throw NoValidHiddenData
  else
    let s := read_pixels dataLength pixels
               {| readingHeader := true; headerBuffer := 0;
                  headerBitsRead := 0;
                  outputBuffer := Uint8Array_new dataLength;
                  outputIndex := 0; rBitIndex := 0; rCurrentByte := 0 |} in
    Ok (outputBuffer s).

End LSBEncoder.

(** ** The bit stream carried by an image

    The view of the codec used to state and prove its properties: the
    payload as a sequence of bits, most significant first, and the [R], [G],
    [B] samples of an image in raster order. *)

Module BitStream.

Definition byte_bits (b : Z) : list Z :=
  map (fun k => Z.land (Z.shiftr b (7 - k)) 1) [0; 1; 2; 3; 4; 5; 6; 7].

Definition bitstream (bytes : list Z) : list Z := flat_map byte_bits bytes.

Definition is_bit (b : Z) : Prop := b = 0 \/ b = 1.

(** Most-significant-bit-first reassembly, as both passes of [reveal] do. *)
Definition assemble (bits : list Z) : Z :=
  fold_left (fun acc bit => Z.lor (Z.shiftl acc 1) bit) bits 0.

Fixpoint rgb_samples (pixels : list Z) : list Z :=
  match pixels with
  | r :: g :: b :: _ :: rest => r :: g :: b :: rgb_samples rest
  | _ => []
  end.

Definition lsb (p : Z) : Z := Z.land p 1.

Definition rgb_lsbs (pixels : list Z) : list Z := map lsb (rgb_samples pixels).

(** Position of sample [i] in the [R], [G], [B] bit stream ([i mod 4 < 3]). *)
Definition stream_position (i : Z) : Z := 3 * (i / 4) + i mod 4.

Definition set_lsb (p bit : Z) : Z :=
  ToUint8Clamp (Z.lor (Z.land p (Z.lnot 1)) bit).

(** Writing a list of bits into the samples of one pixel, then into a
    whole image. *)
Fixpoint put_bits (chans bits : list Z) : list Z * list Z :=
  match chans, bits with
  | p :: ps, bit :: bs =>
      let '(ps', bs') := put_bits ps bs in (set_lsb p bit :: ps', bs')
  | _, _ => (chans, bits)
  end.

Fixpoint embed (pixels bits : list Z) : list Z :=
  match pixels with
  | r :: g :: b :: a :: rest =>
      match bits with
      | [] => pixels
      | _ => let '(rgb, bits') := put_bits [r; g; b] bits in
             rgb ++ a :: embed rest bits'
      end
  | _ => pixels
  end.

(** One more bit of a byte being reassembled, from a sample. *)
Definition shift_in (acc p : Z) : Z := Z.lor (Z.shiftl acc 1) (Z.land p 1).

(** What [embed] does to one sample. *)
Definition put1 (p : Z) (bit : option Z) : Z :=
  match bit with
  | Some v => set_lsb p v
  | None => p
  end.

(** The bits a write cursor has still to place. *)
Definition pending (fullData : list Z) (c : LSBEncoder.Cursor) : list Z :=
  skipn (Z.to_nat (8 * LSBEncoder.dataIndex c + LSBEncoder.bitIndex c))
        (bitstream fullData).

Definition wf_cursor (c : LSBEncoder.Cursor) : Prop :=
  0 <= LSBEncoder.dataIndex c /\ 0 <= LSBEncoder.bitIndex c < 8.

(** The cursor after one bit. *)
Definition advance (c : LSBEncoder.Cursor) : LSBEncoder.Cursor :=
  if LSBEncoder.bitIndex c + 1 =? 8
  then {| LSBEncoder.dataIndex := LSBEncoder.dataIndex c + 1;
          LSBEncoder.bitIndex := 0 |}
  else {| LSBEncoder.dataIndex := LSBEncoder.dataIndex c;
          LSBEncoder.bitIndex := LSBEncoder.bitIndex c + 1 |}.

(** One step of the two readers of [reveal] on one sample. *)
Definition header_step (s : LSBEncoder.HeaderState) (bit : Z)
  : LSBEncoder.HeaderState :=
  LSBEncoder.header_channels [bit] s.

Definition read_step (dataLength : Z) (s : LSBEncoder.ReadState) (bit : Z)
  : LSBEncoder.ReadState :=
  LSBEncoder.read_channels dataLength [bit] s.

(** The checks evaluated on all bytes in the proofs below. *)
Definition set_lsb_ok (p : Z) : bool :=
  forallb (fun bit =>
             (Z.land (set_lsb p bit) 1 =? bit)
             && (Z.shiftr (set_lsb p bit) 1 =? Z.shiftr p 1)
             && (0 <=? set_lsb p bit) && (set_lsb p bit <=? 255))
          [0; 1].

Definition assemble_ok (b : Z) : bool :=
  ToUint8 (assemble (map lsb (byte_bits b))) =? b.

(** The state of the second pass of [reveal] between two payload bytes:
    [done] is stored, [n] more zero bytes follow in the buffer. *)
Definition data_state (s : LSBEncoder.ReadState) (done : list Z) (n : nat)
  : Prop :=
  LSBEncoder.readingHeader s = false
  /\ LSBEncoder.outputBuffer s = done ++ repeat 0 n
  /\ LSBEncoder.outputIndex s = len done
  /\ LSBEncoder.rBitIndex s = 0
  /\ LSBEncoder.rCurrentByte s = 0.

End BitStream.

(** ** Values of the running program

    What the decryption side reads out of a parsed metadata record is any
    JSON value, or [undefined] ([None]).  The conversions follow ECMA-262. *)

Module Values.

Import Unicode JSON.

(** What a handler can throw besides the [Error]s above. *)
Inductive Exception : Type :=
| Err (e : Error)
| DecryptionFailed        (* 'Decryption failed. Invalid password or corrupted file.' *)
| HiddenPasswordRequired  (* 'Password required to decrypt hidden file.' *)
| TypeError.              (* a property read on null, a call of what is no function *)

Inductive outcome (A : Type) : Type :=
| Return (a : A)
| Raise (x : Exception).
Arguments Return {A} a.
Arguments Raise {A} x.

Definition of_result {A : Type} (r : result A) : outcome A :=
  match r with
  | Ok a => Return a
  | Throw e => Raise (Err e)
  end.

Definition bind {A B : Type} (m : outcome A) (k : A -> outcome B) : outcome B :=
  match m with
  | Return a => k a
  | Raise x => Raise x
  end.

(** [ToBoolean]: [undefined], [null], [false], zero and the empty string
    are the falsy values. *)
Definition ToBoolean (v : option value) : bool :=
  match v with
  | None => false
  | Some JNull => false
  | Some (JBool b) => b
  | Some (JNumber q) => negb (Qeq_bool q 0)
  | Some (JString []) => false
  | Some (JString (_ :: _)) => true
  | Some (JArray _) => true
  | Some (JObject _) => true
  end.

Fixpoint lookup (members : list (list Z * value)) (key : list Z)
  : option value :=
  match members with
  | [] => None
  | (k, v) :: rest => if string_eqb k key then Some v else lookup rest key
  end.

(** [v.key] for a property name that no prototype defines ([hasPassword],
    [key], [filename], [mimeType]): the member of an object, [undefined]
    where there is none, and a [TypeError] on [null]. *)
Definition Get (v : value) (key : list Z) : outcome (option value) :=
  match v with
  | JNull => Raise TypeError
  | JObject members => Return (lookup members key)
  | _ => Return None
  end.

(** [s.startsWith(prefix)] and [s.endsWith(suffix)] *)
Fixpoint startsWith (s prefix : list Z) : bool :=
  match prefix, s with
  | [], _ => true
  | p :: prefix', c :: s' => (c =? p) && startsWith s' prefix'
  | _ :: _, [] => false
  end.

Definition endsWith (s suffix : list Z) : bool :=
  (length suffix <=? length s)%nat
  && string_eqb (skipn (length s - length suffix) s) suffix.

(** An element of an array handed to [new Uint8Array]: an integer in the
    safe range is stored modulo 256. *)
Definition byte_of_number (v : value) : option Z :=
  match v with
  | JNumber q =>
      let n := Qfloor q in
      if Qeq_bool q (num n) && Encryptor.is_safe_integerb n
      then Some (ToUint8 n) else None
  | _ => None
  end.

Fixpoint bytes_of_numbers (items : list value) : option (list Z) :=
  match items with
  | [] => Some []
  | v :: rest =>
      match byte_of_number v, bytes_of_numbers rest with
      | Some b, Some bs => Some (b :: bs)
      | _, _ => None
      end
  end.

(** [new Uint8Array(v)] for [v] an array of integers.  [None] marks an
    argument outside this fragment (a length, an array-like, elements that
    need [ToNumber] of a string), whose conversion is not modelled. *)
Definition Uint8Array_from (v : value) : option (list Z) :=
  match v with
  | JArray items => bytes_of_numbers items
  | _ => None
  end.

End Values.

(** ** Decryption in the Web Crypto interface

    [crypto.subtle.decrypt], and what the properties below assume of the
    platform: buffers hold bytes, AES-GCM decryption undoes encryption
    under the same key and nonce, and a raw key imported again is the same
    key. *)

Class SubtleDecrypt `{SubtleCrypto} : Type := {
  (** [decrypt({ name: 'AES-GCM', iv }, key, data)]; [None] when the
      promise is rejected. *)
  decrypt_AES_GCM : list Z -> CryptoKey -> list Z -> option (list Z)
}.

Class CryptoLaws `{SubtleDecrypt} : Prop := {
  encrypt_bytes :
    forall iv key data, Forall is_byte (encrypt_AES_GCM iv key data);
  export_bytes :
    forall key, Forall is_byte (exportKey_raw key);
  decrypt_encrypt :
    forall iv key data,
      Forall is_byte data ->
      decrypt_AES_GCM iv key (encrypt_AES_GCM iv key data) = Some data;
  import_export :
    forall keyData,
      importKey_AES_GCM (exportKey_raw (importKey_AES_GCM keyData))
      = importKey_AES_GCM keyData
}.

(** A stand-in implementation with these laws, to run the handlers on
    concrete inputs: keys are their raw bytes, a ciphertext is the data
    followed by a tag made of the nonce and the key, and decryption checks
    the tag. *)
Definition tag_crypto : SubtleCrypto :=
  {| KeyMaterial := list Z;
     CryptoKey := list Z;
     importKey_PBKDF2 := fun password => password;
     deriveKey_PBKDF2 := fun salt _ keyMaterial =>
                           map ToUint8 (keyMaterial ++ salt);
     importKey_AES_GCM := fun keyData => map ToUint8 keyData;
     exportKey_raw := fun key => map ToUint8 key;
     encrypt_AES_GCM := fun iv key data => map ToUint8 (data ++ iv ++ key) |}.

Definition tag_decrypt : @SubtleDecrypt tag_crypto :=
  @Build_SubtleDecrypt tag_crypto
    (fun (iv key data : list Z) =>
       let tag := map ToUint8 (iv ++ key) in
       let n := (length data - length tag)%nat in
       if (length tag <=? length data)%nat
          && JSON.string_eqb (skipn n data) tag
       then Some (firstn n data) else None).

(** ** src/crypto/decryptor.js: the functions after [parseEncryptedFile] *)

Module Decryption.

Import Unicode Values.

Section WithCrypto.
Context `{SubtleDecrypt}.

(** [decryptChunk(encryptedData, key, iv)]: a rejection of
    [crypto.subtle.decrypt] is caught and thrown again as an [Error]. *)
Definition decryptChunk (encryptedData : list Z) (key : CryptoKey)
  (iv : list Z) : outcome (list Z) :=
  match decrypt_AES_GCM iv key encryptedData with
  | Some decrypted => Return decrypted
  | None => Raise DecryptionFailed
  end.

(** [prepareKey(metadata, password, salt)]; [password] is a string or
    [null].  [None] is a key field outside the modelled fragment of
    [new Uint8Array].  The import of the embedded key is the interface's
    [importKey_AES_GCM], a total function: the platform imports the raw
    keys of 16, 24 and 32 bytes, as the keys a run embeds are, and rejects
    a buffer of another length, a case that is not modelled. *)
Definition prepareKey (metadata : JSON.value) (password : option (list Z))
  (salt : list Z) : option (outcome CryptoKey) :=
  match Get metadata (units "hasPassword") with
  | Raise x => Some (Raise x)
  | Return hasPassword =>
      if ToBoolean hasPassword then
        match password with
        | Some (c :: pw) =>
            Some (of_result (KeyManager.deriveKey (c :: pw) salt))
        | _ => Some (Raise (Err PasswordRequired))
        end
      else
        match Get metadata (units "key") with
        | Raise x => Some (Raise x)
        | Return key =>
            if negb (ToBoolean key) then Some (Raise (Err MissingKeyData))
            else
              match key with
              | Some k =>
                  match Uint8Array_from k with
                  | Some keyData => Some (Return (KeyManager.importKey keyData))
                  | None => None
                  end
              | None => None
              end
        end
  end.

End WithCrypto.

Record MediaType : Type := {
  isImage : bool;
  isVideo : bool;
  isAudio : bool
}.

(** [detectMediaType(mimeType)]: [startsWith] is a method of strings
    only. *)
Definition detectMediaType (mimeType : option JSON.value)
  : outcome MediaType :=
  match mimeType with
  | Some (JSON.JString s) =>
      Return {| isImage := startsWith s (units "image/");
                isVideo := startsWith s (units "video/");
                isAudio := startsWith s (units "audio/") |}
  | _ => Raise TypeError
  end.

End Decryption.

(** ** src/file-handling/downloader.js *)

Module Downloader.

Import Unicode Values.

Definition getEncryptedFilename (originalFilename : list Z) : list Z :=
  originalFilename ++ units ".enc".

(** [encryptedFilename.replace(/\.enc$/, '')] *)
Definition replace_enc (encryptedFilename : list Z) : list Z :=
  if endsWith encryptedFilename (units ".enc")
  then firstn (length encryptedFilename - 4) encryptedFilename
  else encryptedFilename.

(** [getDecryptedFilename(encryptedFilename, originalFilename)], the
    second argument being whatever the metadata holds. *)
Definition getDecryptedFilename (encryptedFilename : list Z)
  (originalFilename : option JSON.value) : JSON.value :=
  match originalFilename with
  | Some v =>
      if ToBoolean originalFilename then v
      else JSON.JString (replace_enc encryptedFilename)
  | None => JSON.JString (replace_enc encryptedFilename)
  end.

End Downloader.

(** ** src/utils/validation.js *)

Module FileValidator.

Import Unicode Values.

Definition MAX_FILE_SIZE : Z := 2 * 1024 * 1024 * 1024.

Inductive Message : Type :=
| FileSizeExceeds       (* 'File size exceeds maximum limit of 2GB' *)
| NoFileSelected        (* 'No file selected' *)
| NotAnEncryptedFile.   (* 'Selected file is not an encrypted file (.enc)' *)

Record Validation : Type := {
  valid : bool;
  error : option Message
}.

Definition validateFileSize (file : File) : Validation :=
  if size file >? MAX_FILE_SIZE
  then {| valid := false; error := Some FileSizeExceeds |}
  else {| valid := true; error := None |}.

Definition validateFileExists (file : option File) : Validation :=
  match file with
  | None => {| valid := false; error := Some NoFileSelected |}
  | Some _ => {| valid := true; error := None |}
  end.

Definition validateEncryptedFile (file : File) : Validation :=
  if negb (endsWith (name file) (units ".enc"))
  then {| valid := false; error := Some NotAnEncryptedFile |}
  else {| valid := true; error := None |}.

Definition validateForEncryption (file : option File) : Validation :=
  let result := validateFileExists file in
  if negb (valid result) then result
  else
    match file with
    | None => result
    | Some f =>
        let result := validateFileSize f in
        if negb (valid result) then result
        else {| valid := true; error := None |}
    end.

Definition validateForDecryption (file : option File) : Validation :=
  let result := validateFileExists file in
  if negb (valid result) then result
  else
    match file with
    | None => result
    | Some f =>
        let result := validateFileSize f in
        if negb (valid result) then result
        else
          let result := validateEncryptedFile f in
          if negb (valid result) then result
          else {| valid := true; error := None |}
    end.

End FileValidator.

(** ** src/file-handling/blob-builder.js *)

Module BlobBuilder.

(** [this.chunks]: an array with holes. *)
Record BlobBuilder : Type := {
  chunks : list (option (list Z))
}.

Definition constructor : BlobBuilder := {| chunks := [] |}.

(** [arr[index] = v] on an array: a store past the end extends the array
    and leaves holes. *)
Fixpoint Array_store {A : Type} (arr : list (option A)) (index : nat) (v : A)
  : list (option A) :=
  match index, arr with
  | O, [] => [Some v]
  | O, _ :: rest => Some v :: rest
  | S i, [] => None :: Array_store [] i v
  | S i, x :: rest => x :: Array_store rest i v
  end.

(** [arr.filter(chunk => chunk !== undefined)] *)
Fixpoint defined {A : Type} (arr : list (option A)) : list A :=
  match arr with
  | [] => []
  | Some x :: rest => x :: defined rest
  | None :: rest => defined rest
  end.

(** [addChunk(chunkData, index)]; a negative [index] names a property
    that is no element of the array. The array indices of JavaScript are
    the integers from [0] to [2^32 - 2], which the chunk indices of a file
    stay within; the statements about an arbitrary [index] carry that
    bound. *)
Definition addChunk (this : BlobBuilder) (chunkData : list Z) (index : Z)
  : BlobBuilder :=
  if index <? 0 then this
  else {| chunks := Array_store (chunks this) (Z.to_nat index) chunkData |}.

(** [build(mimeType)]: the bytes of the [Blob]. *)
Definition build (this : BlobBuilder) : list Z :=
  let validChunks := defined (chunks this) in
  concat validChunks.

Definition getChunkCount (this : BlobBuilder) : Z :=
  len (defined (chunks this)).

Definition clear (this : BlobBuilder) : BlobBuilder := {| chunks := [] |}.

(** The chunks of a reader handed over one by one. *)
Definition addChunks (this : BlobBuilder) (l : list ChunkedFileReader.Chunk)
  : BlobBuilder :=
  fold_left (fun b chunk =>
               addChunk b (ChunkedFileReader.data chunk)
                 (ChunkedFileReader.index chunk))
            l this.

End BlobBuilder.

(** ** src/media/memory-manager.js *)

Module MemoryManager.

(** [this.activeBlobUrls], a [Set] in insertion order, and the calls of
    [URL.revokeObjectURL] made so far. *)
Record MemoryManager : Type := {
  activeBlobUrls : list (list Z);
  revoked : list (list Z)
}.

Definition constructor : MemoryManager :=
  {| activeBlobUrls := []; revoked := [] |}.

Definition Set_has (s : list (list Z)) (url : list Z) : bool :=
  existsb (JSON.string_eqb url) s.

Definition Set_add (s : list (list Z)) (url : list Z) : list (list Z) :=
  if Set_has s url then s else s ++ [url].

Definition Set_delete (s : list (list Z)) (url : list Z) : list (list Z) :=
  filter (fun u => negb (JSON.string_eqb url u)) s.

(** [createBlobUrl(blob)]; [url] is what [URL.createObjectURL(blob)]
    returns. *)
Definition createBlobUrl (this : MemoryManager) (url : list Z)
  : MemoryManager * list Z :=
  ({| activeBlobUrls := Set_add (activeBlobUrls this) url;
      revoked := revoked this |}, url).

Definition revokeBlobUrl (this : MemoryManager) (url : list Z)
  : MemoryManager :=
  if Set_has (activeBlobUrls this) url
  then {| activeBlobUrls := Set_delete (activeBlobUrls this) url;
          revoked := revoked this ++ [url] |}
  else this.

Definition cleanup (this : MemoryManager) : MemoryManager :=
  {| activeBlobUrls := [];
     revoked := revoked this ++ activeBlobUrls this |}.

Definition getActiveCount (this : MemoryManager) : Z :=
  len (activeBlobUrls this).

(** The calls a page makes on its manager. *)
Inductive Call : Type :=
| CreateBlobUrl (url : list Z)
| RevokeBlobUrl (url : list Z)
| Cleanup.

Definition call (this : MemoryManager) (c : Call) : MemoryManager :=
  match c with
  | CreateBlobUrl url => fst (createBlobUrl this url)
  | RevokeBlobUrl url => revokeBlobUrl this url
  | Cleanup => cleanup this
  end.

Definition count_url (url : list Z) (l : list (list Z)) : nat :=
  length (filter (JSON.string_eqb url) l).

Definition created (calls : list Call) : list (list Z) :=
  flat_map (fun c => match c with CreateBlobUrl u => [u] | _ => [] end) calls.

End MemoryManager.

(** ** src/main.js: the password meter, [handleDecryption] and the
    steganography handlers *)

Module Handlers.

Import Unicode Values.

(** The [input] listener of the password field: the score it computes
    and the label it shows. *)
Definition has_upper (password : list Z) : bool :=
  existsb (fun c => (65 <=? c) && (c <=? 90)) password.

Definition has_digit (password : list Z) : bool :=
  existsb (fun c => (48 <=? c) && (c <=? 57)) password.

Definition is_alphanumeric (c : Z) : bool :=
  ((65 <=? c) && (c <=? 90)) || ((97 <=? c) && (c <=? 122))
  || ((48 <=? c) && (c <=? 57)).

Definition has_other (password : list Z) : bool :=
  existsb (fun c => negb (is_alphanumeric c)) password.

Definition passwordStrength (password : list Z) : Z :=
  let strength := 0 in
  let strength := if len password >? 0 then strength + 10 else strength in
  let strength := if len password >=? 8 then strength + 20 else strength in
  let strength := if has_upper password then strength + 20 else strength in
  let strength := if has_digit password then strength + 20 else strength in
  let strength := if has_other password then strength + 30 else strength in
  strength.

Inductive StrengthText : Type :=
| Weak      (* 'Strength: Weak' *)
| Medium    (* 'Strength: Medium' *)
| Strong.   (* 'Strength: Strong' *)

Definition strengthText (password : list Z) : StrengthText :=
  let strength := passwordStrength password in
  if strength <? 30 then Weak
  else if strength <? 70 then Medium
  else Strong.

(** What [handleDecryption] does with the decrypted file. *)
Inductive View : Type :=
| ShowImage
| ShowVideo
| Download.

Record Decrypted : Type := {
  decryptedData : list Z;
  blobType : option JSON.value;            (* metadata.mimeType *)
  currentDecryptedFilename : JSON.value;
  view : View
}.

(** What the reveal handler downloads. *)
Record Revealed : Type := {
  revealedData : list Z;
  revealedType : option JSON.value;        (* metadata.mimeType *)
  revealedFilename : option JSON.value     (* metadata.filename *)
}.

(** The secret of the hide handler: the selected file, if any, in the
    'file' mode, the content of the text area otherwise. *)
Inductive Secret : Type :=
| SecretFile (stegoSecretFile : option File)
| SecretText (text : list Z).

(** What the hide handler takes from the secret: [dataToEncrypt],
    [filename] and [mimeType]; [None] where it returns at once. *)
Definition prepare_secret (secret : Secret)
  : option (list Z * list Z * list Z) :=
  match secret with
  | SecretFile None => None
  | SecretFile (Some stegoSecretFile) =>
      Some (bytes stegoSecretFile, name stegoSecretFile,
            match type stegoSecretFile with
            | [] => units "application/octet-stream"
            | t => t
            end)
  | SecretText [] => None
  | SecretText text =>
      Some (TextEncoder_encode text, units "secret.txt", units "text/plain")
  end.

(** A secret made of bytes and of strings of code units. *)
Definition wf_secret (secret : Secret) : Prop :=
  match secret with
  | SecretFile None => True
  | SecretFile (Some stegoSecretFile) =>
      Forall is_byte (bytes stegoSecretFile)
      /\ Forall is_code_unit (name stegoSecretFile)
      /\ Forall is_code_unit (type stegoSecretFile)
  | SecretText text => Forall is_code_unit text
  end.

(** [value || null] of a password field *)
Definition password_or_null (passwordValue : list Z) : option (list Z) :=
  match passwordValue with
  | [] => None
  | _ :: _ => Some passwordValue
  end.

(** [!password] *)
Definition no_password (password : option (list Z)) : bool :=
  match password with
  | Some (_ :: _) => false
  | _ => true
  end.

Section WithCrypto.
Context `{SubtleDecrypt}.

(** [handleDecryption()] without its status and progress display:
    [decryptFile] is the selected file and [passwordValue] the content of
    the password field.  [None] is a metadata key outside the modelled
    fragment, as for [Decryption.prepareKey]. *)
Definition handleDecryption (decryptFile : File) (passwordValue : list Z)
  : option (outcome Decrypted) :=
  let password := password_or_null passwordValue in
  let fileData := bytes decryptFile in
  match Decryptor.parseEncryptedFile fileData with
  | Throw e => Some (Raise (Err e))
  | Ok parsed =>
      let salt := Decryptor.salt parsed in
      let iv := Decryptor.iv parsed in
      let encryptedData := Decryptor.encryptedData parsed in
      let metadata := Decryptor.metadata parsed in
      match Decryption.prepareKey metadata password salt with
      | None => None
      | Some (Raise x) => Some (Raise x)
      | Some (Return key) =>
          Some
            (bind (Decryption.decryptChunk encryptedData key iv)
               (fun decryptedData =>
            bind (Get metadata (units "mimeType")) (fun mimeType =>
            bind (Get metadata (units "filename")) (fun filename =>
            let currentDecryptedFilename :=
              Downloader.getDecryptedFilename (name decryptFile) filename in
            bind (Decryption.detectMediaType mimeType) (fun mediaType =>
            Return
              {| decryptedData := decryptedData;
                 blobType := mimeType;
                 currentDecryptedFilename := currentDecryptedFilename;
                 view := if Decryption.isImage mediaType then ShowImage
                         else if Decryption.isVideo mediaType then ShowVideo
                         else Download |})))))
      end
  end.

(** The [click] listener of the hide button: the samples of the PNG it
    downloads.  [None] is one of its early [return]s (no secret, or a
    password asked for and not given). *)
Definition stegoHide (r : Randomness) (now : Z) (cover : LSBEncoder.Image)
  (secret : Secret) (usePassword : bool) (passwordValue : list Z)
  : option (result (list Z)) :=
  match prepare_secret secret with
  | None => None
  | Some (dataToEncrypt, filename, mimeType) =>
      let password := if usePassword then Some passwordValue else None in
      if usePassword && no_password password then None
      else Some
        (let salt := KeyManager.generateSalt r in
         let iv := KeyManager.generateIV r in
         match Encryptor.prepareKey r password salt with
         | Throw e => Throw e
         | Ok (key, keyData) =>
             let encryptedData :=
               snd (Encryptor.encryptChunk dataToEncrypt key iv) in
             let metadata :=
               Encryptor.createMetadata now filename mimeType usePassword 1
                 keyData in
             let serializedMetadata := Encryptor.serializeMetadata metadata in
             let encryptedBuffer :=
               Encryptor.buildEncryptedFile salt iv [encryptedData]
                 serializedMetadata in
             match LSBEncoder.hide cover encryptedBuffer with
             | (Ok _, pixels) => Ok pixels
             | (Throw e, _) => Throw e
             end
         end)
  end.

(** The [click] listener of the reveal button. *)
Definition stegoReveal (stegoImage : LSBEncoder.Image)
  (passwordValue : list Z) : option (outcome Revealed) :=
  match LSBEncoder.reveal stegoImage with
  | Throw e => Some (Raise (Err e))
  | Ok extractedBuffer =>
      match Decryptor.parseEncryptedFile extractedBuffer with
      | Throw e => Some (Raise (Err e))
      | Ok parsed =>
          let salt := Decryptor.salt parsed in
          let iv := Decryptor.iv parsed in
          let encryptedData := Decryptor.encryptedData parsed in
          let metadata := Decryptor.metadata parsed in
          let password := password_or_null passwordValue in
          match Get metadata (units "hasPassword") with
          | Raise x => Some (Raise x)
          | Return hasPassword =>
              if ToBoolean hasPassword && no_password password
              then Some (Raise HiddenPasswordRequired)
              else
                match Decryption.prepareKey metadata password salt with
                | None => None
                | Some (Raise x) => Some (Raise x)
                | Some (Return key) =>
                    Some
                      (bind (Decryption.decryptChunk encryptedData key iv)
                         (fun decryptedData =>
                      bind (Get metadata (units "mimeType")) (fun mimeType =>
                      bind (Get metadata (units "filename")) (fun filename =>
                      Return
                        {| revealedData := decryptedData;
                           revealedType := mimeType;
                           revealedFilename := filename |}))))
                end
          end
      end
  end.

End WithCrypto.

End Handlers.

(** ** Invariants used in the proofs *)

Module Invariants.

Import LSBEncoder.

(** The first pass of [reveal] after [n] bits, fewer than 32: the bytes
    completed so far are stored, the last one is still zero. *)
Definition header_inv (s : HeaderState) (n : Z) : Prop :=
  0 <= byteIndex s /\ 0 <= hBitIndex s < 8
  /\ 8 * byteIndex s + hBitIndex s = n
  /\ length (headerBytes s) = 4%nat
  /\ Forall is_byte (headerBytes s)
  /\ (byteIndex s <= 3 -> nth 3 (headerBytes s) 0 = 0).

End Invariants.

(** * Properties *)

Section Numbers.

Lemma floor_div (a b : Z) : 0 < b -> Math_floor (num a / num b) = a / b.
Proof.
  intros Hb. unfold Math_floor, num, Qdiv, Qinv, inject_Z, Qmult, Qfloor.
  destruct b as [|p|p]; try lia. simpl.
  rewrite Z.mul_1_r. reflexivity.
Qed.

End Numbers.

(** C8. [getMaxCapacity] is [floor((W * H * 3 - 32) / 8)], [hasCapacity]
    compares the payload size with it, and a 200 x 200 image holds 14996
    bytes. *)
Theorem capacity_formula :
  (forall image : LSBEncoder.Image,
      LSBEncoder.getMaxCapacity image
      = (LSBEncoder.width image * LSBEncoder.height image * 3 - 32) / 8) /\
  (forall (image : LSBEncoder.Image) (n : Z),
      LSBEncoder.hasCapacity image n = true
      <-> n <= LSBEncoder.getMaxCapacity image) /\
  (forall px : list Z,
      LSBEncoder.getMaxCapacity
        {| LSBEncoder.width := 200; LSBEncoder.height := 200;
           LSBEncoder.data := px |} = 14996).
Proof.
  split; [|split].
  - intros image. unfold LSBEncoder.getMaxCapacity.
    apply floor_div. lia.
  - intros image n. unfold LSBEncoder.hasCapacity, LSBEncoder.getMaxCapacity.
    apply Z.leb_le.
  - intros px. unfold LSBEncoder.getMaxCapacity. rewrite floor_div by lia.
    reflexivity.
Qed.

(** ** Typed arrays and bytes *)

Section Bytes.

Lemma len_app {A : Type} (l1 l2 : list A) : len (l1 ++ l2) = len l1 + len l2.
Proof. unfold len. rewrite length_app. lia. Qed.

Lemma len_nonneg {A : Type} (l : list A) : 0 <= len l.
Proof. unfold len. lia. Qed.

Lemma len_cons {A : Type} (x : A) (l : list A) : len (x :: l) = 1 + len l.
Proof. unfold len. simpl length. lia. Qed.

Lemma set_nth_length {A : Type} (l : list A) (n : nat) (v : A) :
  length (set_nth l n v) = length l.
Proof.
  revert n. induction l as [|h t IH]; intros [|n]; simpl; auto.
Qed.

Lemma set_nth_app {A : Type} (l1 l2 : list A) (x v : A) :
  set_nth (l1 ++ x :: l2) (length l1) v = l1 ++ v :: l2.
Proof.
  induction l1 as [|h t IH]; simpl; [reflexivity|]. now rewrite IH.
Qed.

Lemma all_bytes_spec (f : Z -> bool) :
  all_bytes f = true -> forall b, is_byte b -> f b = true.
Proof.
  unfold all_bytes, is_byte. intros H b Hb.
  rewrite forallb_forall in H. apply H.
  apply in_map_iff. exists (Z.to_nat b). split; [lia|].
  apply in_seq. lia.
Qed.

Lemma is_byteb_spec (l : list Z) :
  forallb is_byteb l = true -> Forall is_byte l.
Proof.
  intros H. apply Forall_forall. intros x Hx.
  rewrite forallb_forall in H. specialize (H x Hx).
  unfold is_byteb in H. unfold is_byte. lia.
Qed.

Lemma ToUint8_byte (b : Z) : is_byte b -> ToUint8 b = b.
Proof. unfold is_byte, ToUint8. intros. apply Z.mod_small. lia. Qed.

Lemma setUint32_be_bytes (v : Z) : Forall is_byte (setUint32_be v).
Proof.
  unfold setUint32_be, is_byte.
  change (2 ^ 32) with 4294967296. change (2 ^ 24) with 16777216.
  change (2 ^ 16) with 65536. change (2 ^ 8) with 256.
  repeat constructor; Z.div_mod_to_equations; lia.
Qed.

Lemma getUint32_be_set (v : Z) :
  0 <= v < 2 ^ 32 -> getUint32_be (setUint32_be v) = v.
Proof.
  intros Hv. unfold getUint32_be, setUint32_be. simpl nth.
  rewrite (Z.mod_small v) by lia.
  change (2 ^ 24) with 16777216. change (2 ^ 16) with 65536.
  change (2 ^ 8) with 256.
  Z.div_mod_to_equations. lia.
Qed.

Lemma getUint32_le_set (v : Z) :
  0 <= v < 2 ^ 32 -> getUint32_le (setUint32_le v) = v.
Proof.
  intros Hv. unfold getUint32_le, setUint32_le. rewrite rev_involutive.
  now apply getUint32_be_set.
Qed.

Lemma setUint32_be_length (v : Z) : length (setUint32_be v) = 4%nat.
Proof. reflexivity. Qed.

End Bytes.

(** ** [hide] writes the bit stream of [fullData] *)

Section HideEmbed.

Import LSBEncoder BitStream.

(** Induction over a sample buffer pixel by pixel. *)
Lemma pixel_ind (P : list Z -> Prop) :
  (forall l, (length l < 4)%nat -> P l) ->
  (forall r g b a rest, P rest -> P (r :: g :: b :: a :: rest)) ->
  forall l, P l.
Proof.
  intros Hshort Hstep.
  fix IH 1. intros l.
  destruct l as [|r [|g [|b [|a rest]]]];
    try (apply Hshort; simpl; lia).
  apply Hstep. apply IH.
Qed.

Lemma byte_bits_length (b : Z) : length (byte_bits b) = 8%nat.
Proof. reflexivity. Qed.

Lemma bitstream_app (l1 l2 : list Z) :
  bitstream (l1 ++ l2) = bitstream l1 ++ bitstream l2.
Proof. unfold bitstream. apply flat_map_app. Qed.

Lemma bitstream_cons (b : Z) (l : list Z) :
  bitstream (b :: l) = byte_bits b ++ bitstream l.
Proof. reflexivity. Qed.

Lemma bitstream_length (l : list Z) : length (bitstream l) = (8 * length l)%nat.
Proof.
  induction l as [|b l IH]; [reflexivity|].
  rewrite bitstream_cons, length_app, IH, byte_bits_length.
  simpl length. lia.
Qed.

Lemma land_1_mod (x : Z) : Z.land x 1 = x mod 2.
Proof. change 1 with (Z.ones 1). rewrite Z.land_ones by lia. reflexivity. Qed.

Lemma is_bit_land (x : Z) : is_bit (Z.land x 1).
Proof.
  unfold is_bit. rewrite land_1_mod.
  pose proof (Z.mod_pos_bound x 2). lia.
Qed.

Lemma bitstream_bits (l : list Z) : Forall is_bit (bitstream l).
Proof.
  induction l as [|b l IH]; [constructor|].
  rewrite bitstream_cons. apply Forall_app. split; [|exact IH].
  unfold byte_bits. apply Forall_map. apply Forall_forall. intros k _.
  apply is_bit_land.
Qed.

Lemma nth_bitstream (l : list Z) (d k : nat) :
  (d < length l)%nat -> (k < 8)%nat ->
  nth (8 * d + k) (bitstream l) 0
  = Z.land (Z.shiftr (nth d l 0) (7 - Z.of_nat k)) 1.
Proof.
  revert d. induction l as [|b l IH]; intros d Hd Hk; [simpl in Hd; lia|].
  rewrite bitstream_cons. destruct d as [|d].
  - rewrite app_nth1 by (rewrite byte_bits_length; lia).
    do 8 (destruct k as [|k]; [reflexivity|]). lia.
  - replace (8 * S d + k)%nat with (8 + (8 * d + k))%nat by lia.
    rewrite app_nth2 by (rewrite byte_bits_length; lia).
    rewrite byte_bits_length.
    replace (8 + (8 * d + k) - 8)%nat with (8 * d + k)%nat by lia.
    simpl nth. apply IH; simpl in Hd; lia.
Qed.

Lemma skipn_nth_cons {A : Type} (l : list A) (n : nat) (d : A) :
  (n < length l)%nat -> skipn n l = nth n l d :: skipn (S n) l.
Proof.
  revert n. induction l as [|x l IH]; intros n Hn; [simpl in Hn; lia|].
  destruct n as [|n]; [reflexivity|].
  simpl. apply IH. simpl in Hn. lia.
Qed.

Lemma advance_wf (c : Cursor) : wf_cursor c -> wf_cursor (advance c).
Proof.
  unfold wf_cursor, advance. intros [H1 H2].
  destruct (Z.eqb_spec (bitIndex c + 1) 8); cbn [dataIndex bitIndex]; lia.
Qed.

Lemma pending_nil (fullData : list Z) (c : Cursor) :
  wf_cursor c -> len fullData <= dataIndex c -> pending fullData c = [].
Proof.
  unfold wf_cursor, pending, len. intros [H1 H2] H.
  apply skipn_all2. rewrite bitstream_length. lia.
Qed.

Lemma pending_cons (fullData : list Z) (c : Cursor) :
  wf_cursor c -> dataIndex c < len fullData ->
  pending fullData c
  = Z.land (Z.shiftr (nth (Z.to_nat (dataIndex c)) fullData 0)
                     (7 - bitIndex c)) 1
    :: pending fullData (advance c).
Proof.
  unfold wf_cursor, pending, len. intros [H1 H2] H.
  rewrite (skipn_nth_cons _ _ 0) by (rewrite bitstream_length; lia).
  f_equal.
  - replace (Z.to_nat (8 * dataIndex c + bitIndex c))
      with (8 * Z.to_nat (dataIndex c) + Z.to_nat (bitIndex c))%nat by lia.
    rewrite nth_bitstream by lia.
    rewrite Z2Nat.id by lia. reflexivity.
  - f_equal. unfold advance.
    destruct (Z.eqb_spec (bitIndex c + 1) 8); cbn [dataIndex bitIndex]; lia.
Qed.

Lemma hide_channels_put (fullData chans : list Z) (c : Cursor) :
  wf_cursor c ->
  exists c',
    hide_channels fullData chans c
    = (fst (put_bits chans (pending fullData c)), c')
    /\ wf_cursor c'
    /\ pending fullData c' = snd (put_bits chans (pending fullData c)).
Proof.
  revert c. induction chans as [|p rest IH]; intros c Hc.
  - exists c. simpl. auto.
  - simpl hide_channels.
    destruct (dataIndex c >=? len fullData) eqn:E.
    + exists c. rewrite pending_nil by (auto; lia). simpl. auto.
    + rewrite pending_cons by (auto; lia).
      fold (advance c).
      destruct (IH (advance c) (advance_wf c Hc)) as (c' & H1 & H2 & H3).
      exists c'. rewrite H1. simpl put_bits.
      destruct (put_bits rest (pending fullData (advance c))) as [ps bs] eqn:Ep.
      simpl in *. auto.
Qed.

Lemma embed_nil (pixels : list Z) : embed pixels [] = pixels.
Proof. destruct pixels as [|r [|g [|b [|a rest]]]]; reflexivity. Qed.

Lemma hide_pixels_embed (fullData pixels : list Z) (c : Cursor) :
  wf_cursor c ->
  hide_pixels fullData pixels c = embed pixels (pending fullData c).
Proof.
  revert c. induction pixels as [l Hl | r g b a rest IH] using pixel_ind;
    intros c Hc.
  - destruct l as [|r [|g [|b [|a rest]]]]; try reflexivity. simpl in Hl. lia.
  - cbn [hide_pixels embed].
    destruct (dataIndex c >=? len fullData) eqn:E.
    + rewrite pending_nil by (auto; lia). reflexivity.
    + destruct (hide_channels_put fullData [r; g; b] c Hc) as (c' & H1 & H2 & H3).
      assert (Hne : pending fullData c <> [])
        by (rewrite pending_cons by (auto; lia); discriminate).
      destruct (pending fullData c) as [|bit bs]; [congruence|].
      destruct (put_bits [r; g; b] (bit :: bs)) as [rgb bits'].
      cbn [fst snd] in H1, H3. rewrite H1, IH, H3 by assumption.
      reflexivity.
Qed.

End HideEmbed.

(** ** What [embed] changes *)

Section EmbedFrame.

Import LSBEncoder BitStream.

Lemma embed_cons4 (r g b a : Z) (rest bits : list Z) :
  embed (r :: g :: b :: a :: rest) bits
  = put1 r (nth_error bits 0) :: put1 g (nth_error bits 1)
      :: put1 b (nth_error bits 2) :: a :: embed rest (skipn 3 bits).
Proof.
  destruct bits as [|b1 [|b2 [|b3 bs]]]; cbn [embed put_bits nth_error put1 skipn app];
    rewrite ?embed_nil; reflexivity.
Qed.

Lemma embed_short (l bits : list Z) : (length l < 4)%nat -> embed l bits = l.
Proof.
  destruct l as [|r [|g [|b [|a rest]]]]; simpl; intros; try reflexivity; lia.
Qed.

Lemma embed_length (pixels bits : list Z) :
  length (embed pixels bits) = length pixels.
Proof.
  revert bits. induction pixels as [l Hl | r g b a rest IH] using pixel_ind;
    intros bits.
  - now rewrite embed_short.
  - rewrite embed_cons4. simpl. now rewrite IH.
Qed.

Lemma set_lsb_spec (p bit : Z) :
  is_byte p -> is_bit bit ->
  lsb (set_lsb p bit) = bit
  /\ Z.shiftr (set_lsb p bit) 1 = Z.shiftr p 1
  /\ is_byte (set_lsb p bit).
Proof.
  intros Hp Hb.
  assert (H : set_lsb_ok p = true)
    by (revert p Hp; apply all_bytes_spec; vm_compute; reflexivity).
  unfold set_lsb_ok in H. rewrite forallb_forall in H.
  specialize (H bit).
  assert (Hin : In bit [0; 1]) by (destruct Hb; subst; simpl; auto).
  apply H in Hin.
  rewrite !andb_true_iff in Hin. destruct Hin as [[[H1 H2] H3] H4].
  unfold lsb, is_byte. lia.
Qed.

Lemma put1_spec (p : Z) (ob : option Z) :
  is_byte p -> (forall v, ob = Some v -> is_bit v) ->
  Z.shiftr (put1 p ob) 1 = Z.shiftr p 1 /\ is_byte (put1 p ob).
Proof.
  intros Hp Hb. destruct ob as [v|]; simpl; [|auto].
  destruct (set_lsb_spec p v Hp (Hb v eq_refl)) as (_ & H2 & H3). auto.
Qed.

Lemma nth_error_bit (bits : list Z) (k : nat) (v : Z) :
  Forall is_bit bits -> nth_error bits k = Some v -> is_bit v.
Proof.
  intros H E. rewrite Forall_forall in H. apply H.
  eapply nth_error_In; eauto.
Qed.

Lemma Forall_skipn {A : Type} (P : A -> Prop) (n : nat) (l : list A) :
  Forall P l -> Forall P (skipn n l).
Proof.
  revert l. induction n as [|n IH]; intros l H; [exact H|].
  destruct l as [|x l]; [constructor|]. simpl. apply IH. now inversion H.
Qed.

Lemma embed_bytes (pixels bits : list Z) :
  Forall is_byte pixels -> Forall is_bit bits ->
  Forall is_byte (embed pixels bits).
Proof.
  revert bits. induction pixels as [l Hl | r g b a rest IH] using pixel_ind;
    intros bits Hp Hb.
  - now rewrite embed_short.
  - rewrite embed_cons4.
    inversion Hp as [|? ? Hr Hp1]; subst. inversion Hp1 as [|? ? Hg Hp2]; subst.
    inversion Hp2 as [|? ? Hb' Hp3]; subst. inversion Hp3 as [|? ? Ha Hp4]; subst.
    assert (Hput : forall p k, is_byte p -> is_byte (put1 p (nth_error bits k)))
      by (intros p k Hpk; apply put1_spec;
          [assumption | intros v; apply nth_error_bit; assumption]).
    apply Forall_cons; [now apply Hput|].
    apply Forall_cons; [now apply Hput|].
    apply Forall_cons; [now apply Hput|].
    apply Forall_cons; [assumption|].
    apply IH; [assumption | now apply Forall_skipn].
Qed.

(** The [R], [G], [B] samples of the result carry the bits, in order. *)
Lemma rgb_lsbs_embed (pixels bits : list Z) :
  Forall is_byte pixels -> Forall is_bit bits ->
  (length bits <= length (rgb_samples pixels))%nat ->
  rgb_lsbs (embed pixels bits) = bits ++ skipn (length bits) (rgb_lsbs pixels).
Proof.
  revert bits. induction pixels as [l Hl | r g b a rest IH] using pixel_ind;
    intros bits Hp Hb Hlen.
  - rewrite embed_short by assumption.
    destruct l as [|r [|g [|b [|a rest]]]]; simpl in Hl; try lia;
      simpl in Hlen; destruct bits; simpl in Hlen; try lia; reflexivity.
  - rewrite embed_cons4.
    inversion Hp as [|? ? Hr Hp1]; subst. inversion Hp1 as [|? ? Hg Hp2]; subst.
    inversion Hp2 as [|? ? Hb' Hp3]; subst. inversion Hp3 as [|? ? Ha Hp4]; subst.
    unfold rgb_lsbs in *. cbn [rgb_samples map].
    destruct bits as [|b1 [|b2 [|b3 bs]]].
    + cbn [nth_error put1 skipn length app]. rewrite embed_nil. reflexivity.
    + inversion Hb; subst.
      cbn [nth_error put1 skipn length app]. rewrite embed_nil.
      rewrite (proj1 (set_lsb_spec r b1 Hr ltac:(assumption))). reflexivity.
    + inversion Hb as [|? ? Hb1 Hb2]; subst. inversion Hb2; subst.
      cbn [nth_error put1 skipn length app]. rewrite embed_nil.
      rewrite (proj1 (set_lsb_spec r b1 Hr ltac:(assumption))).
      rewrite (proj1 (set_lsb_spec g b2 Hg ltac:(assumption))). reflexivity.
    + inversion Hb as [|? ? Hb1 Hb2]; subst. inversion Hb2 as [|? ? Hb3 Hb4]; subst.
      inversion Hb4 as [|? ? Hb5 Hb6]; subst.
      cbn [nth_error put1 skipn length app].
      rewrite (proj1 (set_lsb_spec r b1 Hr ltac:(assumption))).
      rewrite (proj1 (set_lsb_spec g b2 Hg ltac:(assumption))).
      rewrite (proj1 (set_lsb_spec b b3 Hb' ltac:(assumption))).
      rewrite IH; [reflexivity | assumption | assumption |].
      cbn [rgb_samples length] in Hlen. lia.
Qed.

End EmbedFrame.

(** ** [reveal] reads the bit stream back *)

Section RevealBits.

Import LSBEncoder BitStream.

Lemma lsb_lsb (p : Z) : lsb (lsb p) = lsb p.
Proof.
  unfold lsb. rewrite <- Z.land_assoc. now rewrite Z.land_diag.
Qed.

Lemma map_lsb_bits (bits : list Z) :
  Forall is_bit bits -> map lsb bits = bits.
Proof.
  induction 1 as [|x l Hx Hl IH]; [reflexivity|].
  simpl. rewrite IH. f_equal. destruct Hx; subst; reflexivity.
Qed.

Lemma assemble_byte_bits (b : Z) :
  is_byte b -> ToUint8 (assemble (map lsb (byte_bits b))) = b.
Proof.
  intros Hb. apply Z.eqb_eq. change (assemble_ok b = true).
  revert b Hb. apply all_bytes_spec. vm_compute. reflexivity.
Qed.

(** *** First pass *)

Lemma header_step_done (s : HeaderState) (p : Z) :
  4 <= byteIndex s -> header_step s p = s.
Proof.
  intros H. unfold header_step, header_channels.
  destruct (Z.geb_spec (byteIndex s) 4); [reflexivity | lia].
Qed.

Lemma fold_header_done (l : list Z) (s : HeaderState) :
  4 <= byteIndex s -> fold_left header_step l s = s.
Proof.
  intros H. induction l as [|p l IH]; [reflexivity|].
  simpl. now rewrite header_step_done.
Qed.

Lemma header_channels_fold (chans : list Z) (s : HeaderState) :
  header_channels chans s = fold_left header_step chans s.
Proof.
  revert s. induction chans as [|p rest IH]; intros s; [reflexivity|].
  cbn [fold_left]. unfold header_step at 2. cbn [header_channels].
  destruct (Z.geb_spec (byteIndex s) 4) as [H|H].
  - now rewrite fold_header_done.
  - apply IH.
Qed.

Lemma header_pixels_fold (pixels : list Z) (s : HeaderState) :
  header_pixels pixels s = fold_left header_step (rgb_samples pixels) s.
Proof.
  revert s. induction pixels as [l Hl | r g b a rest IH] using pixel_ind;
    intros s.
  - destruct l as [|r [|g [|b [|a rest]]]]; try reflexivity. simpl in Hl. lia.
  - cbn [header_pixels rgb_samples].
    destruct (Z.ltb_spec (byteIndex s) 4) as [H|H].
    + rewrite IH, header_channels_fold. reflexivity.
    + now rewrite fold_header_done.
Qed.

Lemma header_step_lsb (s : HeaderState) (p : Z) :
  header_step s p = header_step s (lsb p).
Proof.
  unfold header_step, header_channels. fold (lsb p). fold (lsb (lsb p)).
  now rewrite lsb_lsb.
Qed.

Lemma fold_header_lsb (l : list Z) (s : HeaderState) :
  fold_left header_step l s = fold_left header_step (map lsb l) s.
Proof.
  revert s. induction l as [|p l IH]; intros s; [reflexivity|].
  simpl. rewrite <- header_step_lsb. apply IH.
Qed.

Lemma header_step_eq (s : HeaderState) (p : Z) :
  byteIndex s < 4 ->
  header_step s p
  = if hBitIndex s + 1 =? 8
    then {| headerBytes :=
              Uint8Array_store (headerBytes s) (byteIndex s)
                (shift_in (hCurrentByte s) p);
            byteIndex := byteIndex s + 1;
            hBitIndex := 0;
            hCurrentByte := 0 |}
    else {| headerBytes := headerBytes s;
            byteIndex := byteIndex s;
            hBitIndex := hBitIndex s + 1;
            hCurrentByte := shift_in (hCurrentByte s) p |}.
Proof.
  intros Hk. unfold header_step. cbn [header_channels].
  destruct (Z.geb_spec (byteIndex s) 4); [lia|].
  destruct (hBitIndex s + 1 =? 8); reflexivity.
Qed.

Lemma header_partial (bits : list Z) (s : HeaderState) :
  byteIndex s < 4 -> hBitIndex s + len bits < 8 ->
  fold_left header_step bits s
  = {| headerBytes := headerBytes s;
       byteIndex := byteIndex s;
       hBitIndex := hBitIndex s + len bits;
       hCurrentByte := fold_left shift_in bits (hCurrentByte s) |}.
Proof.
  revert s. induction bits as [|x bits IH]; intros s Hk Hb.
  - destruct s. cbn [fold_left headerBytes byteIndex hBitIndex hCurrentByte].
    unfold len. simpl length. now rewrite Z.add_0_r.
  - cbn [fold_left]. rewrite len_cons in *. pose proof (len_nonneg bits).
    rewrite header_step_eq by assumption.
    destruct (Z.eqb_spec (hBitIndex s + 1) 8); [lia|].
    rewrite IH by (cbn [byteIndex hBitIndex]; lia).
    cbn [headerBytes byteIndex hBitIndex hCurrentByte].
    f_equal. lia.
Qed.

Lemma assemble_shift_in (bits : list Z) (acc : Z) :
  fold_left shift_in bits acc
  = fold_left (fun a bit => Z.lor (Z.shiftl a 1) bit) (map lsb bits) acc.
Proof.
  revert acc. induction bits as [|x bits IH]; intros acc; [reflexivity|].
  cbn [fold_left map]. apply IH.
Qed.

Lemma header_read_bits (x0 x1 x2 x3 x4 x5 x6 x7 : Z) (s : HeaderState) :
  byteIndex s < 4 -> hBitIndex s = 0 -> hCurrentByte s = 0 ->
  fold_left header_step [x0; x1; x2; x3; x4; x5; x6; x7] s
  = {| headerBytes :=
         Uint8Array_store (headerBytes s) (byteIndex s)
           (assemble (map lsb [x0; x1; x2; x3; x4; x5; x6; x7]));
       byteIndex := byteIndex s + 1;
       hBitIndex := 0;
       hCurrentByte := 0 |}.
Proof.
  intros Hk Hb Hc.
  change [x0; x1; x2; x3; x4; x5; x6; x7]
    with ([x0; x1; x2; x3; x4; x5; x6] ++ [x7]) at 1.
  rewrite fold_left_app.
  rewrite (header_partial [x0; x1; x2; x3; x4; x5; x6] s)
    by (rewrite ?Hb; unfold len; simpl length; lia).
  cbn [fold_left]. rewrite header_step_eq by (cbn [byteIndex]; lia).
  cbn [headerBytes byteIndex hBitIndex hCurrentByte].
  rewrite Hb, Hc. unfold len. simpl length.
  change (0 + Z.of_nat 7 + 1 =? 8) with true. cbv iota.
  unfold assemble. rewrite <- assemble_shift_in. reflexivity.
Qed.

Lemma header_read_byte (b : Z) (s : HeaderState) :
  is_byte b -> 0 <= byteIndex s < 4 -> hBitIndex s = 0 -> hCurrentByte s = 0 ->
  fold_left header_step (byte_bits b) s
  = {| headerBytes := set_nth (headerBytes s) (Z.to_nat (byteIndex s)) b;
       byteIndex := byteIndex s + 1;
       hBitIndex := 0;
       hCurrentByte := 0 |}.
Proof.
  intros Hb Hk H1 H2. unfold byte_bits. cbn [map].
  rewrite header_read_bits by (assumption || lia).
  f_equal. unfold Uint8Array_store.
  destruct (Z.ltb_spec (byteIndex s) 0); [lia|].
  f_equal. apply (assemble_byte_bits b Hb).
Qed.

Lemma header_read (h0 h1 h2 h3 : Z) (tail : list Z) :
  is_byte h0 -> is_byte h1 -> is_byte h2 -> is_byte h3 ->
  headerBytes
    (fold_left header_step (bitstream [h0; h1; h2; h3] ++ tail)
       {| headerBytes := Uint8Array_new 4; byteIndex := 0;
          hBitIndex := 0; hCurrentByte := 0 |})
  = [h0; h1; h2; h3].
Proof.
  intros H0 H1 H2 H3.
  rewrite fold_left_app. rewrite !bitstream_cons, !fold_left_app.
  rewrite (header_read_byte h0) by (assumption || cbn; lia).
  rewrite (header_read_byte h1) by (assumption || cbn; lia).
  rewrite (header_read_byte h2) by (assumption || cbn; lia).
  rewrite (header_read_byte h3) by (assumption || cbn; lia).
  cbn [bitstream flat_map fold_left].
  rewrite fold_header_done by (cbn; lia).
  reflexivity.
Qed.

End RevealBits.

Section RevealData.

Import LSBEncoder BitStream.

Variable dataLength : Z.

Lemma read_step_done (s : ReadState) (p : Z) :
  readingHeader s = false -> dataLength <= outputIndex s ->
  read_step dataLength s p = s.
Proof.
  intros H1 H2. unfold read_step, read_channels. rewrite H1.
  destruct (Z.geb_spec (outputIndex s) dataLength); [reflexivity | lia].
Qed.

Lemma fold_read_done (l : list Z) (s : ReadState) :
  readingHeader s = false -> dataLength <= outputIndex s ->
  fold_left (read_step dataLength) l s = s.
Proof.
  intros H1 H2. induction l as [|p l IH]; [reflexivity|].
  simpl. now rewrite read_step_done.
Qed.

Lemma read_channels_fold (chans : list Z) (s : ReadState) :
  read_channels dataLength chans s = fold_left (read_step dataLength) chans s.
Proof.
  revert s. induction chans as [|p rest IH]; intros s; [reflexivity|].
  cbn [fold_left]. unfold read_step at 2. cbn [read_channels].
  destruct (readingHeader s) eqn:Er; [apply IH|].
  destruct (Z.geb_spec (outputIndex s) dataLength) as [H|H].
  - now rewrite fold_read_done.
  - apply IH.
Qed.

Lemma read_pixels_fold (pixels : list Z) (s : ReadState) :
  read_pixels dataLength pixels s
  = fold_left (read_step dataLength) (rgb_samples pixels) s.
Proof.
  revert s. induction pixels as [l Hl | r g b a rest IH] using pixel_ind;
    intros s.
  - destruct l as [|r [|g [|b [|a rest]]]]; try reflexivity. simpl in Hl. lia.
  - cbn [read_pixels rgb_samples].
    rewrite read_channels_fold.
    change (r :: g :: b :: rgb_samples rest)
      with ([r; g; b] ++ rgb_samples rest).
    rewrite fold_left_app.
    set (s' := fold_left (read_step dataLength) [r; g; b] s).
    destruct (readingHeader s') eqn:Er; cbn [negb andb]; [apply IH|].
    destruct (Z.geb_spec (outputIndex s') dataLength) as [H|H].
    + now rewrite fold_read_done.
    + apply IH.
Qed.

Lemma read_step_lsb (s : ReadState) (p : Z) :
  read_step dataLength s p = read_step dataLength s (lsb p).
Proof.
  unfold read_step, read_channels. fold (lsb p). fold (lsb (lsb p)).
  now rewrite lsb_lsb.
Qed.

Lemma fold_read_lsb (l : list Z) (s : ReadState) :
  fold_left (read_step dataLength) l s
  = fold_left (read_step dataLength) (map lsb l) s.
Proof.
  revert s. induction l as [|p l IH]; intros s; [reflexivity|].
  simpl. rewrite <- read_step_lsb. apply IH.
Qed.

(** The header bits are counted and skipped. *)
Lemma read_header_bits (bits : list Z) (s : ReadState) :
  readingHeader s = true -> headerBitsRead s < 32 ->
  headerBitsRead s + len bits <= 32 ->
  let s' := fold_left (read_step dataLength) bits s in
  readingHeader s' = negb (headerBitsRead s + len bits =? 32)
  /\ outputBuffer s' = outputBuffer s
  /\ outputIndex s' = outputIndex s
  /\ rBitIndex s' = rBitIndex s
  /\ rCurrentByte s' = rCurrentByte s.
Proof.
  revert s. induction bits as [|x bits IH]; intros s Hr Hlt Hn.
  - cbn [fold_left]. unfold len. simpl length. rewrite Z.add_0_r.
    destruct (Z.eqb_spec (headerBitsRead s) 32); [lia|]. auto.
  - cbn [fold_left]. rewrite len_cons in *.
    pose proof (len_nonneg bits) as Hb.
    set (s1 := read_step dataLength s x).
    assert (H1 : readingHeader s1 = negb (headerBitsRead s + 1 =? 32)
                 /\ headerBitsRead s1 = headerBitsRead s + 1
                 /\ outputBuffer s1 = outputBuffer s
                 /\ outputIndex s1 = outputIndex s
                 /\ rBitIndex s1 = rBitIndex s
                 /\ rCurrentByte s1 = rCurrentByte s).
    { unfold s1, read_step, read_channels. rewrite Hr. cbn.
      repeat split; reflexivity. }
    destruct H1 as (R1 & R2 & R3 & R4 & R5 & R6).
    destruct (Z.eqb_spec (headerBitsRead s + 1) 32) as [E|E].
    + assert (bits = []) by (destruct bits; [reflexivity | rewrite len_cons in Hn; pose proof (len_nonneg bits); lia]).
      subst bits. cbn [fold_left]. change (len (@nil Z)) with 0.
      replace (headerBitsRead s + (1 + 0)) with 32 by lia.
      cbn [Z.eqb Pos.eqb negb]. cbn [negb] in R1. fold s1.
      repeat split; assumption.
    + cbn [negb] in R1.
      destruct (IH s1 R1 ltac:(lia) ltac:(lia)) as (Q1 & Q2 & Q3 & Q4 & Q5).
      rewrite R2 in Q1.
      replace (headerBitsRead s + (1 + len bits))
        with (headerBitsRead s + 1 + len bits) by lia.
      rewrite Q1, Q2, Q3, Q4, Q5. repeat split; assumption.
Qed.

Lemma read_step_eq (s : ReadState) (p : Z) :
  readingHeader s = false -> outputIndex s < dataLength ->
  read_step dataLength s p
  = if rBitIndex s + 1 =? 8
    then {| readingHeader := false;
            headerBuffer := headerBuffer s;
            headerBitsRead := headerBitsRead s;
            outputBuffer :=
              Uint8Array_store (outputBuffer s) (outputIndex s)
                (shift_in (rCurrentByte s) p);
            outputIndex := outputIndex s + 1;
            rBitIndex := 0;
            rCurrentByte := 0 |}
    else {| readingHeader := false;
            headerBuffer := headerBuffer s;
            headerBitsRead := headerBitsRead s;
            outputBuffer := outputBuffer s;
            outputIndex := outputIndex s;
            rBitIndex := rBitIndex s + 1;
            rCurrentByte := shift_in (rCurrentByte s) p |}.
Proof.
  intros Hr Hk. unfold read_step. cbn [read_channels]. rewrite Hr.
  destruct (Z.geb_spec (outputIndex s) dataLength); [lia|].
  destruct (rBitIndex s + 1 =? 8); reflexivity.
Qed.

Lemma read_partial (bits : list Z) (s : ReadState) :
  readingHeader s = false -> outputIndex s < dataLength ->
  rBitIndex s + len bits < 8 ->
  fold_left (read_step dataLength) bits s
  = {| readingHeader := false;
       headerBuffer := headerBuffer s;
       headerBitsRead := headerBitsRead s;
       outputBuffer := outputBuffer s;
       outputIndex := outputIndex s;
       rBitIndex := rBitIndex s + len bits;
       rCurrentByte := fold_left shift_in bits (rCurrentByte s) |}.
Proof.
  revert s. induction bits as [|x bits IH]; intros s Hr Hk Hb.
  - destruct s. cbn [readingHeader] in Hr. subst.
    cbn [fold_left headerBuffer headerBitsRead outputBuffer outputIndex
         rBitIndex rCurrentByte].
    unfold len. simpl length. now rewrite Z.add_0_r.
  - cbn [fold_left]. rewrite len_cons in *. pose proof (len_nonneg bits).
    rewrite read_step_eq by assumption.
    destruct (Z.eqb_spec (rBitIndex s + 1) 8); [lia|].
    rewrite IH by (cbn [readingHeader outputIndex rBitIndex]; (reflexivity || lia)).
    cbn [headerBuffer headerBitsRead outputBuffer outputIndex
         rBitIndex rCurrentByte].
    f_equal. lia.
Qed.

Lemma read_data_bits (x0 x1 x2 x3 x4 x5 x6 x7 : Z) (s : ReadState) :
  readingHeader s = false -> outputIndex s < dataLength ->
  rBitIndex s = 0 -> rCurrentByte s = 0 ->
  let s' := fold_left (read_step dataLength) [x0; x1; x2; x3; x4; x5; x6; x7] s in
  readingHeader s' = false
  /\ outputBuffer s'
     = Uint8Array_store (outputBuffer s) (outputIndex s)
         (assemble (map lsb [x0; x1; x2; x3; x4; x5; x6; x7]))
  /\ outputIndex s' = outputIndex s + 1
  /\ rBitIndex s' = 0
  /\ rCurrentByte s' = 0.
Proof.
  intros Hr Hk Hb Hc.
  change [x0; x1; x2; x3; x4; x5; x6; x7]
    with ([x0; x1; x2; x3; x4; x5; x6] ++ [x7]).
  rewrite fold_left_app.
  rewrite (read_partial [x0; x1; x2; x3; x4; x5; x6] s)
    by (rewrite ?Hb; unfold len; simpl length; (assumption || lia)).
  cbn [fold_left].
  rewrite read_step_eq by (cbn [readingHeader outputIndex]; (reflexivity || lia)).
  cbn [headerBuffer headerBitsRead outputBuffer outputIndex rBitIndex
       rCurrentByte].
  rewrite Hb, Hc. unfold len. simpl length.
  change (0 + Z.of_nat 7 + 1 =? 8) with true. cbv iota.
  cbn [readingHeader headerBuffer headerBitsRead outputBuffer outputIndex
       rBitIndex rCurrentByte].
  unfold assemble. rewrite <- assemble_shift_in. auto.
Qed.

(** The payload bytes are stored one after the other. *)
Lemma read_data_bytes (payload done : list Z) (n : nat) (s : ReadState) :
  Forall is_byte payload ->
  data_state s done (length payload + n) ->
  len done + len payload <= dataLength ->
  data_state (fold_left (read_step dataLength) (bitstream payload) s)
             (done ++ payload) n.
Proof.
  revert done s. induction payload as [|b payload IH]; intros done s Hb Hs Hl.
  - cbn [bitstream flat_map fold_left]. rewrite app_nil_r. exact Hs.
  - inversion Hb as [|? ? Hb1 Hb2]; subst.
    rewrite bitstream_cons, fold_left_app.
    destruct Hs as (S1 & S2 & S3 & S4 & S5).
    rewrite len_cons in Hl. pose proof (len_nonneg payload) as Hp.
    pose proof (len_nonneg done) as Hd.
    unfold byte_bits at 1. cbn [map].
    destruct (read_data_bits
                (Z.land (Z.shiftr b (7 - 0)) 1) (Z.land (Z.shiftr b (7 - 1)) 1)
                (Z.land (Z.shiftr b (7 - 2)) 1) (Z.land (Z.shiftr b (7 - 3)) 1)
                (Z.land (Z.shiftr b (7 - 4)) 1) (Z.land (Z.shiftr b (7 - 5)) 1)
                (Z.land (Z.shiftr b (7 - 6)) 1) (Z.land (Z.shiftr b (7 - 7)) 1)
                s S1 ltac:(lia) S4 S5) as (T1 & T2 & T3 & T4 & T5).
    set (s1 := fold_left (read_step dataLength) _ s) in *.
    replace (done ++ b :: payload) with ((done ++ [b]) ++ payload)
      by (rewrite <- app_assoc; reflexivity).
    apply IH; [assumption | | rewrite len_app, len_cons; change (len (@nil Z)) with 0; lia].
    repeat split; try assumption.
    + rewrite T2, S2, S3. unfold Uint8Array_store.
      destruct (Z.ltb_spec (len done) 0); [lia|].
      unfold len. rewrite Nat2Z.id.
      cbn [length Nat.add repeat].
      rewrite set_nth_app. rewrite <- app_assoc. cbn [app].
      f_equal. f_equal. apply (assemble_byte_bits b Hb1).
    + rewrite T3, S3, len_app, len_cons. unfold len. simpl length. lia.
Qed.

End RevealData.

(** ** The codec as a whole *)

Section Stego.

Import LSBEncoder BitStream.

Lemma Qle_bool_div8 (a b : Z) : Qle_bool (num a) (num b / num 8) = (8 * a <=? b).
Proof.
  unfold Qle_bool, num, Qdiv, Qinv, Qmult, inject_Z. cbn [Qnum Qden].
  change (Z.pos (1 * 8)) with 8. change (Z.pos 1) with 1.
  destruct (Z.leb_spec (a * 1 * 8) (b * 1 * 1)), (Z.leb_spec (8 * a) b);
    try reflexivity; lia.
Qed.

Lemma capacity_value (image : Image) :
  getMaxCapacity image = (width image * height image * 3 - 32) / 8.
Proof. unfold getMaxCapacity. apply floor_div. lia. Qed.

Lemma hasCapacity_spec (image : Image) (n : Z) :
  hasCapacity image n = (n <=? getMaxCapacity image).
Proof. reflexivity. Qed.

Lemma rgb_samples_length (pixels : list Z) (k : Z) :
  len pixels = 4 * k -> len (rgb_samples pixels) = 3 * k.
Proof.
  revert k. induction pixels as [l Hl | r g b a rest IH] using pixel_ind;
    intros k Hk.
  - destruct l as [|r [|g [|b [|a rest]]]]; unfold len in *; simpl length in *;
      try lia.
  - cbn [rgb_samples]. rewrite !len_cons in *.
    specialize (IH (k - 1)). lia.
Qed.

Lemma pending_start (fullData : list Z) :
  pending fullData {| dataIndex := 0; bitIndex := 0 |} = bitstream fullData.
Proof. reflexivity. Qed.

Lemma hide_success (image : Image) (secretData : list Z) :
  hasCapacity image (len secretData) = true ->
  hide image secretData
  = (Ok tt, embed (data image)
              (bitstream (setUint32_be (len secretData) ++ secretData))).
Proof.
  intros H. unfold hide. rewrite H. cbn [negb].
  rewrite hide_pixels_embed by (unfold wf_cursor; cbn; lia).
  reflexivity.
Qed.

Lemma hide_failure (image : Image) (secretData : list Z) :
  hasCapacity image (len secretData) = false ->
  hide image secretData = (Throw FileTooLarge, data image).
Proof. intros H. unfold hide. now rewrite H. Qed.

Lemma header_value (L : Z) (tail : list Z) :
  0 <= L < 2 ^ 32 ->
  getUint32_be
    (headerBytes
       (fold_left header_step (bitstream (setUint32_be L) ++ tail)
          {| headerBytes := Uint8Array_new 4; byteIndex := 0;
             hBitIndex := 0; hCurrentByte := 0 |})) = L.
Proof.
  intros HL.
  pose proof (setUint32_be_bytes L) as Hhdr.
  pose proof (getUint32_be_set L HL) as Hget.
  unfold setUint32_be in Hhdr, Hget |- *.
  inversion Hhdr as [|? ? B0 Hh1]; subst. inversion Hh1 as [|? ? B1 Hh2]; subst.
  inversion Hh2 as [|? ? B2 Hh3]; subst. inversion Hh3 as [|? ? B3 _]; subst.
  rewrite header_read by assumption. exact Hget.
Qed.

Section Embedded.

Variables (w h : Z) (pixels payload : list Z).
Hypothesis Hwf : wf_image {| width := w; height := h; data := pixels |}.
Hypothesis Hpay : Forall is_byte payload.
Hypothesis HL : 1 <= len payload <= (w * h * 3 - 32) / 8.
Hypothesis Hlt : len payload < 2 ^ 32.

Local Abbreviation L := (len payload).
Local Abbreviation px' := (embed pixels (bitstream (setUint32_be L ++ payload))).

Lemma embedded_fits : 8 * L <= w * h * 3 - 32.
Proof. Z.div_mod_to_equations. lia. Qed.

Lemma embedded_lsbs :
  rgb_lsbs px'
  = bitstream (setUint32_be L) ++ bitstream payload
      ++ skipn (Z.to_nat (32 + 8 * L)) (rgb_lsbs pixels).
Proof.
  destruct Hwf as (Hw & Hh & Hlen & Hbytes). cbn [width height data] in *.
  assert (Hrgb : len (rgb_samples pixels) = 3 * (w * h))
    by (now apply rgb_samples_length).
  assert (Hbits : length (bitstream (setUint32_be L ++ payload))
                  = Z.to_nat (32 + 8 * L)).
  { rewrite bitstream_length, length_app, setUint32_be_length.
    unfold len. lia. }
  rewrite rgb_lsbs_embed.
  - rewrite Hbits, bitstream_app, <- app_assoc. reflexivity.
  - assumption.
  - apply bitstream_bits.
  - rewrite Hbits. pose proof embedded_fits. unfold len in Hrgb. lia.
Qed.

Lemma embedded_header :
  getUint32_be
    (headerBytes
       (header_pixels px'
          {| headerBytes := Uint8Array_new 4; byteIndex := 0;
             hBitIndex := 0; hCurrentByte := 0 |})) = L.
Proof.
  rewrite header_pixels_fold, fold_header_lsb.
  fold (rgb_lsbs px'). rewrite embedded_lsbs.
  apply header_value. lia.
Qed.

Lemma embedded_data :
  outputBuffer
    (read_pixels L px'
       {| readingHeader := true; headerBuffer := 0; headerBitsRead := 0;
          outputBuffer := Uint8Array_new L; outputIndex := 0;
          rBitIndex := 0; rCurrentByte := 0 |}) = payload.
Proof.
  rewrite read_pixels_fold, fold_read_lsb.
  fold (rgb_lsbs px'). rewrite embedded_lsbs. rewrite !fold_left_app.
  set (s0 := {| readingHeader := true; headerBuffer := 0; headerBitsRead := 0;
                outputBuffer := Uint8Array_new L; outputIndex := 0;
                rBitIndex := 0; rCurrentByte := 0 |}).
  assert (H32 : len (bitstream (setUint32_be L)) = 32).
  { unfold len. rewrite bitstream_length, setUint32_be_length. reflexivity. }
  destruct (read_header_bits L (bitstream (setUint32_be L)) s0 eq_refl)
    as (R1 & R2 & R3 & R4 & R5).
  { cbn [s0 headerBitsRead]. lia. }
  { rewrite H32. cbn [s0 headerBitsRead]. lia. }
  set (s1 := fold_left (read_step L) (bitstream (setUint32_be L)) s0) in *.
  assert (Hs1 : data_state s1 [] (length payload + 0)).
  { unfold data_state. rewrite R1, R2, R3, R4, R5, H32.
    cbn [s0 headerBitsRead outputBuffer outputIndex rBitIndex rCurrentByte app].
    unfold Uint8Array_new, len. rewrite Nat2Z.id, Nat.add_0_r.
    repeat split; reflexivity. }
  pose proof (read_data_bytes L payload [] 0 s1 Hpay Hs1) as Hs2.
  cbn [app] in Hs2. change (len (@nil Z)) with 0 in Hs2.
  specialize (Hs2 ltac:(lia)).
  set (s2 := fold_left (read_step L) (bitstream payload) s1) in *.
  destruct Hs2 as (T1 & T2 & T3 & T4 & T5).
  rewrite fold_read_done by (assumption || (rewrite T3; lia)).
  rewrite T2. cbn [repeat]. now rewrite app_nil_r.
Qed.

Lemma reveal_embedded :
  reveal {| width := w; height := h; data := px' |} = Ok payload.
Proof.
  unfold reveal. cbn [data].
  rewrite embedded_header.
  destruct (Z.leb_spec L 0); [lia|]. cbn [orb].
  rewrite Qle_bool_div8.
  assert (Hsame : len px' = len pixels)
    by (unfold len; now rewrite embed_length).
  rewrite Hsame.
  destruct Hwf as (Hw & Hh & Hlen & Hbytes). cbn [width height data] in *.
  pose proof embedded_fits.
  destruct (Z.leb_spec (8 * L) (len pixels * 3)); [|lia]. cbn [negb].
  now rewrite embedded_data.
Qed.

End Embedded.

End Stego.

Section StegoClaims.

Import LSBEncoder BitStream.

Lemma wf_imageb_spec (image : Image) :
  wf_imageb image = true -> wf_image image.
Proof.
  unfold wf_imageb, wf_image. rewrite !andb_true_iff.
  intros [[[H1 H2] H3] H4].
  repeat (split; [lia|]). now apply is_byteb_spec.
Qed.

Lemma nth_error_short {A : Type} (l : list A) (n k : nat) :
  (length l <= n)%nat -> (n <= k)%nat -> nth_error l k = None.
Proof. intros H1 H2. apply nth_error_None. lia. Qed.

Lemma embed_nth (pixels bits : list Z) (i : nat) :
  Forall is_byte pixels -> Forall is_bit bits ->
  Z.shiftr (nth i (embed pixels bits) 0) 1 = Z.shiftr (nth i pixels 0) 1
  /\ (Z.of_nat i mod 4 = 3 -> nth i (embed pixels bits) 0 = nth i pixels 0)
  /\ (Z.of_nat i mod 4 <> 3 ->
      len bits <= stream_position (Z.of_nat i) ->
      nth i (embed pixels bits) 0 = nth i pixels 0).
Proof.
  revert bits i.
  induction pixels as [l Hl | r g b a rest IH] using pixel_ind;
    intros bits i Hp Hb.
  - rewrite embed_short by assumption. auto.
  - rewrite embed_cons4.
    inversion Hp as [|? ? Hr Hp1]; subst. inversion Hp1 as [|? ? Hg Hp2]; subst.
    inversion Hp2 as [|? ? Hb' Hp3]; subst. inversion Hp3 as [|? ? Ha Hp4]; subst.
    assert (Hput : forall p k, is_byte p ->
                   Z.shiftr (put1 p (nth_error bits k)) 1 = Z.shiftr p 1)
      by (intros p k Hpk; apply put1_spec;
          [assumption | intros v; apply nth_error_bit; assumption]).
    assert (Hnone : forall p k, len bits <= Z.of_nat k ->
                    put1 p (nth_error bits k) = p)
      by (intros p k Hk; rewrite (nth_error_short bits k k);
          [reflexivity | unfold len in Hk; lia | lia]).
    unfold stream_position.
    destruct i as [|[|[|[|i]]]]; cbn [nth].
    + split; [now apply Hput|]. split; [cbn; lia|].
      intros _ H. apply Hnone. cbn in H. lia.
    + split; [now apply Hput|]. split; [cbn; lia|].
      intros _ H. apply Hnone. cbn in H. lia.
    + split; [now apply Hput|]. split; [cbn; lia|].
      intros _ H. apply Hnone. cbn in H. lia.
    + auto.
    + destruct (IH (skipn 3 bits) i Hp4 (Forall_skipn _ _ _ Hb))
        as (I1 & I2 & I3).
      assert (Em : Z.of_nat (S (S (S (S i)))) mod 4 = Z.of_nat i mod 4)
        by (Z.div_mod_to_equations; lia).
      assert (Ed : Z.of_nat (S (S (S (S i)))) / 4 = Z.of_nat i / 4 + 1)
        by (Z.div_mod_to_equations; lia).
      rewrite Em, Ed. split; [exact I1|]. split; [exact I2|].
      intros H1 H2. apply I3; [exact H1|].
      unfold stream_position, len in *. rewrite length_skipn.
      pose proof (Z.mod_pos_bound (Z.of_nat i) 4 ltac:(lia)).
      pose proof (Z.div_pos (Z.of_nat i) 4 ltac:(lia) ltac:(lia)).
      lia.
Qed.

(** C4. A payload of exactly [getMaxCapacity] bytes is embedded; a longer
    one makes [hide] throw 'File is too large for this cover image.' with
    the samples as they were. *)
Theorem capacity_boundary (image : Image) (payload : list Z) :
  (len payload = getMaxCapacity image -> fst (hide image payload) = Ok tt)
  /\ (getMaxCapacity image < len payload ->
      hide image payload = (Throw FileTooLarge, data image)).
Proof.
  split; intros H.
  - rewrite hide_success; [reflexivity|].
    rewrite hasCapacity_spec. lia.
  - apply hide_failure. rewrite hasCapacity_spec. lia.
Qed.

Lemma capacity_boundary_witness :
  let image := {| width := 4; height := 4; data := repeat 255 64 |} in
  fst (hide image [165; 66]) = Ok tt
  /\ hide image [165; 66; 7] = (Throw FileTooLarge, data image).
Proof.
  intros image. split.
  - apply (proj1 (capacity_boundary image [165; 66])). reflexivity.
  - apply (proj2 (capacity_boundary image [165; 66; 7])). reflexivity.
Defined.




(** C5 at a 4 x 3 image whose header bits declare one byte: the capacity is
    0, yet [reveal] returns a byte instead of throwing. *)
Theorem reveal_accepts_length_above_capacity :
  let image := {| width := 4; height := 3;
                  data := set_nth (repeat 0 48) 41 1 |} in
  wf_image image
  /\ getMaxCapacity image = 0
  /\ getUint32_be
       (headerBytes
          (header_pixels (data image)
             {| headerBytes := Uint8Array_new 4; byteIndex := 0;
                hBitIndex := 0; hCurrentByte := 0 |})) = 1
  /\ reveal image = Ok [0].
Proof.
  intros image. split; [|split; [|split]]; try reflexivity.
  apply wf_imageb_spec. reflexivity.
Qed.

(** C10. A successful [hide] changes at most the least significant bit of
    a sample, no alpha sample, and no [R], [G], [B] sample at or beyond
    position [32 + 8 * L] of the bit stream. *)
Theorem hide_touches_only_lsbs
  (image : Image) (secretData pixels' : list Z) :
  wf_image image ->
  hide image secretData = (Ok tt, pixels') ->
  length pixels' = length (data image)
  /\ forall i : nat,
      Z.shiftr (nth i pixels' 0) 1 = Z.shiftr (nth i (data image) 0) 1
      /\ (Z.of_nat i mod 4 = 3 -> nth i pixels' 0 = nth i (data image) 0)
      /\ (Z.of_nat i mod 4 <> 3 ->
          32 + 8 * len secretData <= stream_position (Z.of_nat i) ->
          nth i pixels' 0 = nth i (data image) 0).
Proof.
  intros (Hw & Hh & Hlen & Hbytes) Hhide.
  destruct (hasCapacity image (len secretData)) eqn:Hcap.
  - rewrite hide_success in Hhide by assumption.
    injection Hhide as <-.
    split; [apply embed_length|].
    intros i.
    destruct (embed_nth (data image)
                (bitstream (setUint32_be (len secretData) ++ secretData)) i
                Hbytes (bitstream_bits _)) as (E1 & E2 & E3).
    split; [exact E1|]. split; [exact E2|].
    intros H1 H2. apply E3; [exact H1|].
    unfold len at 1. rewrite bitstream_length, length_app, setUint32_be_length.
    unfold len in H2. lia.
  - rewrite hide_failure in Hhide by assumption. discriminate Hhide.
Qed.

Lemma hide_touches_only_lsbs_witness :
  let image := {| width := 4; height := 4; data := repeat 255 64 |} in
  length (snd (hide image [165])) = length (data image)
  /\ forall i : nat,
      Z.shiftr (nth i (snd (hide image [165])) 0) 1
      = Z.shiftr (nth i (data image) 0) 1
      /\ (Z.of_nat i mod 4 = 3 ->
          nth i (snd (hide image [165])) 0 = nth i (data image) 0)
      /\ (Z.of_nat i mod 4 <> 3 ->
          32 + 8 * len [165] <= stream_position (Z.of_nat i) ->
          nth i (snd (hide image [165])) 0 = nth i (data image) 0).
Proof.
  intros image.
  apply (hide_touches_only_lsbs image [165] (snd (hide image [165]))).
  - apply wf_imageb_spec. reflexivity.
  - vm_compute. reflexivity.
Defined.

End StegoClaims.

(** ** The chunk reader *)

Section Chunks.

Import ChunkedFileReader.

Lemma ceil_quotient (a b : Z) :
  0 < b -> Math_ceil (num a / num b) = ceil_div a b.
Proof.
  intros Hb. unfold Math_ceil, Qceiling, ceil_div.
  assert (E : (- (num a / num b) == num (- a) / num b)%Q).
  { unfold num. rewrite inject_Z_opp. field.
    intros Hc. apply (inject_Z_injective b 0) in Hc. lia. }
  rewrite (Qfloor_comp _ _ E).
  change (Qfloor (num (- a) / num b)) with (Math_floor (num (- a) / num b)).
  rewrite floor_div by assumption.
  Z.div_mod_to_equations. nia.
Qed.

Lemma slice_len {A : Type} (l : list A) (a b : Z) :
  0 <= a <= b -> b <= len l -> len (slice l a b) = b - a.
Proof.
  unfold slice, len. intros H1 H2.
  rewrite length_firstn, length_skipn. lia.
Qed.

Lemma readChunks_from_step (file : File) (offset chunkIndex : Z) :
  offset < size file ->
  readChunks_from file offset chunkIndex
  = {| data := slice (bytes file) offset
                 (Z.min (offset + CHUNK_SIZE) (size file));
       index := chunkIndex |}
      :: readChunks_from file (Z.min (offset + CHUNK_SIZE) (size file))
           (chunkIndex + 1).
Proof.
  intros H. rewrite readChunks_from_equation_1.
  destruct (Z_lt_dec offset (size file)); [reflexivity | lia].
Qed.

Lemma readChunks_from_end (file : File) (offset chunkIndex : Z) :
  size file <= offset -> readChunks_from file offset chunkIndex = [].
Proof.
  intros H. rewrite readChunks_from_equation_1.
  destruct (Z_lt_dec offset (size file)); [lia | reflexivity].
Qed.

Lemma chunk_size_pos : 0 < CHUNK_SIZE.
Proof. reflexivity. Qed.

(** The loop yields the chunks of the specification. *)
Lemma readChunks_from_list (file : File) (k : nat) :
  forall offset chunkIndex,
    Z.of_nat k = ceil_div (size file - offset) CHUNK_SIZE ->
    readChunks_from file offset chunkIndex
    = chunk_list file offset chunkIndex k.
Proof.
  pose proof chunk_size_pos as HC. unfold ceil_div.
  induction k as [|k IH]; intros offset chunkIndex Hk.
  - apply readChunks_from_end.
    change (Z.of_nat 0) with 0 in Hk. Z.div_mod_to_equations. nia.
  - assert (Hlt : offset < size file)
      by (Z.div_mod_to_equations; nia).
    rewrite readChunks_from_step by assumption. cbn [chunk_list]. f_equal.
    destruct (Z.le_gt_cases (offset + CHUNK_SIZE) (size file)) as [Hle|Hgt].
    + rewrite Z.min_l by assumption. apply IH.
      Z.div_mod_to_equations. nia.
    + rewrite Z.min_r by lia.
      assert (k = 0%nat) by (Z.div_mod_to_equations; nia). subst k.
      cbn [chunk_list]. apply readChunks_from_end. lia.
Qed.

Lemma chunk_list_length (file : File) (k : nat) (offset chunkIndex : Z) :
  length (chunk_list file offset chunkIndex k) = k.
Proof.
  revert offset chunkIndex. induction k as [|k IH]; intros; cbn [chunk_list length];
    [reflexivity | now rewrite IH].
Qed.

Lemma chunk_list_nth (file : File) (k j : nat) (offset chunkIndex : Z) :
  (j < k)%nat ->
  nth_error (chunk_list file offset chunkIndex k) j
  = Some {| data := slice (bytes file) (offset + Z.of_nat j * CHUNK_SIZE)
                      (Z.min (offset + (Z.of_nat j + 1) * CHUNK_SIZE)
                             (size file));
            index := chunkIndex + Z.of_nat j |}.
Proof.
  revert j offset chunkIndex. induction k as [|k IH]; intros j offset chunkIndex Hj;
    [lia|].
  destruct j as [|j]; cbn [chunk_list nth_error].
  - change (Z.of_nat 0) with 0. rewrite Z.mul_0_l, !Z.add_0_r, Z.add_0_l, Z.mul_1_l.
    reflexivity.
  - rewrite IH by lia. f_equal. f_equal; [f_equal|]; lia.
Qed.

Lemma total_chunks (file : File) :
  getTotalChunks (constructor file) = ceil_div (size file) CHUNK_SIZE.
Proof.
  unfold getTotalChunks, constructor. cbn [totalChunks].
  apply ceil_quotient. apply chunk_size_pos.
Qed.

Lemma total_chunks_nonneg (file : File) :
  0 <= ceil_div (size file) CHUNK_SIZE.
Proof.
  pose proof chunk_size_pos. pose proof (len_nonneg (bytes file)).
  unfold ceil_div, size. Z.div_mod_to_equations. nia.
Qed.

Lemma readChunks_list (file : File) :
  readChunks (constructor file)
  = chunk_list file 0 0 (Z.to_nat (ceil_div (size file) CHUNK_SIZE)).
Proof.
  unfold readChunks, constructor. cbn [ChunkedFileReader.file].
  apply readChunks_from_list.
  rewrite Z2Nat.id by apply total_chunks_nonneg.
  now rewrite Z.sub_0_r.
Qed.

Lemma chunk_arithmetic_length (file : File) :
  len (readChunks (constructor file)) = getTotalChunks (constructor file).
Proof.
  rewrite readChunks_list, total_chunks. unfold len.
  rewrite chunk_list_length. apply Z2Nat.id. apply total_chunks_nonneg.
Qed.

(** C7. [totalChunks] is [ceil(N / C)]; [readChunks] yields that many
    chunks, chunk [i] carrying index [i] and the bytes from [i * C] on,
    [C] of them except for the last chunk, which holds the remaining
    [N - (totalChunks - 1) * C]; 25 MiB give chunks of 10, 10 and 5 MiB. *)
Theorem chunk_arithmetic (file : File) :
  let N := size file in
  let C := CHUNK_SIZE in
  let reader := constructor file in
  let n := getTotalChunks reader in
  n = Math_ceil (num N / num C)
  /\ n = ceil_div N C
  /\ len (readChunks reader) = n
  /\ (forall i : Z, 0 <= i < n ->
      exists chunk,
        nth_error (readChunks reader) (Z.to_nat i) = Some chunk
        /\ index chunk = i
        /\ data chunk = slice (bytes file) (i * C) (Z.min ((i + 1) * C) N)
        /\ len (data chunk) = if i <? n - 1 then C else N - (n - 1) * C)
  /\ (N = 25 * 1024 * 1024 ->
      n = 3
      /\ map (fun chunk => len (data chunk)) (readChunks reader)
         = [10 * 1024 * 1024; 10 * 1024 * 1024; 5 * 1024 * 1024]).
Proof.
  intros N C reader n.
  pose proof chunk_size_pos as HC. fold C in HC.
  pose proof (total_chunks file) as Hn. fold reader n N C in Hn.
  pose proof (total_chunks_nonneg file) as Hn0. fold N C in Hn0.
  pose proof (readChunks_list file) as Hl. fold reader N C in Hl.
  rewrite <- Hn in Hl, Hn0.
  assert (HN : 0 <= N) by apply len_nonneg.
  split; [reflexivity|]. split; [exact Hn|].
  split; [|split].
  - rewrite Hl. unfold len. rewrite chunk_list_length. lia.
  - intros i Hi. rewrite Hl.
    rewrite chunk_list_nth by lia.
    rewrite Z2Nat.id by lia. rewrite !Z.add_0_l.
    eexists. split; [reflexivity|]. cbn [index data].
    split; [reflexivity|]. split; [reflexivity|].
    fold N C.
    assert (Hbound : (n - 1) * C < N /\ N <= n * C)
      by (rewrite Hn; unfold ceil_div; Z.div_mod_to_equations; nia).
    rewrite slice_len; fold N.
    + destruct (Z.ltb_spec i (n - 1)).
      * rewrite Z.min_l by nia. lia.
      * assert (i = n - 1) by lia. subst i. rewrite Z.min_r by nia. lia.
    + split; [nia|]. apply Z.min_glb; nia.
    + apply Z.le_min_r.
  - intros H25.
    assert (H3 : n = 3) by (rewrite Hn, H25; reflexivity).
    split; [exact H3|].
    rewrite Hl, H3. change (Z.to_nat 3) with 3%nat.
    cbn [chunk_list map data]. fold N C.
    assert (E1 : Z.min (0 + C) N = 10 * 1024 * 1024)
      by (rewrite H25; reflexivity).
    assert (E2 : Z.min (0 + C + C) N = 20 * 1024 * 1024)
      by (rewrite H25; reflexivity).
    assert (E3 : Z.min (0 + C + C + C) N = 25 * 1024 * 1024)
      by (rewrite H25; reflexivity).
    rewrite E1, E2, E3.
    rewrite !slice_len; fold N; rewrite ?H25; try reflexivity;
      unfold C, CHUNK_SIZE; unfold N, size in H25; lia.
Qed.

End Chunks.

(** ** Keys and nonces *)

Section Keys.

Context `{SubtleCrypto}.

Lemma deriveKey_returns (password salt : list Z) :
  KeyManager.deriveKey password salt
  = Ok (deriveKey_PBKDF2 salt 100000
          (importKey_PBKDF2 (Unicode.TextEncoder_encode password))).
Proof. reflexivity. Qed.

Lemma prepareKey_returns (r : Randomness) (password : option (list Z))
  (salt : list Z) :
  exists key keyData, Encryptor.prepareKey r password salt = Ok (key, keyData).
Proof.
  unfold Encryptor.prepareKey.
  destruct password as [[|c pw]|]; rewrite ?deriveKey_returns; eauto.
Qed.

Lemma encrypt_chunks_seals (chunks : list ChunkedFileReader.Chunk)
  (key : CryptoKey) (iv : list Z) :
  fst (Main.encrypt_chunks chunks key iv)
  = map (fun chunk =>
           {| Encryptor.seal_iv := iv; Encryptor.seal_key := key;
              Encryptor.seal_data := ChunkedFileReader.data chunk |})
        chunks.
Proof.
  induction chunks as [|chunk rest IH]; [reflexivity|].
  cbn [Main.encrypt_chunks map]. unfold Encryptor.encryptChunk.
  destruct (Main.encrypt_chunks rest key iv) as [seals encryptedChunks].
  cbn [fst] in *. now rewrite IH.
Qed.

(** The calls of [encryptChunk] of a run: one per chunk, all with the
    [iv] drawn once. *)
Lemma run_seals (r : Randomness) (now : Z) (encryptFile : File)
  (usePassword : bool) (passwordValue : list Z) (out : Main.Encrypted) :
  Main.handleEncryption r now encryptFile usePassword passwordValue
  = Some (Ok out) ->
  exists key,
    Main.seals out
    = map (fun chunk =>
             {| Encryptor.seal_iv := random_iv r; Encryptor.seal_key := key;
                Encryptor.seal_data := ChunkedFileReader.data chunk |})
          (ChunkedFileReader.readChunks
             (ChunkedFileReader.constructor encryptFile)).
Proof.
  unfold Main.handleEncryption.
  destruct (usePassword && (len passwordValue =? 0)); [discriminate|].
  destruct (Encryptor.prepareKey r _ _) as [[key keyData]|e]; [|discriminate].
  pose proof (encrypt_chunks_seals
                (ChunkedFileReader.readChunks
                   (ChunkedFileReader.constructor encryptFile))
                key (KeyManager.generateIV r)) as Hs.
  destruct (Main.encrypt_chunks _ key _) as [seals encryptedChunks].
  cbn [fst] in Hs. intros Hout. injection Hout as <-.
  exists key. exact Hs.
Qed.

(** The same, with the key: it is the one [prepareKey] returned. *)
Lemma run_key (r : Randomness) (now : Z) (encryptFile : File)
  (usePassword : bool) (passwordValue : list Z) (out : Main.Encrypted) :
  Main.handleEncryption r now encryptFile usePassword passwordValue
  = Some (Ok out) ->
  exists key keyData,
    Encryptor.prepareKey r (if usePassword then Some passwordValue else None)
      (KeyManager.generateSalt r)
    = Ok (key, keyData)
    /\ Main.seals out
       = map (fun chunk =>
                {| Encryptor.seal_iv := KeyManager.generateIV r;
                   Encryptor.seal_key := key;
                   Encryptor.seal_data := ChunkedFileReader.data chunk |})
             (ChunkedFileReader.readChunks
                (ChunkedFileReader.constructor encryptFile)).
Proof.
  unfold Main.handleEncryption.
  destruct (usePassword && (len passwordValue =? 0)); [discriminate|].
  destruct (Encryptor.prepareKey r _ _) as [[key keyData]|e]; [|discriminate].
  pose proof (encrypt_chunks_seals
                (ChunkedFileReader.readChunks
                   (ChunkedFileReader.constructor encryptFile))
                key (KeyManager.generateIV r)) as Hs.
  destruct (Main.encrypt_chunks _ key _) as [seals encryptedChunks].
  cbn [fst] in Hs. intros Hout. injection Hout as <-.
  exists key, keyData. split; [reflexivity|exact Hs].
Qed.

Lemma run_returns (r : Randomness) (now : Z) (encryptFile : File)
  (usePassword : bool) (passwordValue : list Z) :
  usePassword && (len passwordValue =? 0) = false ->
  exists out,
    Main.handleEncryption r now encryptFile usePassword passwordValue
    = Some (Ok out).
Proof.
  intros Hp. unfold Main.handleEncryption. rewrite Hp.
  destruct (prepareKey_returns r
              (if usePassword then Some passwordValue else None)
              (KeyManager.generateSalt r)) as (key & keyData & ->).
  destruct (Main.encrypt_chunks _ key _) as [seals encryptedChunks].
  eauto.
Qed.

Lemma run_nonces (r : Randomness) (now : Z) (encryptFile : File)
  (usePassword : bool) (passwordValue : list Z) (out : Main.Encrypted) :
  Main.handleEncryption r now encryptFile usePassword passwordValue
  = Some (Ok out) ->
  length (Main.seals out)
  = length (ChunkedFileReader.readChunks
              (ChunkedFileReader.constructor encryptFile))
  /\ Forall (fun seal => Encryptor.seal_iv seal = KeyManager.generateIV r)
            (Main.seals out).
Proof.
  intros Hrun. destruct (run_seals _ _ _ _ _ _ Hrun) as (key & Hs).
  rewrite Hs. split; [apply length_map|].
  apply Forall_forall. intros seal Hin. apply in_map_iff in Hin.
  destruct Hin as (chunk & <- & _). reflexivity.
Qed.

End Keys.

Section KeyClaims.

Import ChunkedFileReader.

Lemma two_chunk_file_size : size Main.two_chunk_file = CHUNK_SIZE + 1.
Proof.
  unfold size, len, Main.two_chunk_file. cbn [bytes].
  rewrite repeat_length. apply Z2Nat.id. unfold CHUNK_SIZE. lia.
Qed.

Lemma two_chunk_file_chunks :
  getTotalChunks (constructor Main.two_chunk_file) = 2
  /\ length (readChunks (constructor Main.two_chunk_file)) = 2%nat.
Proof.
  rewrite total_chunks, readChunks_list, chunk_list_length.
  rewrite two_chunk_file_size. split; reflexivity.
Qed.

(** C2, as the code has it. Every chunk of a run, whatever its index, is
    sealed by [encryptChunk] under one and the same nonce and one and the
    same key: the [iv] drawn once at the start of the run and stored in the
    container, and the key that [prepareKey] returned. There is one call per
    chunk, and any two of them agree on nonce and key. *)
Theorem nonce_shared_by_all_chunks `{SubtleCrypto}
  (r : Randomness) (now : Z) (encryptFile : File)
  (usePassword : bool) (passwordValue : list Z) (out : Main.Encrypted) :
  Main.handleEncryption r now encryptFile usePassword passwordValue
  = Some (Ok out) ->
  exists (key : CryptoKey) (keyData : option (list Z)),
    Encryptor.prepareKey r (if usePassword then Some passwordValue else None)
      (KeyManager.generateSalt r)
    = Ok (key, keyData)
    /\ len (Main.seals out) = getTotalChunks (constructor encryptFile)
    /\ map Encryptor.seal_data (Main.seals out)
       = map data (readChunks (constructor encryptFile))
    /\ Forall (fun seal => Encryptor.seal_iv seal = KeyManager.generateIV r
                           /\ Encryptor.seal_key seal = key)
              (Main.seals out)
    /\ (forall (i j : nat) (si sj : Encryptor.Seal),
           nth_error (Main.seals out) i = Some si ->
           nth_error (Main.seals out) j = Some sj ->
           Encryptor.seal_iv si = Encryptor.seal_iv sj
           /\ Encryptor.seal_key si = Encryptor.seal_key sj).
Proof.
  intros Hrun. destruct (run_key _ _ _ _ _ _ Hrun) as (key & keyData & Hkey & Hs).
  exists key, keyData. split; [exact Hkey|].
  assert (Hall : Forall (fun seal => Encryptor.seal_iv seal = KeyManager.generateIV r
                                     /\ Encryptor.seal_key seal = key)
                        (Main.seals out)).
  { rewrite Hs. apply Forall_forall. intros seal Hin. apply in_map_iff in Hin.
    destruct Hin as (chunk & <- & _). split; reflexivity. }
  split; [|split; [|split; [exact Hall|]]].
  - rewrite Hs. unfold len. rewrite length_map.
    pose proof (chunk_arithmetic_length encryptFile) as Hl.
    unfold len in Hl. exact Hl.
  - rewrite Hs, map_map. reflexivity.
  - intros i j si sj Hi Hj.
    apply nth_error_In in Hi, Hj.
    rewrite Forall_forall in Hall.
    destruct (Hall si Hi) as [Hi1 Hi2]. destruct (Hall sj Hj) as [Hj1 Hj2].
    split; congruence.
Qed.

Lemma nonce_shared_by_all_chunks_witness :
  (let run :=
     @Main.handleEncryption toy_crypto Main.some_randomness 1700000000000
       Main.small_file false [] in
   let out :=
     match run with
     | Some (Ok o) => o
     | _ => {| Main.seals := []; Main.encryptedBlob := [] |}
     end in
   exists key : @CryptoKey toy_crypto,
     Forall (fun seal => Encryptor.seal_iv seal
                         = KeyManager.generateIV Main.some_randomness
                         /\ Encryptor.seal_key seal = key)
            (Main.seals out))
  /\ (exists out : @Main.Encrypted toy_crypto,
         @Main.handleEncryption toy_crypto Main.some_randomness 0
           Main.two_chunk_file false []
         = Some (Ok out)
         /\ len (Main.seals out) = 2
         /\ exists key : @CryptoKey toy_crypto,
              Forall (fun seal => Encryptor.seal_iv seal
                                  = KeyManager.generateIV Main.some_randomness
                                  /\ Encryptor.seal_key seal = key)
                     (Main.seals out)).
Proof.
  split.
  - intros run out.
    assert (Hrun : run = Some (Ok out)) by (vm_compute; reflexivity).
    destruct (@nonce_shared_by_all_chunks toy_crypto Main.some_randomness
                1700000000000 Main.small_file false [] out Hrun)
      as (key & keyData & _ & _ & _ & Hall & _).
    exists key. exact Hall.
  - destruct (@run_returns toy_crypto Main.some_randomness 0
                Main.two_chunk_file false [] eq_refl) as [out Hout].
    exists out. split; [exact Hout|].
    destruct (@nonce_shared_by_all_chunks toy_crypto Main.some_randomness
                0 Main.two_chunk_file false [] out Hout)
      as (key & keyData & _ & Hlen & _ & Hall & _).
    split; [exact (eq_trans Hlen (proj1 two_chunk_file_chunks))|].
    exists key. exact Hall.
Defined.

(** C2, as stated, fails: in the run on a file of [CHUNK_SIZE + 1] bytes
    the chunks 0 and 1 are sealed under the same nonce. *)
Lemma nonces_not_distinct :
  ~ (forall (W : SubtleCrypto) (r : Randomness) (now : Z) (encryptFile : File)
            (usePassword : bool) (passwordValue : list Z)
            (out : Main.Encrypted),
        Main.handleEncryption r now encryptFile usePassword passwordValue
        = Some (Ok out) ->
        2 <= getTotalChunks (constructor encryptFile) ->
        forall (i j : nat) (si sj : Encryptor.Seal),
          i <> j ->
          nth_error (Main.seals out) i = Some si ->
          nth_error (Main.seals out) j = Some sj ->
          Encryptor.seal_iv si <> Encryptor.seal_iv sj).
Proof.
  intros Hclaim.
  destruct (@run_returns toy_crypto Main.some_randomness 0 Main.two_chunk_file
              false [] eq_refl) as [out Hout].
  destruct (run_nonces _ _ _ _ _ _ Hout) as (Hlen & Hiv).
  rewrite (proj2 two_chunk_file_chunks) in Hlen.
  specialize (Hclaim toy_crypto Main.some_randomness 0 Main.two_chunk_file
                false [] out Hout).
  destruct (Main.seals out) as [|s0 [|s1 [|s2 rest]]]; try discriminate Hlen.
  inversion Hiv as [|? ? H0 Hiv']; subst. inversion Hiv' as [|? ? H1 _]; subst.
  assert (H2 : 2 <= getTotalChunks (constructor Main.two_chunk_file))
    by (rewrite (proj1 two_chunk_file_chunks); apply Z.le_refl).
  assert (Hne : 0%nat <> 1%nat) by discriminate.
  apply (Hclaim H2 0%nat 1%nat s0 s1 Hne eq_refl eq_refl).
  now rewrite H0, H1.
Qed.

(** C9, as the code has it. [deriveKey] makes no check of its own: on the
    empty password it derives the PBKDF2 key of the empty byte string.
    Empty passwords stop before it: [Encryptor.prepareKey] takes the
    random-key branch, and [handleEncryption] returns early when the check
    box is set and the field is empty. *)
Theorem deriveKey_empty_password `{SubtleCrypto}
  (r : Randomness) (now : Z) (encryptFile : File) (salt : list Z) :
  KeyManager.deriveKey [] salt
  = Ok (deriveKey_PBKDF2 salt 100000 (importKey_PBKDF2 []))
  /\ Encryptor.prepareKey r (Some []) salt
     = Ok (KeyManager.generateRandomKey r,
           Some (KeyManager.exportKey (KeyManager.generateRandomKey r)))
  /\ Main.handleEncryption r now encryptFile true [] = None.
Proof. repeat split. Qed.

(** C9, as stated, fails: with the empty password and a 16-byte salt
    [deriveKey] returns a key. *)
Lemma deriveKey_accepts_empty_password :
  ~ (forall (W : SubtleCrypto) (salt : list Z),
        len salt = 16 ->
        exists e, @KeyManager.deriveKey W [] salt = Throw e).
Proof.
  intros Hclaim.
  destruct (Hclaim toy_crypto (repeat 0 16) eq_refl) as [e He].
  discriminate He.
Qed.

End KeyClaims.

(** ** UTF-8 and UTF-16 *)

Section Utf8.

Import Unicode.

Lemma check_range_spec (bits : nat) (f : Z -> bool) :
  forall base, check_range bits base f = true ->
  forall x, base <= x < base + 2 ^ Z.of_nat bits -> f x = true.
Proof.
  induction bits as [|b IH]; intros base H x Hx.
  - cbn [check_range] in H. change (2 ^ Z.of_nat 0) with 1 in Hx.
    now replace x with base by lia.
  - cbn [check_range] in H. apply andb_true_iff in H. destruct H as [H1 H2].
    rewrite Nat2Z.inj_succ, Z.pow_succ_r in Hx by lia.
    destruct (Z.lt_ge_cases x (base + 2 ^ Z.of_nat b)).
    + apply (IH base H1). lia.
    + apply (IH _ H2). lia.
Qed.

Lemma utf8_reads_back_all (cp : Z) :
  0 <= cp < 0x110000 -> utf8_reads_back cp = true.
Proof.
  intros H. destruct (Z.lt_ge_cases cp 0x100000).
  - apply (check_range_spec 20 utf8_reads_back 0).
    + vm_compute. reflexivity.
    + change (2 ^ Z.of_nat 20) with 0x100000. lia.
  - apply (check_range_spec 16 utf8_reads_back 0x100000).
    + vm_compute. reflexivity.
    + change (2 ^ Z.of_nat 16) with 0x10000. lia.
Qed.

End Utf8.

Section Utf8b.

Import Unicode.

Lemma utf8_decode_app (a b : list Z) :
  forall d,
    utf8_decode d (a ++ b)
    = snd (utf8_run d a) ++ utf8_decode (fst (utf8_run d a)) b.
Proof.
  induction a as [|x a IH]; intros d; [reflexivity|].
  cbn [app utf8_decode utf8_run].
  destruct (utf8_step d x) as [d' out].
  rewrite IH. destruct (utf8_run d' a) as [d'' out'].
  cbn [fst snd]. now rewrite app_assoc.
Qed.

Lemma utf8_run_encode (cp : Z) :
  is_scalar_value cp = true ->
  utf8_run utf8_initial (utf8_encode cp) = (utf8_initial, [cp]).
Proof.
  intros Hs.
  assert (Hr : 0 <= cp < 0x110000) by (unfold is_scalar_value in Hs; lia).
  pose proof (utf8_reads_back_all cp Hr) as H.
  unfold utf8_reads_back in H. rewrite Hs in H. cbn [negb orb] in H.
  destruct (utf8_run utf8_initial (utf8_encode cp)) as [d [|c [|c' out]]];
    try discriminate H.
  rewrite !andb_true_iff in H.
  destruct H as [[[[[H1 H2] H3] H4] H5] H6].
  destruct d as [a b c0 l u].
  cbn [bytes_needed code_point bytes_seen lower_boundary upper_boundary] in *.
  unfold utf8_initial. repeat f_equal; lia.
Qed.

Lemma utf8_decode_encode (cps : list Z) :
  Forall (fun cp => is_scalar_value cp = true) cps ->
  utf8_decode utf8_initial (flat_map utf8_encode cps) = cps.
Proof.
  induction 1 as [|cp cps Hcp _ IH]; [reflexivity|].
  cbn [flat_map]. rewrite utf8_decode_app, utf8_run_encode by assumption.
  cbn [fst snd app]. now rewrite IH.
Qed.

(** Induction over a string that follows [StringToCodePoints]. *)
Lemma units_ind (P : list Z -> Prop) :
  P [] ->
  (forall u, P [u]) ->
  (forall u v rest, P (v :: rest) -> P rest -> P (u :: v :: rest)) ->
  forall s, P s.
Proof.
  intros Hnil Hone Hstep.
  assert (H : forall s, P s /\ forall u, P (u :: s)).
  { induction s as [|v rest [IH1 IH2]].
    - split; [exact Hnil | exact Hone].
    - split; [apply IH2|]. intros u. apply Hstep; [apply IH2 | exact IH1]. }
  intros s. apply H.
Qed.

Lemma pair_bounds (u v : Z) :
  is_leading u = true -> is_trailing v = true ->
  0x10000 <= UTF16SurrogatePairToCodePoint u v < 0x110000.
Proof.
  unfold is_leading, is_trailing, UTF16SurrogatePairToCodePoint. lia.
Qed.

Lemma encode_pair (u v : Z) :
  is_leading u = true -> is_trailing v = true ->
  UTF16EncodeCodePoint (UTF16SurrogatePairToCodePoint u v) = [u; v].
Proof.
  intros Hu Hv. pose proof (pair_bounds u v Hu Hv) as Hb.
  unfold UTF16EncodeCodePoint.
  destruct (Z.leb_spec (UTF16SurrogatePairToCodePoint u v) 0xFFFF); [lia|].
  unfold is_leading, is_trailing, UTF16SurrogatePairToCodePoint in *.
  f_equal; [|f_equal]; Z.div_mod_to_equations; lia.
Qed.

Lemma encode_unit (u : Z) :
  is_code_unit u -> UTF16EncodeCodePoint u = [u].
Proof.
  unfold is_code_unit, UTF16EncodeCodePoint. intros H.
  destruct (Z.leb_spec u 0xFFFF); [reflexivity | lia].
Qed.

Lemma StringToCodePoints_cons2 (u v : Z) (rest : list Z) :
  StringToCodePoints (u :: v :: rest)
  = if is_leading u then
      if is_trailing v
      then UTF16SurrogatePairToCodePoint u v :: StringToCodePoints rest
      else u :: StringToCodePoints (v :: rest)
    else u :: StringToCodePoints (v :: rest).
Proof. reflexivity. Qed.

Lemma StringToCodePoints_one (u : Z) : StringToCodePoints [u] = [u].
Proof. cbn. now destruct (is_leading u). Qed.

Lemma CodePointsToString_inverse (s : list Z) :
  Forall is_code_unit s -> CodePointsToString (StringToCodePoints s) = s.
Proof.
  unfold CodePointsToString.
  induction s as [|u|u v rest IH1 IH2] using units_ind; intros Hs.
  - reflexivity.
  - inversion Hs; subst. rewrite StringToCodePoints_one.
    cbn [flat_map]. rewrite encode_unit by assumption. reflexivity.
  - inversion Hs as [|? ? Hu Hs']; subst. inversion Hs' as [|? ? Hv Hs'']; subst.
    rewrite StringToCodePoints_cons2.
    destruct (is_leading u) eqn:Eu; [destruct (is_trailing v) eqn:Ev|].
    + cbn [flat_map]. rewrite encode_pair, IH2 by assumption. reflexivity.
    + cbn [flat_map]. rewrite encode_unit, IH1 by assumption. reflexivity.
    + cbn [flat_map]. rewrite encode_unit, IH1 by assumption. reflexivity.
Qed.

(** A well-formed string has scalar values for code points. *)
Lemma well_formed_cons2 (u v : Z) (rest : list Z) :
  well_formed (u :: v :: rest)
  = if is_leading u then is_trailing v && well_formed rest
    else negb (is_trailing u) && well_formed (v :: rest).
Proof. reflexivity. Qed.

Lemma unit_scalar (u : Z) :
  is_code_unit u -> is_leading u = false -> is_trailing u = false ->
  is_scalar_value u = true /\ to_scalar_value u = u.
Proof.
  unfold is_code_unit, is_leading, is_trailing, is_scalar_value, to_scalar_value,
    is_surrogate.
  intros H1 H2 H3.
  destruct (Z.leb_spec 0xD800 u), (Z.leb_spec u 0xDFFF); cbn; split;
    try reflexivity; lia.
Qed.

Lemma pair_scalar (u v : Z) :
  is_leading u = true -> is_trailing v = true ->
  is_scalar_value (UTF16SurrogatePairToCodePoint u v) = true
  /\ to_scalar_value (UTF16SurrogatePairToCodePoint u v)
     = UTF16SurrogatePairToCodePoint u v.
Proof.
  intros Hu Hv. pose proof (pair_bounds u v Hu Hv) as Hb.
  unfold is_scalar_value, to_scalar_value, is_surrogate.
  destruct (Z.leb_spec 0xD800 (UTF16SurrogatePairToCodePoint u v)),
    (Z.leb_spec (UTF16SurrogatePairToCodePoint u v) 0xDFFF); cbn; split;
    try reflexivity; lia.
Qed.

Lemma well_formed_scalars (s : list Z) :
  Forall is_code_unit s -> well_formed s = true ->
  Forall (fun cp => is_scalar_value cp = true) (StringToCodePoints s)
  /\ map to_scalar_value (StringToCodePoints s) = StringToCodePoints s.
Proof.
  induction s as [|u|u v rest IH1 IH2] using units_ind; intros Hs Hw.
  - split; [constructor | reflexivity].
  - inversion Hs; subst. rewrite StringToCodePoints_one.
    cbn [well_formed] in Hw.
    destruct (is_leading u) eqn:Eu; [discriminate|].
    rewrite andb_true_r in Hw. apply negb_true_iff in Hw.
    destruct (unit_scalar u) as [S1 S2]; try assumption.
    split; [repeat constructor; assumption | cbn [map]; now rewrite S2].
  - inversion Hs as [|? ? Hu Hs']; subst. inversion Hs' as [|? ? Hv Hs'']; subst.
    rewrite StringToCodePoints_cons2. rewrite well_formed_cons2 in Hw.
    destruct (is_leading u) eqn:Eu.
    + apply andb_true_iff in Hw. destruct Hw as [Ev Hw]. rewrite Ev.
      destruct (IH2 Hs'' Hw) as [I1 I2].
      destruct (pair_scalar u v Eu Ev) as [S1 S2].
      split; [constructor; assumption | cbn [map]; now rewrite S2, I2].
    + apply andb_true_iff in Hw. destruct Hw as [Et Hw].
      apply negb_true_iff in Et.
      destruct (IH1 Hs' Hw) as [I1 I2].
      destruct (unit_scalar u) as [S1 S2]; try assumption.
      split; [constructor; assumption | cbn [map]; now rewrite S2, I2].
Qed.

(** [TextDecoder] reads back what [TextEncoder] wrote for a well-formed
    string that does not start with a byte order mark. *)
Lemma decode_encode (c : Z) (s : list Z) :
  0 <= c < 128 -> Forall is_code_unit s -> well_formed (c :: s) = true ->
  TextDecoder_decode (TextEncoder_encode (c :: s)) = c :: s.
Proof.
  intros Hc Hs Hw.
  assert (Hcs : Forall is_code_unit (c :: s))
    by (constructor; [unfold is_code_unit; lia | assumption]).
  destruct (well_formed_scalars (c :: s) Hcs Hw) as [H1 H2].
  unfold TextDecoder_decode, TextEncoder_encode.
  rewrite H2, utf8_decode_encode by assumption.
  assert (Hhd : exists cps, StringToCodePoints (c :: s) = c :: cps).
  { assert (El : is_leading c = false) by (unfold is_leading; lia).
    destruct s as [|v rest].
    - rewrite StringToCodePoints_one. eauto.
    - rewrite StringToCodePoints_cons2, El. eauto. }
  destruct Hhd as [cps Hcps].
  pose proof (CodePointsToString_inverse (c :: s) Hcs) as Hinv.
  rewrite Hcps in *.
  destruct (Z.eqb_spec c 0xFEFF); [lia|]. exact Hinv.
Qed.

(** Concatenation keeps strings well formed. *)
Lemma well_formed_app (a b : list Z) :
  well_formed a = true -> well_formed b = true -> well_formed (a ++ b) = true.
Proof.
  induction a as [|u|u v rest IH1 IH2] using units_ind; intros Ha Hb.
  - exact Hb.
  - cbn [well_formed] in Ha.
    destruct (is_leading u) eqn:Eu; [discriminate|].
    rewrite andb_true_r in Ha.
    cbn [app well_formed]. rewrite Eu, Ha, Hb. reflexivity.
  - rewrite well_formed_cons2 in Ha.
    change ((u :: v :: rest) ++ b) with (u :: v :: (rest ++ b)).
    rewrite well_formed_cons2.
    destruct (is_leading u).
    + apply andb_true_iff in Ha. destruct Ha as [Ev Ha].
      rewrite Ev, IH2 by assumption. reflexivity.
    + apply andb_true_iff in Ha. destruct Ha as [Et Ha].
      rewrite Et. cbn [andb]. change (v :: rest ++ b) with ((v :: rest) ++ b).
      now apply IH1.
Qed.

End Utf8b.

(** ** [JSON.parse] reads back what [JSON.stringify] wrote *)

Section JsonStrings.

Import Unicode JSON.

Lemma hex4_escape (c : Z) :
  is_code_unit c ->
  hex4 (hex_digit (c / 4096)) (hex_digit ((c / 256) mod 16))
       (hex_digit ((c / 16) mod 16)) (hex_digit (c mod 16)) = Some c.
Proof.
  intros Hc.
  assert (H : hex4_ok c = true).
  { apply (check_range_spec 16 hex4_ok 0); [vm_compute; reflexivity|].
    unfold is_code_unit in Hc. change (2 ^ Z.of_nat 16) with 65536. lia. }
  unfold hex4_ok in H.
  destruct (hex4 _ _ _ _) as [v|]; [|discriminate].
  apply Z.eqb_eq in H. now subst.
Qed.

Lemma parse_plain (u : Z) (tail : list Z) :
  u <> 34 -> u <> 92 -> 32 <= u ->
  parse_string_body (u :: tail) = cons_result u (parse_string_body tail).
Proof.
  intros H1 H2 H3. cbn [parse_string_body].
  destruct (Z.eqb_spec u 34); [contradiction|].
  destruct (Z.eqb_spec u 92); [contradiction|].
  destruct (Z.ltb_spec u 32); [lia | reflexivity].
Qed.

Lemma parse_escaped (u : Z) (tail : list Z) :
  is_code_unit u ->
  parse_string_body (UnicodeEscape u ++ tail)
  = cons_result u (parse_string_body tail).
Proof.
  intros Hu. unfold UnicodeEscape. cbn [app parse_string_body].
  change (92 =? 34) with false. change (92 =? 92) with true.
  change (117 =? 117) with true. cbv iota.
  now rewrite hex4_escape.
Qed.

(** One code unit that is a code point of its own. *)
Lemma parse_quoted_unit (u : Z) (tail : list Z) :
  is_code_unit u ->
  parse_string_body (quote_code_point u ++ tail)
  = cons_result u (parse_string_body tail).
Proof.
  intros Hu. unfold quote_code_point.
  destruct (Z.eqb_spec u 8); [subst; reflexivity|].
  destruct (Z.eqb_spec u 9); [subst; reflexivity|].
  destruct (Z.eqb_spec u 10); [subst; reflexivity|].
  destruct (Z.eqb_spec u 12); [subst; reflexivity|].
  destruct (Z.eqb_spec u 13); [subst; reflexivity|].
  destruct (Z.eqb_spec u 34); [subst; reflexivity|].
  destruct (Z.eqb_spec u 92); [subst; reflexivity|].
  destruct ((u <? 32) || is_surrogate u) eqn:E.
  - now apply parse_escaped.
  - apply orb_false_iff in E. destruct E as [E1 E2].
    rewrite encode_unit by assumption. cbn [app].
    apply parse_plain; lia.
Qed.

(** A surrogate pair. *)
Lemma parse_quoted_pair (u v : Z) (tail : list Z) :
  is_leading u = true -> is_trailing v = true ->
  parse_string_body
    (quote_code_point (UTF16SurrogatePairToCodePoint u v) ++ tail)
  = cons_result u (cons_result v (parse_string_body tail)).
Proof.
  intros Hu Hv. pose proof (pair_bounds u v Hu Hv) as Hb.
  unfold quote_code_point.
  set (cp := UTF16SurrogatePairToCodePoint u v) in *.
  destruct (Z.eqb_spec cp 8); [lia|]. destruct (Z.eqb_spec cp 9); [lia|].
  destruct (Z.eqb_spec cp 10); [lia|]. destruct (Z.eqb_spec cp 12); [lia|].
  destruct (Z.eqb_spec cp 13); [lia|]. destruct (Z.eqb_spec cp 34); [lia|].
  destruct (Z.eqb_spec cp 92); [lia|].
  assert (E : (cp <? 32) || is_surrogate cp = false)
    by (unfold is_surrogate; lia).
  rewrite E. unfold cp. rewrite encode_pair by assumption. cbn [app].
  unfold is_leading, is_trailing in Hu, Hv.
  rewrite parse_plain by lia. rewrite parse_plain by lia. reflexivity.
Qed.

Lemma parse_string_body_quote (s rest : list Z) :
  Forall is_code_unit s ->
  parse_string_body
    (flat_map quote_code_point (StringToCodePoints s) ++ 34 :: rest)
  = Some (s, rest).
Proof.
  induction s as [|u|u v s' IH1 IH2] using units_ind; intros Hs.
  - reflexivity.
  - inversion Hs; subst. rewrite StringToCodePoints_one.
    cbn [flat_map]. rewrite app_nil_r, parse_quoted_unit by assumption.
    reflexivity.
  - inversion Hs as [|? ? Hu Hs']; subst. inversion Hs' as [|? ? Hv Hs'']; subst.
    rewrite StringToCodePoints_cons2.
    destruct (is_leading u) eqn:Eu; [destruct (is_trailing v) eqn:Ev|];
      cbn [flat_map]; rewrite <- app_assoc.
    + rewrite parse_quoted_pair, IH2 by assumption. reflexivity.
    + rewrite parse_quoted_unit, IH1 by assumption. reflexivity.
    + rewrite parse_quoted_unit, IH1 by assumption. reflexivity.
Qed.

Lemma QuoteJSONString_app (s rest : list Z) :
  QuoteJSONString s ++ rest
  = 34 :: flat_map quote_code_point (StringToCodePoints s) ++ 34 :: rest.
Proof.
  unfold QuoteJSONString. cbn [app]. now rewrite <- app_assoc.
Qed.

End JsonStrings.


Section JsonNumbers.

Import Unicode JSON.

Lemma digits_value_snoc (ds : list Z) (d : Z) :
  digits_value (ds ++ [d]) = digits_value ds * 10 + d.
Proof. unfold digits_value. now rewrite fold_left_app. Qed.

Lemma to_digits_spec (fuel : nat) :
  forall n acc,
    0 <= n < 2 ^ Z.of_nat fuel -> (1 <= fuel)%nat ->
    exists ds,
      to_digits fuel n acc = map (Z.add 48) ds ++ acc
      /\ Forall is_decimal_digit ds
      /\ digits_value ds = n
      /\ (n = 0 -> ds = [0])
      /\ (0 < n -> 1 <= hd 0 ds).
Proof.
  induction fuel as [|fuel IH]; intros n acc Hn Hf; [lia|].
  cbn [to_digits].
  rewrite Nat2Z.inj_succ, Z.pow_succ_r in Hn by lia.
  destruct (Z.ltb_spec n 10) as [Hlt|Hge].
  - exists [n]. rewrite Z.mod_small by lia.
    split; [reflexivity|]. split; [|split; [|split]].
    + constructor; [unfold is_decimal_digit; lia | constructor].
    + cbn. lia.
    + intros ->. reflexivity.
    + intros Hp. cbn. lia.
  - assert (Hf' : (1 <= fuel)%nat).
    { destruct fuel; [|lia]. change (2 ^ Z.of_nat 0) with 1 in Hn. lia. }
    assert (Hq : 0 <= n / 10 < 2 ^ Z.of_nat fuel)
      by (Z.div_mod_to_equations; lia).
    destruct (IH (n / 10) ((48 + n mod 10) :: acc) Hq Hf')
      as (ds & E & Hds & Hv & _ & Hhd).
    exists (ds ++ [n mod 10]).
    rewrite E, map_app, <- app_assoc. cbn [map app].
    split; [reflexivity|]. split; [|split; [|split]].
    + apply Forall_app. split; [assumption|].
      constructor; [|constructor]. unfold is_decimal_digit.
      Z.div_mod_to_equations. lia.
    + rewrite digits_value_snoc, Hv. Z.div_mod_to_equations. lia.
    + lia.
    + intros _. assert (Hp : 0 < n / 10) by (Z.div_mod_to_equations; lia).
      specialize (Hhd Hp). destruct ds as [|d ds]; [cbn in Hhd; lia|].
      exact Hhd.
Qed.

Lemma decimal_spec (n : Z) :
  0 <= n ->
  exists ds,
    decimal n = map (Z.add 48) ds
    /\ Forall is_decimal_digit ds
    /\ digits_value ds = n
    /\ (n = 0 -> ds = [0])
    /\ (0 < n -> 1 <= hd 0 ds).
Proof.
  intros Hn. unfold decimal.
  destruct (to_digits_spec (S (Z.to_nat (Z.log2 n))) n []) as (ds & E & H).
  - rewrite Nat2Z.inj_succ, Z2Nat.id by apply Z.log2_nonneg.
    destruct (Z.eq_dec n 0) as [->|Hne]; [cbn; lia|].
    pose proof (Z.log2_spec n ltac:(lia)). lia.
  - lia.
  - exists ds. rewrite E, app_nil_r. auto.
Qed.

Lemma take_digits_chars (ds : list Z) (c : Z) (rest : list Z) :
  Forall is_decimal_digit ds -> is_digit c = false ->
  take_digits (map (Z.add 48) ds ++ c :: rest) = (ds, c :: rest).
Proof.
  intros Hds Hc. induction Hds as [|d ds Hd _ IH].
  - cbn [map app take_digits]. now rewrite Hc.
  - cbn [map app take_digits]. rewrite IH.
    unfold is_decimal_digit in Hd.
    assert (E : is_digit (48 + d) = true) by (unfold is_digit; lia).
    rewrite E. f_equal. f_equal. lia.
Qed.

Lemma Qred_num (n : Z) : Qred (num n * 1) = num n.
Proof.
  unfold num, Qmult, inject_Z. cbn [Qnum Qden Pos.mul]. rewrite Z.mul_1_r.
  unfold Qred.
  pose proof (Z.ggcd_gcd n 1) as Hg.
  pose proof (Z.ggcd_correct_divisors n 1) as Hd.
  destruct (Z.ggcd n 1) as [g [aa bb]]. cbn [fst snd] in *.
  rewrite Z.gcd_1_r in Hg. subst g. destruct Hd as [Ha Hb].
  rewrite !Z.mul_1_l in *. subst. reflexivity.
Qed.

Lemma number_value_int (negative : bool) (ds : list Z) :
  number_value negative ds [] 0
  = num (if negative then - digits_value ds else digits_value ds).
Proof.
  unfold number_value. rewrite app_nil_r.
  change (Qpower (num 10) (0 - len (@nil Z))) with 1%Q.
  apply Qred_num.
Qed.

Lemma parse_number_decimal (negative : bool) (n c : Z) (rest tl : list Z) :
  0 <= n -> ends_value c ->
  (if negative then 45 :: decimal n ++ c :: rest else decimal n ++ c :: rest)
  = tl ->
  parse_number tl = Some (num (if negative then - n else n), c :: rest).
Proof.
  intros Hn Hc Htl.
  destruct (decimal_spec n Hn) as (ds & E & Hds & Hv & H0 & Hhd).
  assert (Hcd : is_digit c = false)
    by (unfold is_digit; destruct Hc as [->|[->| ->]]; reflexivity).
  assert (Hint :
    match decimal n ++ c :: rest with
    | c0 :: r => if c0 =? 48 then ([0], r) else take_digits (decimal n ++ c :: rest)
    | [] => ([], decimal n ++ c :: rest)
    end = (ds, c :: rest)).
  { destruct (Z.eq_dec n 0) as [->|Hne].
    - rewrite E, (H0 eq_refl). reflexivity.
    - specialize (Hhd ltac:(lia)). rewrite E.
      destruct ds as [|d ds']; [cbn in Hhd; lia|].
      cbn [hd] in Hhd. cbn [map app].
      destruct (Z.eqb_spec (48 + d) 48); [lia|].
      change ((48 + d) :: map (Z.add 48) ds' ++ c :: rest)
        with (map (Z.add 48) (d :: ds') ++ c :: rest).
      now apply take_digits_chars. }
  assert (Hne : ds <> []).
  { intros ->. destruct (Z.eq_dec n 0) as [->|Hne].
    - now specialize (H0 eq_refl).
    - specialize (Hhd ltac:(lia)). cbn in Hhd. lia. }
  assert (Hhead : forall c0 r, decimal n ++ c :: rest = c0 :: r -> (c0 =? 45) = false).
  { intros c0 r Hd. rewrite E in Hd. destruct ds as [|d ds']; [congruence|].
    inversion Hds as [|? ? Hd0 _]; subst. unfold is_decimal_digit in Hd0.
    change (map (Z.add 48) (d :: ds') ++ c :: rest)
      with ((48 + d) :: (map (Z.add 48) ds' ++ c :: rest)) in Hd.
    apply (f_equal (hd 0)) in Hd. cbn [hd] in Hd. apply Z.eqb_neq. lia. }
  assert (Htail :
    (if (c =? 46) then @None (list Z * list Z) else Some ([], c :: rest))
    = Some ([], c :: rest))
    by (destruct Hc as [->|[->| ->]]; reflexivity).
  assert (Hexp : (c =? 101) || (c =? 69) = false)
    by (destruct Hc as [->|[->| ->]]; reflexivity).
  subst tl. unfold parse_number.
  destruct negative.
  - change (45 =? 45) with true. cbv iota. rewrite Hint.
    destruct ds as [|d ds']; [congruence|].
    destruct (c =? 46); [discriminate Htail|].
    rewrite Hexp. rewrite number_value_int, Hv. reflexivity.
  - destruct (decimal n ++ c :: rest) as [|c0 r] eqn:Ed.
    { rewrite E in Ed. destruct ds; [congruence | discriminate Ed]. }
    rewrite (Hhead c0 r eq_refl). rewrite Hint.
    destruct ds as [|d ds']; [congruence|].
    destruct (c =? 46); [discriminate Htail|].
    rewrite Hexp. rewrite number_value_int, Hv. reflexivity.
Qed.

Lemma parse_number_toString (n c : Z) (rest : list Z) :
  ends_value c ->
  parse_number (Number_toString n ++ c :: rest) = Some (num n, c :: rest).
Proof.
  intros Hc. unfold Number_toString.
  destruct (Z.ltb_spec n 0).
  - rewrite <- app_comm_cons.
    rewrite (parse_number_decimal true (- n) c rest _ ltac:(lia) Hc eq_refl).
    now rewrite Z.opp_involutive.
  - now rewrite (parse_number_decimal false n c rest _ ltac:(lia) Hc eq_refl).
Qed.

(** The first character of a number. *)
Lemma Number_toString_head (n : Z) (tail : list Z) :
  exists c0 tl,
    Number_toString n ++ tail = c0 :: tl /\ (c0 = 45 \/ 48 <= c0 <= 57).
Proof.
  unfold Number_toString. destruct (Z.ltb_spec n 0).
  - cbn [app]. eauto.
  - destruct (decimal_spec n ltac:(lia)) as (ds & E & Hds & _ & H0 & Hhd).
    rewrite E. destruct ds as [|d ds'].
    + destruct (Z.eq_dec n 0) as [->|Hne]; [now specialize (H0 eq_refl)|].
      specialize (Hhd ltac:(lia)). cbn in Hhd. lia.
    + inversion Hds as [|? ? Hd _]; subst. unfold is_decimal_digit in Hd.
      change (map (Z.add 48) (d :: ds') ++ tail)
        with ((48 + d) :: (map (Z.add 48) ds' ++ tail)).
      eexists _, _. split; [reflexivity|]. lia.
Qed.

Lemma parse_value_number (fuel : nat) (n c : Z) (rest : list Z) :
  ends_value c ->
  parse_value (S fuel) (Number_toString n ++ c :: rest)
  = POk (JNumber (num n)) (c :: rest).
Proof.
  intros Hc.
  pose proof (parse_number_toString n c rest Hc) as Hp.
  destruct (Number_toString_head n (c :: rest)) as (c0 & tl & E & Hc0).
  rewrite E in *. cbn [parse_value skip_ws].
  assert (Hws : is_ws c0 = false) by (unfold is_ws; lia).
  rewrite Hws.
  destruct (Z.eqb_spec c0 123); [lia|]. destruct (Z.eqb_spec c0 91); [lia|].
  destruct (Z.eqb_spec c0 34); [lia|]. destruct (Z.eqb_spec c0 116); [lia|].
  destruct (Z.eqb_spec c0 102); [lia|]. destruct (Z.eqb_spec c0 110); [lia|].
  now rewrite Hp.
Qed.

Lemma parse_value_string (fuel : nat) (s rest : list Z) :
  Forall is_code_unit s ->
  parse_value (S fuel) (QuoteJSONString s ++ rest) = POk (JString s) rest.
Proof.
  intros Hs. rewrite QuoteJSONString_app. cbn [parse_value skip_ws].
  change (is_ws 34) with false. cbv iota.
  change (34 =? 123) with false. change (34 =? 91) with false.
  change (34 =? 34) with true. cbv iota.
  now rewrite parse_string_body_quote.
Qed.

Lemma parse_value_bool (fuel : nat) (b : bool) (rest : list Z) :
  parse_value (S fuel) ((if b then units "true" else units "false") ++ rest)
  = POk (JBool b) rest.
Proof. destruct b; reflexivity. Qed.

Lemma parse_value_null (fuel : nat) (rest : list Z) :
  parse_value (S fuel) (units "null" ++ rest) = POk JNull rest.
Proof. reflexivity. Qed.

End JsonNumbers.

Section JsonFuel.

Import Unicode JSON.

Lemma parse_value_S (fuel : nat) (s : list Z) :
  parse_value (S fuel) s
  = match skip_ws s with
    | [] => PSyntaxError
    | c :: rest =>
        if c =? 123 then
          match skip_ws rest with
          | c' :: rest' =>
              if c' =? 125 then POk (JObject []) rest'
              else parse_members fuel rest []
          | [] => PSyntaxError
          end
        else if c =? 91 then
          match skip_ws rest with
          | c' :: rest' =>
              if c' =? 93 then POk (JArray []) rest'
              else parse_elements fuel rest []
          | [] => PSyntaxError
          end
        else if c =? 34 then
          match parse_string_body rest with
          | Some (str, rest') => POk (JString str) rest'
          | None => PSyntaxError
          end
        else if c =? 116 then
          match expect [114; 117; 101] rest with
          | Some rest' => POk (JBool true) rest'
          | None => PSyntaxError
          end
        else if c =? 102 then
          match expect [97; 108; 115; 101] rest with
          | Some rest' => POk (JBool false) rest'
          | None => PSyntaxError
          end
        else if c =? 110 then
          match expect [117; 108; 108] rest with
          | Some rest' => POk JNull rest'
          | None => PSyntaxError
          end
        else
          match parse_number (c :: rest) with
          | Some (q, rest') => POk (JNumber q) rest'
          | None => PSyntaxError
          end
    end.
Proof. reflexivity. Qed.

Lemma parse_elements_S (fuel : nat) (s : list Z) (acc : list value) :
  parse_elements (S fuel) s acc
  = match parse_value fuel s with
    | POk v rest =>
        match skip_ws rest with
        | c :: rest' =>
            if c =? 44 then parse_elements fuel rest' (acc ++ [v])
            else if c =? 93 then POk (JArray (acc ++ [v])) rest'
            else PSyntaxError
        | [] => PSyntaxError
        end
    | PSyntaxError => PSyntaxError
    | POutOfFuel => POutOfFuel
    end.
Proof. reflexivity. Qed.

Lemma parse_members_S (fuel : nat) (s : list Z) (acc : list (list Z * value)) :
  parse_members (S fuel) s acc
  = match skip_ws s with
    | c :: rest =>
        if c =? 34 then
          match parse_string_body rest with
          | Some (key, rest1) =>
              match skip_ws rest1 with
              | c1 :: rest2 =>
                  if c1 =? 58 then
                    match parse_value fuel rest2 with
                    | POk v rest3 =>
                        match skip_ws rest3 with
                        | c3 :: rest4 =>
                            if c3 =? 44
                            then parse_members fuel rest4 (obj_set acc key v)
                            else if c3 =? 125
                            then POk (JObject (obj_set acc key v)) rest4
                            else PSyntaxError
                        | [] => PSyntaxError
                        end
                    | PSyntaxError => PSyntaxError
                    | POutOfFuel => POutOfFuel
                    end
                  else PSyntaxError
              | [] => PSyntaxError
              end
          | None => PSyntaxError
          end
        else PSyntaxError
    | [] => PSyntaxError
    end.
Proof. reflexivity. Qed.

(** More fuel does not change a result. *)
Lemma fuel_step (fuel : nat) :
  (forall s v r, parse_value fuel s = POk v r ->
                 parse_value (S fuel) s = POk v r)
  /\ (forall s acc v r, parse_elements fuel s acc = POk v r ->
                        parse_elements (S fuel) s acc = POk v r)
  /\ (forall s acc v r, parse_members fuel s acc = POk v r ->
                        parse_members (S fuel) s acc = POk v r).
Proof.
  induction fuel as [|fuel (IHv & IHe & IHm)].
  - repeat split; intros; discriminate.
  - split; [|split].
    + intros s v r H. rewrite parse_value_S in H. rewrite parse_value_S.
      destruct (skip_ws s) as [|c rest]; [discriminate|].
      destruct (c =? 123).
      { destruct (skip_ws rest) as [|c' rest']; [discriminate|].
        destruct (c' =? 125); [assumption | now apply IHm]. }
      destruct (c =? 91).
      { destruct (skip_ws rest) as [|c' rest']; [discriminate|].
        destruct (c' =? 93); [assumption | now apply IHe]. }
      assumption.
    + intros s acc v r H. rewrite parse_elements_S in H.
      rewrite parse_elements_S.
      destruct (parse_value fuel s) as [v0 rest| |] eqn:Ev; try discriminate.
      rewrite (IHv _ _ _ Ev).
      destruct (skip_ws rest) as [|c rest']; [discriminate|].
      destruct (c =? 44); [now apply IHe | assumption].
    + intros s acc v r H. rewrite parse_members_S in H.
      rewrite parse_members_S.
      destruct (skip_ws s) as [|c rest]; [discriminate|].
      destruct (c =? 34); [|discriminate].
      destruct (parse_string_body rest) as [[key rest1]|]; [|discriminate].
      destruct (skip_ws rest1) as [|c1 rest2]; [discriminate|].
      destruct (c1 =? 58); [|discriminate].
      destruct (parse_value fuel rest2) as [v0 rest3| |] eqn:Ev;
        try discriminate.
      rewrite (IHv _ _ _ Ev).
      destruct (skip_ws rest3) as [|c3 rest4]; [discriminate|].
      destruct (c3 =? 44); [now apply IHm | assumption].
Qed.

Lemma fuel_mono (fuel fuel' : nat) (s : list Z) (v : value) (r : list Z) :
  (fuel <= fuel')%nat ->
  parse_value fuel s = POk v r -> parse_value fuel' s = POk v r.
Proof.
  induction 1 as [|fuel' _ IH]; [trivial|].
  intros H. apply fuel_step. now apply IH.
Qed.

Lemma skip_ws_length (s : list Z) : (length (skip_ws s) <= length s)%nat.
Proof.
  induction s as [|c s IH]; [apply Nat.le_refl|].
  cbn [skip_ws]. destruct (is_ws c); cbn [length] in *; lia.
Qed.

Lemma skip_ws_cons_length (s : list Z) (c : Z) (rest : list Z) :
  skip_ws s = c :: rest -> (length rest < length s)%nat.
Proof.
  intros H. pose proof (skip_ws_length s) as Hle.
  rewrite H in Hle. cbn [length] in Hle. lia.
Qed.

Lemma cons_result_length (c : Z) (o : option (list Z * list Z))
      (str r : list Z) (n : nat) :
  cons_result c o = Some (str, r) ->
  (forall str' r', o = Some (str', r') -> (length r' < n)%nat) ->
  (length r < n)%nat.
Proof.
  destruct o as [[str' r']|]; [|discriminate].
  cbn [cons_result]. intros H Ho. injection H as _ <-. now apply (Ho str').
Qed.

Lemma parse_string_body_length (n : nat) :
  forall s str r,
    (length s <= n)%nat ->
    parse_string_body s = Some (str, r) -> (length r < length s)%nat.
Proof.
  induction n as [|n IH]; intros s str r Hn H.
  - destruct s; [discriminate | cbn [length] in Hn; lia].
  - destruct s as [|c rest]; [discriminate|].
    cbn [parse_string_body] in H. cbn [length] in Hn |- *.
    destruct (c =? 34).
    { injection H as _ <-. lia. }
    destruct (c =? 92).
    { destruct rest as [|e rest']; [discriminate|]. cbn [length] in Hn |- *.
      destruct (e =? 117).
      - destruct rest' as [|h1 [|h2 [|h3 [|h4 rest'']]]]; try discriminate.
        cbn [length] in Hn |- *.
        destruct (hex4 h1 h2 h3 h4); [|discriminate].
        apply (cons_result_length _ _ _ _ (S (S (S (S (S (S (length rest'')))))))) in H;
          [lia|].
        intros str' r' E. apply IH in E; lia.
      - destruct (escape_char e); [|discriminate].
        apply (cons_result_length _ _ _ _ (S (S (length rest')))) in H; [lia|].
        intros str' r' E. apply IH in E; lia. }
    destruct (c <? 32); [discriminate|].
    apply (cons_result_length _ _ _ _ (S (length rest))) in H; [lia|].
    intros str' r' E. apply IH in E; lia.
Qed.

Lemma take_digits_length (s : list Z) :
  forall ds r, take_digits s = (ds, r) ->
    (length r <= length s)%nat /\ (ds <> [] -> (length r < length s)%nat).
Proof.
  induction s as [|c s IH]; intros ds r H; cbn [take_digits] in H.
  - injection H as <- <-. split; [apply Nat.le_refl | congruence].
  - destruct (is_digit c).
    + destruct (take_digits s) as [ds' r'] eqn:E.
      injection H as <- <-. destruct (IH _ _ eq_refl) as [Hle _].
      cbn [length]. split; intros; lia.
    + injection H as <- <-. split; [apply Nat.le_refl | congruence].
Qed.

Lemma expect_length (lit s r : list Z) :
  expect lit s = Some r -> (length r <= length s)%nat.
Proof.
  revert s. induction lit as [|l lit IH]; intros s H.
  - cbn [expect] in H. injection H as <-. apply Nat.le_refl.
  - destruct s as [|c s]; [discriminate|]. cbn [expect] in H.
    destruct (c =? l); [|discriminate].
    apply IH in H. cbn [length]. lia.
Qed.

Lemma parse_number_length (s : list Z) (q : Q) (r : list Z) :
  parse_number s = Some (q, r) -> (length r < length s)%nat.
Proof.
  unfold parse_number.
  set (p1 := match s with
             | c :: r0 => if c =? 45 then (true, r0) else (false, s)
             | [] => (false, s)
             end).
  assert (H1 : (length (snd p1) <= length s)%nat).
  { subst p1. destruct s as [|c r0]; [apply Nat.le_refl|].
    destruct (c =? 45); cbn [snd length]; lia. }
  destruct p1 as [negative s1]. cbn [snd] in H1.
  set (p2 := match s1 with
             | c :: r0 => if c =? 48 then ([0], r0) else take_digits s1
             | [] => ([], s1)
             end).
  assert (H2 : fst p2 <> [] -> (length (snd p2) < length s1)%nat).
  { subst p2. destruct s1 as [|c r0]; [cbn [fst]; congruence|].
    destruct (c =? 48); [cbn [snd length]; lia|].
    destruct (take_digits (c :: r0)) as [ds r1] eqn:E.
    apply take_digits_length in E. cbn [fst snd]. tauto. }
  destruct p2 as [int s2]. cbn [fst snd] in H2.
  destruct int as [|d int]; [discriminate|].
  specialize (H2 ltac:(discriminate)).
  set (fp := match s2 with
             | c :: r0 =>
                 if c =? 46 then
                   match take_digits r0 with
                   | ([], _) => None
                   | (fs, r') => Some (fs, r')
                   end
                 else Some ([], s2)
             | [] => Some ([], s2)
             end).
  assert (H3 : forall frac s3, fp = Some (frac, s3) ->
                               (length s3 <= length s2)%nat).
  { subst fp. intros frac s3 E. destruct s2 as [|c r0].
    - injection E as _ <-. apply Nat.le_refl.
    - destruct (c =? 46).
      + destruct (take_digits r0) as [fs r'] eqn:Et.
        apply take_digits_length in Et. destruct Et as [Hle _].
        destruct fs; [discriminate|]. injection E as _ <-. cbn [length]. lia.
      + injection E as _ <-. apply Nat.le_refl. }
  destruct fp as [[frac s3]|]; [|discriminate].
  specialize (H3 _ _ eq_refl).
  set (ep := match s3 with
             | c :: r0 =>
                 if (c =? 101) || (c =? 69) then
                   let '(negexp, r1) :=
                     match r0 with
                     | sg :: r' =>
                         if sg =? 45 then (true, r')
                         else if sg =? 43 then (false, r')
                         else (false, r0)
                     | [] => (false, r0)
                     end in
                   match take_digits r1 with
                   | ([], _) => None
                   | (es, r2) =>
                       Some (if negexp then - digits_value es
                             else digits_value es, r2)
                   end
                 else Some (0, s3)
             | [] => Some (0, s3)
             end).
  assert (H4 : forall e s4, ep = Some (e, s4) -> (length s4 <= length s3)%nat).
  { subst ep. intros e s4 E. destruct s3 as [|c r0].
    - injection E as _ <-. apply Nat.le_refl.
    - destruct ((c =? 101) || (c =? 69)).
      + set (p := match r0 with
                  | sg :: r' =>
                      if sg =? 45 then (true, r')
                      else if sg =? 43 then (false, r')
                      else (false, r0)
                  | [] => (false, r0)
                  end) in E.
        assert (Hp : (length (snd p) <= length r0)%nat).
        { subst p. destruct r0 as [|sg r']; [apply Nat.le_refl|].
          destruct (sg =? 45); [cbn [snd length]; lia|].
          destruct (sg =? 43); cbn [snd length]; lia. }
        destruct p as [negexp r1]. cbn [snd] in Hp.
        destruct (take_digits r1) as [es r2] eqn:Et.
        apply take_digits_length in Et. destruct Et as [Hle _].
        destruct es; [discriminate|]. injection E as _ <-. cbn [length]. lia.
      + injection E as _ <-. apply Nat.le_refl. }
  destruct ep as [[e s4]|]; [|discriminate].
  specialize (H4 _ _ eq_refl).
  intros H. injection H as _ <-. lia.
Qed.

Lemma fuel_enough (fuel : nat) :
  (forall s, (2 * length s < fuel)%nat -> progresses (parse_value fuel s) s)
  /\ (forall s acc, (2 * length s + 1 < fuel)%nat ->
                    progresses (parse_elements fuel s acc) s)
  /\ (forall s acc, (2 * length s + 1 < fuel)%nat ->
                    progresses (parse_members fuel s acc) s).
Proof.
  induction fuel as [|fuel (IHv & IHe & IHm)].
  - repeat split; intros; lia.
  - split; [|split].
    + intros s Hf. rewrite parse_value_S.
      destruct (skip_ws s) as [|c rest] eqn:Es; [exact I|].
      apply skip_ws_cons_length in Es.
      destruct (c =? 123).
      { destruct (skip_ws rest) as [|c' rest'] eqn:Er; [exact I|].
        apply skip_ws_cons_length in Er.
        destruct (c' =? 125); [cbn [progresses]; lia|].
        specialize (IHm rest [] ltac:(lia)).
        destruct (parse_members fuel rest []); cbn [progresses] in *;
          trivial; lia. }
      destruct (c =? 91).
      { destruct (skip_ws rest) as [|c' rest'] eqn:Er; [exact I|].
        apply skip_ws_cons_length in Er.
        destruct (c' =? 93); [cbn [progresses]; lia|].
        specialize (IHe rest [] ltac:(lia)).
        destruct (parse_elements fuel rest []); cbn [progresses] in *;
          trivial; lia. }
      destruct (c =? 34).
      { destruct (parse_string_body rest) as [[str rest']|] eqn:E; [|exact I].
        apply (parse_string_body_length (length rest)) in E;
          [cbn [progresses]; lia | apply Nat.le_refl]. }
      destruct (c =? 116).
      { destruct (expect _ rest) as [rest'|] eqn:E; [|exact I].
        apply expect_length in E. cbn [progresses]. lia. }
      destruct (c =? 102).
      { destruct (expect _ rest) as [rest'|] eqn:E; [|exact I].
        apply expect_length in E. cbn [progresses]. lia. }
      destruct (c =? 110).
      { destruct (expect _ rest) as [rest'|] eqn:E; [|exact I].
        apply expect_length in E. cbn [progresses]. lia. }
      destruct (parse_number (c :: rest)) as [[q rest']|] eqn:E; [|exact I].
      apply parse_number_length in E. cbn [progresses length] in *. lia.
    + intros s acc Hf. rewrite parse_elements_S.
      specialize (IHv s ltac:(lia)).
      destruct (parse_value fuel s) as [v rest| |]; cbn [progresses] in IHv;
        [|exact I|contradiction].
      destruct (skip_ws rest) as [|c rest'] eqn:Er; [exact I|].
      apply skip_ws_cons_length in Er.
      destruct (c =? 44).
      { specialize (IHe rest' (acc ++ [v]) ltac:(lia)).
        destruct (parse_elements fuel rest' (acc ++ [v]));
          cbn [progresses] in *; trivial; lia. }
      destruct (c =? 93); cbn [progresses]; trivial; lia.
    + intros s acc Hf. rewrite parse_members_S.
      destruct (skip_ws s) as [|c rest] eqn:Es; [exact I|].
      apply skip_ws_cons_length in Es.
      destruct (c =? 34); [|exact I].
      destruct (parse_string_body rest) as [[key rest1]|] eqn:E; [|exact I].
      apply (parse_string_body_length (length rest)) in E;
        [|apply Nat.le_refl].
      destruct (skip_ws rest1) as [|c1 rest2] eqn:E1; [exact I|].
      apply skip_ws_cons_length in E1.
      destruct (c1 =? 58); [|exact I].
      specialize (IHv rest2 ltac:(lia)).
      destruct (parse_value fuel rest2) as [v rest3| |]; cbn [progresses] in IHv;
        [|exact I|contradiction].
      destruct (skip_ws rest3) as [|c3 rest4] eqn:E3; [exact I|].
      apply skip_ws_cons_length in E3.
      destruct (c3 =? 44).
      { specialize (IHm rest4 (obj_set acc key v) ltac:(lia)).
        destruct (parse_members fuel rest4 (obj_set acc key v));
          cbn [progresses] in *; trivial; lia. }
      destruct (c3 =? 125); cbn [progresses]; trivial; lia.
Qed.

(** [parse] decides every text: its fuel is never used up, so [None] is
    always the [SyntaxError] of the grammar. *)
Lemma parse_fuel_enough (text : list Z) :
  parse_value (2 * length text + 2) text <> POutOfFuel.
Proof.
  intros H.
  pose proof (proj1 (fuel_enough (2 * length text + 2)) text ltac:(lia)) as Hp.
  rewrite H in Hp. exact Hp.
Qed.

End JsonFuel.

Section JsonMetadata.

Import Unicode JSON Encryptor.

Lemma join_comma_cons2 (x y : list Z) (more : list (list Z)) :
  join_comma (x :: y :: more) = x ++ 44 :: join_comma (y :: more).
Proof. reflexivity. Qed.

Lemma skip_ws_value (c : Z) (rest : list Z) :
  is_ws c = false -> skip_ws (c :: rest) = c :: rest.
Proof. intros H. cbn [skip_ws]. now rewrite H. Qed.

Lemma ends_value_93 : ends_value 93.
Proof. unfold ends_value. auto. Qed.

Lemma ends_value_44 : ends_value 44.
Proof. unfold ends_value. auto. Qed.

Lemma ends_value_125 : ends_value 125.
Proof. unfold ends_value. auto. Qed.

(** The elements of an array of numbers, after the opening bracket. *)
Lemma parse_elements_numbers (items : list Z) :
  forall (fuel : nat) (acc : list value) (rest : list Z),
    items <> [] -> (length items < fuel)%nat ->
    parse_elements fuel
      (join_comma (map Number_toString items) ++ 93 :: rest) acc
    = POk (JArray (acc ++ map (fun b => JNumber (num b)) items)) rest.
Proof.
  induction items as [|x items IH]; intros fuel acc rest Hne Hf; [congruence|].
  destruct fuel as [|[|fuel]]; try (cbn [length] in Hf; lia).
  rewrite parse_elements_S.
  destruct items as [|y more].
  - cbn [map join_comma].
    rewrite parse_value_number by apply ends_value_93.
    rewrite skip_ws_value by reflexivity.
    reflexivity.
  - cbn [map]. rewrite join_comma_cons2, <- app_assoc, <- app_comm_cons.
    rewrite parse_value_number by apply ends_value_44.
    rewrite skip_ws_value by reflexivity.
    change (44 =? 44) with true. cbv iota.
    change (Number_toString y :: map Number_toString more)
      with (map Number_toString (y :: more)).
    rewrite IH by (cbn [length] in *; (discriminate || lia)).
    rewrite <- app_assoc. reflexivity.
Qed.

Lemma parse_value_array (fuel : nat) (items rest : list Z) :
  (length items < fuel)%nat ->
  parse_value (S fuel)
    ([91] ++ join_comma (map Number_toString items) ++ [93] ++ rest)
  = POk (JArray (map (fun b => JNumber (num b)) items)) rest.
Proof.
  intros Hf. cbn [app]. rewrite parse_value_S.
  rewrite skip_ws_value by reflexivity.
  change (91 =? 123) with false. change (91 =? 91) with true. cbv iota.
  destruct items as [|x items].
  - reflexivity.
  - destruct (Number_toString_head x
                (match items with
                 | [] => []
                 | _ => 44 :: join_comma (map Number_toString items)
                 end ++ 93 :: rest)) as (c0 & tl & E & Hc0).
    assert (Etext : join_comma (map Number_toString (x :: items)) ++ 93 :: rest
                    = c0 :: tl).
    { rewrite <- E. destruct items as [|y more].
      - reflexivity.
      - cbn [map]. rewrite join_comma_cons2, <- app_assoc. reflexivity. }
    assert (Hws : is_ws c0 = false) by (unfold is_ws; lia).
    rewrite Etext at 1. rewrite skip_ws_value by assumption.
    destruct (Z.eqb_spec c0 93); [lia|].
    now apply parse_elements_numbers.
Qed.

(** One member of an object whose value text is followed by a comma or
    the closing brace. *)
Lemma parse_member (fuel : nat) (key text rest : list Z) (c : Z) (v : value)
  (acc : list (list Z * value)) :
  Forall is_code_unit key -> c = 44 \/ c = 125 ->
  parse_value fuel (text ++ c :: rest) = POk v (c :: rest) ->
  parse_members (S fuel) (QuoteJSONString key ++ 58 :: text ++ c :: rest) acc
  = if c =? 44 then parse_members fuel rest (obj_set acc key v)
    else POk (JObject (obj_set acc key v)) rest.
Proof.
  intros Hkey Hc Hv. rewrite parse_members_S, QuoteJSONString_app.
  rewrite skip_ws_value by reflexivity.
  change (34 =? 34) with true. cbv iota.
  rewrite parse_string_body_quote by assumption.
  rewrite skip_ws_value by reflexivity.
  change (58 =? 58) with true. cbv iota.
  rewrite Hv.
  rewrite skip_ws_value by (destruct Hc as [->| ->]; reflexivity).
  destruct Hc as [->| ->]; reflexivity.
Qed.

Lemma units_code_units (s : String.string) : Forall is_code_unit (units s).
Proof.
  unfold units. apply Forall_forall. intros x Hx.
  apply in_map_iff in Hx. destruct Hx as (a & <- & _).
  unfold is_code_unit. pose proof (Ascii.N_ascii_bounded a). lia.
Qed.

Lemma object_start (fuel : nat) (key rest : list Z) :
  parse_value (S fuel) (123 :: QuoteJSONString key ++ rest)
  = parse_members fuel (QuoteJSONString key ++ rest) [].
Proof.
  rewrite parse_value_S. rewrite skip_ws_value by reflexivity.
  change (123 =? 123) with true. cbv iota.
  rewrite QuoteJSONString_app. rewrite skip_ws_value by reflexivity.
  reflexivity.
Qed.

Lemma parse_stringify (m : Metadata) :
  wf_metadata m ->
  parse_value (10 + key_length m) (JSON_stringify m)
  = POk (metadata_value m) [].
Proof.
  intros (Hver & Hname & Hmime & _ & _ & Hkey).
  unfold JSON_stringify.
  set (keytext := match key m with
                  | Some keyData =>
                      [91] ++ join_comma (map Number_toString keyData) ++ [93]
                  | None => units "null"
                  end).
  cbn [app Nat.add].
  rewrite object_start.
  erewrite parse_member;
    [ | apply units_code_units | left; reflexivity
      | apply parse_value_string; assumption ].
  change (44 =? 44) with true. cbv iota.
  erewrite parse_member;
    [ | apply units_code_units | left; reflexivity
      | apply parse_value_string; assumption ].
  change (44 =? 44) with true. cbv iota.
  erewrite parse_member;
    [ | apply units_code_units | left; reflexivity
      | apply parse_value_string; assumption ].
  change (44 =? 44) with true. cbv iota.
  erewrite parse_member;
    [ | apply units_code_units | left; reflexivity
      | apply parse_value_bool ].
  change (44 =? 44) with true. cbv iota.
  erewrite parse_member;
    [ | apply units_code_units | left; reflexivity
      | apply parse_value_number; apply ends_value_44 ].
  change (44 =? 44) with true. cbv iota.
  erewrite parse_member;
    [ | apply units_code_units | left; reflexivity
      | apply parse_value_number; apply ends_value_44 ].
  change (44 =? 44) with true. cbv iota.
  assert (Hk : parse_value (S (S (key_length m))) (keytext ++ [125])
               = POk match key m with
                     | Some keyData =>
                         JArray (map (fun b => JNumber (num b)) keyData)
                     | None => JNull
                     end [125]).
  { unfold keytext, key_length. destruct (key m) as [keyData|].
    - rewrite <- !app_assoc. apply parse_value_array. lia.
    - apply parse_value_null. }
  erewrite parse_member;
    [ | apply units_code_units | right; reflexivity | exact Hk ].
  reflexivity.
Qed.

End JsonMetadata.

Section JsonText.

Import Unicode JSON Encryptor.

Lemma clean_app (a b : list Z) : clean a -> clean b -> clean (a ++ b).
Proof.
  intros [A1 A2] [B1 B2]. split.
  - apply Forall_app. now split.
  - now apply well_formed_app.
Qed.

Lemma clean_low (l : list Z) :
  Forall (fun c => 0 <= c < 0xD800) l -> clean l.
Proof.
  induction 1 as [|c l Hc _ [IH1 IH2]]; [split; [constructor | reflexivity]|].
  split.
  - constructor; [unfold is_code_unit; lia | assumption].
  - cbn [well_formed].
    assert (E1 : is_leading c = false) by (unfold is_leading; lia).
    assert (E2 : is_trailing c = false) by (unfold is_trailing; lia).
    now rewrite E1, E2, IH2.
Qed.

Lemma clean_units (s : String.string) : clean (units s).
Proof.
  apply clean_low. unfold units. apply Forall_forall. intros x Hx.
  apply in_map_iff in Hx. destruct Hx as (a & <- & _).
  pose proof (Ascii.N_ascii_bounded a). lia.
Qed.

Lemma hex_digit_low (d : Z) : 0 <= d < 16 -> 0 <= hex_digit d < 0xD800.
Proof. unfold hex_digit. intros H. destruct (d <? 10); lia. Qed.

Lemma clean_escape (c : Z) : is_code_unit c -> clean (UnicodeEscape c).
Proof.
  unfold is_code_unit. intros Hc. apply clean_low. unfold UnicodeEscape.
  repeat (apply Forall_cons; [try lia|]); try constructor;
    apply hex_digit_low; Z.div_mod_to_equations; lia.
Qed.

Lemma clean_quoted_unit (u : Z) : is_code_unit u -> clean (quote_code_point u).
Proof.
  intros Hu. unfold quote_code_point.
  repeat match goal with
         | |- clean (if ?c =? ?k then _ else _) =>
             destruct (Z.eqb_spec c k);
             [apply clean_low; repeat constructor; lia|]
         end.
  destruct ((u <? 32) || is_surrogate u) eqn:E.
  - now apply clean_escape.
  - apply orb_false_iff in E. destruct E as [_ E].
    rewrite encode_unit by assumption.
    split; [constructor; [assumption | constructor]|].
    cbn [well_formed].
    assert (E1 : is_leading u = false)
      by (unfold is_leading, is_surrogate in *; lia).
    assert (E2 : is_trailing u = false)
      by (unfold is_trailing, is_surrogate in *; lia).
    now rewrite E1, E2.
Qed.

Lemma clean_quoted_pair (u v : Z) :
  is_leading u = true -> is_trailing v = true ->
  clean (quote_code_point (UTF16SurrogatePairToCodePoint u v)).
Proof.
  intros Hu Hv. pose proof (pair_bounds u v Hu Hv) as Hb.
  unfold quote_code_point.
  set (cp := UTF16SurrogatePairToCodePoint u v) in *.
  repeat match goal with
         | |- clean (if ?c =? ?k then _ else _) =>
             destruct (Z.eqb_spec c k); [lia|]
         end.
  assert (E : (cp <? 32) || is_surrogate cp = false)
    by (unfold is_surrogate; lia).
  rewrite E. unfold cp. rewrite encode_pair by assumption.
  split.
  - unfold is_leading, is_trailing in *.
    constructor; [unfold is_code_unit; lia|].
    constructor; [unfold is_code_unit; lia | constructor].
  - cbn [well_formed]. now rewrite Hu, Hv.
Qed.

Lemma clean_quoted (s : list Z) :
  Forall is_code_unit s ->
  clean (flat_map quote_code_point (StringToCodePoints s)).
Proof.
  induction s as [|u|u v s' IH1 IH2] using units_ind; intros Hs.
  - split; [constructor | reflexivity].
  - inversion Hs; subst. rewrite StringToCodePoints_one. cbn [flat_map].
    rewrite app_nil_r. now apply clean_quoted_unit.
  - inversion Hs as [|? ? Hu Hs']; subst. inversion Hs' as [|? ? Hv Hs'']; subst.
    rewrite StringToCodePoints_cons2.
    destruct (is_leading u) eqn:Eu; [destruct (is_trailing v) eqn:Ev|];
      cbn [flat_map]; apply clean_app; auto using clean_quoted_unit,
        clean_quoted_pair.
Qed.

Lemma clean_QuoteJSONString (s : list Z) :
  Forall is_code_unit s -> clean (QuoteJSONString s).
Proof.
  intros Hs. unfold QuoteJSONString.
  change (34 :: ?l) with ([34] ++ l).
  apply clean_app; [apply clean_low; repeat constructor; lia|].
  apply clean_app; [now apply clean_quoted|].
  apply clean_low; repeat constructor; lia.
Qed.

Lemma clean_decimal (n : Z) : 0 <= n -> clean (decimal n).
Proof.
  intros Hn. destruct (decimal_spec n Hn) as (ds & E & Hds & _).
  rewrite E. apply clean_low. apply Forall_map.
  eapply Forall_impl; [|exact Hds].
  unfold is_decimal_digit. intros d Hd. lia.
Qed.

Lemma clean_Number_toString (n : Z) : clean (Number_toString n).
Proof.
  unfold Number_toString. destruct (Z.ltb_spec n 0).
  - change (45 :: ?l) with ([45] ++ l).
    apply clean_app; [apply clean_low; repeat constructor; lia|].
    apply clean_decimal. lia.
  - now apply clean_decimal.
Qed.

Lemma clean_join_comma (items : list (list Z)) :
  Forall clean items -> clean (join_comma items).
Proof.
  induction 1 as [|x items Hx Hitems IH].
  - split; [constructor | reflexivity].
  - destruct items as [|y more]; [exact Hx|].
    rewrite join_comma_cons2. apply clean_app; [exact Hx|].
    change (44 :: ?l) with ([44] ++ l).
    apply clean_app; [apply clean_low; repeat constructor; lia | exact IH].
Qed.

Lemma clean_single (c : Z) : 0 <= c < 0xD800 -> clean [c].
Proof. intros H. apply clean_low. repeat constructor; lia. Qed.

Lemma clean_stringify (m : Metadata) :
  wf_metadata m -> clean (JSON_stringify m).
Proof.
  intros (Hver & Hname & Hmime & _ & _ & Hkey).
  unfold JSON_stringify.
  repeat (apply clean_app;
          [first [ apply clean_single; lia
                 | apply clean_QuoteJSONString;
                   first [assumption | apply units_code_units]
                 | apply clean_Number_toString
                 | idtac ]|]).
  - destruct (hasPassword m); apply clean_units.
  - destruct (key m) as [keyData|]; [|apply clean_units].
    repeat (apply clean_app; [try (apply clean_single; lia)|]).
    + apply clean_join_comma. apply Forall_map. apply Forall_forall.
      intros b _. apply clean_Number_toString.
    + apply clean_single. lia.
  - apply clean_single. lia.
Qed.

Lemma Number_toString_nonempty (n : Z) : (1 <= length (Number_toString n))%nat.
Proof.
  destruct (Number_toString_head n []) as (c0 & tl & E & _).
  rewrite app_nil_r in E. rewrite E. cbn [length]. lia.
Qed.

Lemma join_comma_length (items : list Z) :
  (length items <= length (join_comma (map Number_toString items)))%nat.
Proof.
  induction items as [|x items IH]; [apply Nat.le_refl|].
  pose proof (Number_toString_nonempty x).
  destruct items as [|y more].
  - cbn [map join_comma length]. lia.
  - cbn [map]. rewrite join_comma_cons2, length_app.
    cbn [length] in *. cbn [map] in IH. lia.
Qed.

Lemma stringify_length (m : Metadata) :
  (8 + key_length m <= length (JSON_stringify m))%nat.
Proof.
  unfold JSON_stringify, key_length. rewrite !length_app.
  destruct (key m) as [keyData|].
  - rewrite !length_app. pose proof (join_comma_length keyData).
    cbn [length]. lia.
  - cbn [length]. lia.
Qed.

(** [JSON.parse(JSON.stringify(metadata))] is the metadata. *)
Lemma parse_JSON_stringify (m : Metadata) :
  wf_metadata m -> JSON.parse (JSON_stringify m) = Some (metadata_value m).
Proof.
  intros Hm. unfold JSON.parse.
  assert (Hf : (10 + key_length m <= 2 * length (JSON_stringify m) + 2)%nat)
    by (pose proof (stringify_length m); lia).
  rewrite (fuel_mono _ _ _ _ _ Hf (parse_stringify m Hm)).
  reflexivity.
Qed.

(** The text survives [TextEncoder] and [TextDecoder]. *)
Lemma decode_encode_stringify (m : Metadata) :
  wf_metadata m ->
  TextDecoder_decode (TextEncoder_encode (JSON_stringify m))
  = JSON_stringify m.
Proof.
  intros Hm. destruct (clean_stringify m Hm) as [H1 H2].
  unfold JSON_stringify in *. cbn [app] in *.
  inversion H1; subst.
  apply decode_encode; [lia | assumption | assumption].
Qed.

End JsonText.

(** ** The container *)

Section Container.

Import Unicode JSON Encryptor Decryptor.

Lemma slice_between {A : Type} (a b c : list A) (s e : Z) :
  s = len a -> e = len a + len b -> slice (a ++ b ++ c) s e = b.
Proof.
  intros -> ->. unfold slice, len.
  rewrite Nat2Z.id.
  replace (Z.to_nat (Z.of_nat (length a) + Z.of_nat (length b) - Z.of_nat (length a)))
    with (length b) by lia.
  rewrite skipn_app, skipn_all, Nat.sub_diag. cbn [skipn app].
  rewrite firstn_app, firstn_all, Nat.sub_diag. cbn [firstn].
  apply app_nil_r.
Qed.

(** What [parseEncryptedFile] does, case by case.  The overlap check
    after the length check never fires. *)
Lemma parse_cases (fileData : list Z) :
  let N := len fileData in
  let M := getUint32_le (slice fileData (N - 4) N) in
  parseEncryptedFile fileData
  = if N <? 32 then Throw FileTooSmall
    else if (M <=? 0) || (M >? N - 32) then Throw InvalidMetadataLength
    else
      match JSON.parse (TextDecoder_decode (slice fileData (N - 4 - M) (N - 4))) with
      | None => Throw InvalidMetadataJSON
      | Some v =>
          Ok {| salt := slice fileData 0 16;
                iv := slice fileData 16 28;
                encryptedData := slice fileData 28 (N - 4 - M);
                metadata := v |}
      end.
Proof.
  intros N M. unfold parseEncryptedFile. fold N. fold M.
  change (28 + 4) with 32.
  destruct (N <? 32); [reflexivity|].
  destruct ((M <=? 0) || (M >? N - 32)) eqn:E; [reflexivity|].
  destruct (Z.ltb_spec (N - 4 - M) 28); [lia | reflexivity].
Qed.

Lemma build_layout (salt iv : list Z) (chunks : list (list Z)) (meta : list Z) :
  buildEncryptedFile salt iv chunks meta = salt ++ iv ++ concat chunks ++ meta.
Proof.
  unfold buildEncryptedFile. cbn [app concat].
  rewrite concat_app. cbn [concat]. now rewrite app_nil_r.
Qed.

Lemma setUint32_le_length (v : Z) : len (setUint32_le v) = 4.
Proof. reflexivity. Qed.

Lemma StringToCodePoints_low (c : Z) (l : list Z) :
  0 <= c < 0xD800 -> exists cps, StringToCodePoints (c :: l) = c :: cps.
Proof.
  intros Hc. assert (E : is_leading c = false) by (unfold is_leading; lia).
  destruct l as [|v rest].
  - rewrite StringToCodePoints_one. eauto.
  - rewrite StringToCodePoints_cons2, E. eauto.
Qed.

Lemma encode_stringify_nonempty (m : Metadata) :
  1 <= len (TextEncoder_encode (JSON_stringify m)).
Proof.
  unfold JSON_stringify. cbn [app].
  unfold TextEncoder_encode.
  match goal with
  | |- context [StringToCodePoints (123 :: ?l)] =>
      destruct (StringToCodePoints_low 123 l ltac:(lia)) as [cps ->]
  end.
  cbn [map flat_map]. rewrite len_app.
  change (len (utf8_encode (to_scalar_value 123))) with 1.
  pose proof (len_nonneg (flat_map utf8_encode (map to_scalar_value cps))).
  lia.
Qed.

Lemma is_code_unitb_spec (l : list Z) :
  forallb is_code_unitb l = true -> Forall is_code_unit l.
Proof.
  intros H. apply Forall_forall. intros x Hx.
  rewrite forallb_forall in H. specialize (H x Hx).
  unfold is_code_unitb in H. unfold is_code_unit. lia.
Qed.

Lemma wf_metadatab_spec (m : Metadata) :
  wf_metadatab m = true -> wf_metadata m.
Proof.
  unfold wf_metadatab, wf_metadata, is_safe_integerb, is_safe_integer.
  rewrite !andb_true_iff.
  intros [[[[[H1 H2] H3] [H4 H4']] [H5 H5']] H6].
  repeat (split; [first [now apply is_code_unitb_spec | lia]|]).
  destruct (key m); [now apply is_byteb_spec | exact I].
Qed.

(** C1. A container built from a 16-byte salt, a 12-byte IV, any list of
    chunks and the serialization of a metadata record of the documented
    field types (shorter than 2^32 bytes, the range of the length trailer)
    is parsed without error into the same salt and IV, the concatenation
    of the chunks in order, and the same metadata record. *)
Theorem container_round_trip
  (salt iv : list Z) (chunks : list (list Z)) (m : Metadata) :
  len salt = 16 -> len iv = 12 -> wf_metadata m ->
  len (TextEncoder_encode (JSON_stringify m)) < 2 ^ 32 ->
  parseEncryptedFile
    (buildEncryptedFile salt iv chunks (serializeMetadata m))
  = Ok {| salt := salt; iv := iv; encryptedData := concat chunks;
          metadata := metadata_value m |}.
Proof.
  intros Hsalt Hiv Hm Hlt.
  rewrite build_layout. unfold serializeMetadata.
  set (json := JSON_stringify m).
  set (metadataBytes := TextEncoder_encode json) in *.
  set (trailer := setUint32_le (len metadataBytes)).
  set (body := concat chunks).
  set (file := salt ++ iv ++ body ++ metadataBytes ++ trailer).
  pose proof (encode_stringify_nonempty m) as Hpos.
  change (1 <= len metadataBytes) in Hpos.
  change (len metadataBytes < 2 ^ 32) in Hlt.
  pose proof (len_nonneg body) as Hbody.
  assert (HN : len file = 32 + len body + len metadataBytes)
    by (unfold file; rewrite !len_app, Hsalt, Hiv;
        unfold trailer; rewrite setUint32_le_length; lia).
  assert (Htrailer : slice file (len file - 4) (len file) = trailer).
  { unfold file at 1.
    replace (salt ++ iv ++ body ++ metadataBytes ++ trailer)
      with ((salt ++ iv ++ body ++ metadataBytes) ++ trailer ++ [])
      by (rewrite app_nil_r, <- !app_assoc; reflexivity).
    apply slice_between.
    - rewrite !len_app. lia.
    - rewrite !len_app. unfold trailer. rewrite setUint32_le_length. lia. }
  assert (HM : getUint32_le trailer = len metadataBytes)
    by (apply getUint32_le_set; lia).
  assert (Hmeta : slice file (len file - 4 - len metadataBytes) (len file - 4)
                  = metadataBytes).
  { unfold file at 1.
    replace (salt ++ iv ++ body ++ metadataBytes ++ trailer)
      with ((salt ++ iv ++ body) ++ metadataBytes ++ trailer)
      by (rewrite <- !app_assoc; reflexivity).
    apply slice_between; rewrite !len_app; lia. }
  assert (Hdata : slice file 28 (len file - 4 - len metadataBytes) = body).
  { unfold file at 1.
    replace (salt ++ iv ++ body ++ metadataBytes ++ trailer)
      with ((salt ++ iv) ++ body ++ metadataBytes ++ trailer)
      by (rewrite <- !app_assoc; reflexivity).
    apply slice_between; rewrite !len_app; lia. }
  assert (Hs : slice file 0 16 = salt).
  { unfold file. change (salt ++ ?l) with ([] ++ salt ++ l).
    apply slice_between; [reflexivity | change (len (@nil Z)) with 0; lia]. }
  assert (Hi : slice file 16 28 = iv).
  { unfold file. apply slice_between; lia. }
  rewrite parse_cases. cbv zeta.
  rewrite Htrailer, HM, Hmeta, Hdata, Hs, Hi.
  destruct (Z.ltb_spec (len file) 32); [lia|].
  destruct (Z.leb_spec (len metadataBytes) 0); [lia|].
  destruct (Z.gtb_spec (len metadataBytes) (len file - 32)); [lia|].
  cbn [orb].
  unfold metadataBytes, json.
  rewrite decode_encode_stringify, parse_JSON_stringify by assumption.
  reflexivity.
Qed.

Lemma container_round_trip_witness :
  let m :=
    {| version := units "1.0";
       filename := [0xD83D; 0xDE00; 0xD800; 34; 92; 10; 1; 0xE9; 0x4E2D]
                     ++ units "a.txt";
       mimeType := units "Text/Plain";
       hasPassword := false;
       chunksCount := 2;
       timestamp := 1700000000123;
       key := Some [0; 255; 16] |} in
  parseEncryptedFile
    (buildEncryptedFile (repeat 7 16) (repeat 9 12) [[1; 2; 3]; [4; 5]]
       (serializeMetadata m))
  = Ok {| salt := repeat 7 16; iv := repeat 9 12;
          encryptedData := concat [[1; 2; 3]; [4; 5]];
          metadata := metadata_value m |}.
Proof.
  intros m. apply container_round_trip.
  - reflexivity.
  - reflexivity.
  - apply wf_metadatab_spec. reflexivity.
  - vm_compute. reflexivity.
Defined.

(** C6, as the code has it. [parseEncryptedFile] throws exactly when the
    input has fewer than 28 + 4 = 32 bytes, or the trailing little-endian
    length [M] is 0 or puts the metadata start [N - 4 - M] before offset
    28, or the metadata bytes decode to a text [JSON.parse] rejects; in
    every other case it returns the four parts.  Every error it throws is
    a format error. *)
Theorem parse_validation (fileData : list Z) :
  let N := len fileData in
  let M := getUint32_le (slice fileData (N - 4) N) in
  let metadataStart := N - 4 - M in
  let text := TextDecoder_decode (slice fileData metadataStart (N - 4)) in
  (N < 32 -> parseEncryptedFile fileData = Throw FileTooSmall)
  /\ (32 <= N -> M <= 0 \/ metadataStart < 28 ->
      parseEncryptedFile fileData = Throw InvalidMetadataLength)
  /\ (32 <= N -> 1 <= M -> 28 <= metadataStart -> JSON.parse text = None ->
      parseEncryptedFile fileData = Throw InvalidMetadataJSON)
  /\ (32 <= N -> 1 <= M -> 28 <= metadataStart ->
      forall v, JSON.parse text = Some v ->
      parseEncryptedFile fileData
      = Ok {| salt := slice fileData 0 16;
              iv := slice fileData 16 28;
              encryptedData := slice fileData 28 metadataStart;
              metadata := v |})
  /\ (forall e, parseEncryptedFile fileData = Throw e ->
      classify e = FormatError).
Proof.
  intros N M metadataStart text.
  pose proof (parse_cases fileData) as Hc. cbv zeta in Hc.
  fold N M metadataStart text in Hc.
  split; [|split; [|split; [|split]]].
  - intros H. rewrite Hc. destruct (Z.ltb_spec N 32); [reflexivity | lia].
  - intros H1 H2. rewrite Hc. destruct (Z.ltb_spec N 32); [lia|].
    destruct (Z.leb_spec M 0), (Z.gtb_spec M (N - 32)); cbn [orb];
      try reflexivity.
    unfold metadataStart in H2. lia.
  - intros H1 H2 H3 H4. rewrite Hc, H4. destruct (Z.ltb_spec N 32); [lia|].
    destruct (Z.leb_spec M 0), (Z.gtb_spec M (N - 32)); cbn [orb];
      try reflexivity; unfold metadataStart in H3; lia.
  - intros H1 H2 H3 v H4. rewrite Hc, H4. destruct (Z.ltb_spec N 32); [lia|].
    destruct (Z.leb_spec M 0), (Z.gtb_spec M (N - 32)); cbn [orb];
      try reflexivity; unfold metadataStart in H3; lia.
  - intros e He. rewrite Hc in He.
    destruct (N <? 32); [injection He as <-; reflexivity|].
    destruct ((M <=? 0) || (M >? N - 32)); [injection He as <-; reflexivity|].
    destruct (JSON.parse text); [discriminate He|].
    injection He as <-. reflexivity.
Qed.

(** C6, as stated, fails: an input of 34 bytes, below the 32 + 4 of the
    claim, whose metadata is the text of an empty object, is parsed. *)
Lemma parse_accepts_34_bytes :
  ~ (forall fileData : list Z,
        len fileData < 32 + 4 ->
        exists e, parseEncryptedFile fileData = Throw e).
Proof.
  intros Hclaim.
  destruct (Hclaim (repeat 0 28 ++ [123; 125] ++ [2; 0; 0; 0]) eq_refl)
    as [e He].
  vm_compute in He. discriminate He.
Qed.

End Container.

(** ** Chunks and their reassembly *)

Section Reassembly.

Import ChunkedFileReader BlobBuilder.

Lemma firstn_sum {A : Type} (x y : nat) (l : list A) :
  firstn (x + y) l = firstn x l ++ firstn y (skipn x l).
Proof.
  revert l. induction x as [|x IH]; intros l; [reflexivity|].
  destruct l as [|a l]; [now rewrite !firstn_nil|].
  cbn [Nat.add firstn skipn app]. now rewrite IH.
Qed.

Lemma slice_app {A : Type} (l : list A) (a b c : Z) :
  0 <= a <= b -> b <= c -> slice l a b ++ slice l b c = slice l a c.
Proof.
  intros Hab Hbc. unfold slice.
  replace (Z.to_nat (c - a)) with (Z.to_nat (b - a) + Z.to_nat (c - b))%nat
    by lia.
  rewrite firstn_sum, skipn_skipn.
  replace (Z.to_nat (b - a) + Z.to_nat a)%nat with (Z.to_nat b) by lia.
  reflexivity.
Qed.

Lemma slice_all {A : Type} (l : list A) : slice l 0 (len l) = l.
Proof.
  unfold slice, len. rewrite Z.sub_0_r, Nat2Z.id. cbn [Z.to_nat skipn].
  apply firstn_all.
Qed.

Lemma slice_empty {A : Type} (l : list A) (a b : Z) :
  b <= a -> slice l a b = [].
Proof.
  intros H. unfold slice. replace (Z.to_nat (b - a)) with 0%nat by lia.
  reflexivity.
Qed.

Lemma concat_chunk_list (file : File) (k : nat) :
  forall offset chunkIndex,
    0 <= offset ->
    concat (map data (chunk_list file offset chunkIndex k))
    = slice (bytes file) offset
        (Z.min (offset + Z.of_nat k * CHUNK_SIZE) (size file)).
Proof.
  pose proof chunk_size_pos as HC.
  induction k as [|k IH]; intros offset chunkIndex Ho.
  - cbn [chunk_list map concat]. symmetry. apply slice_empty. lia.
  - cbn [chunk_list map concat data].
    rewrite IH by lia.
    destruct (Z_le_gt_dec (offset + CHUNK_SIZE) (size file)) as [Hle|Hgt].
    + rewrite Z.min_l by lia.
      rewrite slice_app by lia.
      f_equal. lia.
    + rewrite (slice_empty (bytes file) (offset + CHUNK_SIZE)) by lia.
      rewrite app_nil_r. f_equal. lia.
Qed.

(** X1. The chunks [readChunks] yields, put end to end in the order of
    their indices, are the bytes of the file: nothing is lost, repeated or
    reordered. *)
Theorem chunks_partition_file (file : File) :
  concat (map data (readChunks (ChunkedFileReader.constructor file))) = bytes file.
Proof.
  pose proof chunk_size_pos as HC.
  pose proof (len_nonneg (bytes file)) as HN. fold (size file) in HN.
  rewrite readChunks_list, concat_chunk_list by lia.
  pose proof (total_chunks_nonneg file) as Hn.
  rewrite Z2Nat.id by assumption.
  rewrite Z.min_r.
  - apply slice_all.
  - unfold ceil_div. Z.div_mod_to_equations. nia.
Qed.

(** X2. [shouldChunk] holds exactly for the files [readChunks] cuts into
    two or more chunks, and a file has no chunk at all exactly when it is
    empty. *)
Theorem shouldChunk_iff_several_chunks (file : File) :
  let reader := ChunkedFileReader.constructor file in
  (shouldChunk reader = true <-> 2 <= getTotalChunks reader)
  /\ (getTotalChunks reader = 0 <-> size file = 0)
  /\ (size file = 0 -> readChunks reader = []).
Proof.
  intros reader. pose proof chunk_size_pos as HC.
  pose proof (len_nonneg (bytes file)) as HN. fold (size file) in HN.
  unfold reader. rewrite total_chunks.
  split; [|split].
  - unfold shouldChunk, ChunkedFileReader.constructor.
    cbn [ChunkedFileReader.file].
    destruct (Z.gtb_spec (size file) CHUNK_SIZE); split; intros Hx;
      try reflexivity; try discriminate;
      revert Hx; unfold ceil_div; Z.div_mod_to_equations; nia.
  - unfold ceil_div. split; intros Hx; Z.div_mod_to_equations; nia.
  - intros H0. rewrite readChunks_list, H0. reflexivity.
Qed.

Lemma Array_store_end {A : Type} (arr : list (option A)) (v : A) :
  Array_store arr (length arr) v = arr ++ [Some v].
Proof.
  induction arr as [|x arr IH]; [reflexivity|].
  cbn [length Array_store app]. now rewrite IH.
Qed.

Lemma defined_app {A : Type} (a b : list (option A)) :
  defined (a ++ b) = defined a ++ defined b.
Proof.
  induction a as [|[x|] a IH]; cbn [app defined]; [reflexivity| |assumption].
  now rewrite IH.
Qed.

Lemma defined_Some {A : Type} (l : list A) : defined (map Some l) = l.
Proof. induction l as [|x l IH]; cbn [map defined]; congruence. Qed.

Lemma addChunk_end (b : BlobBuilder) (d : list Z) :
  addChunk b d (len (chunks b)) = {| chunks := chunks b ++ [Some d] |}.
Proof.
  unfold addChunk. pose proof (len_nonneg (chunks b)).
  destruct (Z.ltb_spec (len (chunks b)) 0); [lia|].
  unfold len. rewrite Nat2Z.id. now rewrite Array_store_end.
Qed.

Lemma addChunks_chunk_list (file : File) (k : nat) :
  forall offset (b : BlobBuilder),
    chunks (addChunks b (chunk_list file offset (len (chunks b)) k))
    = chunks b
        ++ map (fun c => Some (data c))
             (chunk_list file offset (len (chunks b)) k).
Proof.
  induction k as [|k IH]; intros offset b.
  - cbn [chunk_list map]. now rewrite app_nil_r.
  - cbn [chunk_list map]. unfold addChunks. cbn [fold_left data index].
    rewrite addChunk_end.
    set (b' := {| chunks := chunks b ++ [Some _] |}).
    assert (Hl : len (chunks b) + 1 = len (chunks b'))
      by (unfold b'; cbn [chunks]; rewrite len_app; reflexivity).
    rewrite Hl. fold (addChunks b' (chunk_list file (offset + CHUNK_SIZE)
                                      (len (chunks b')) k)).
    rewrite IH. unfold b' at 1. cbn [chunks].
    now rewrite <- app_assoc.
Qed.

(** X3. A [BlobBuilder] given every chunk of a reader, each under its own
    index, builds the bytes of the file, and counts as many chunks as the
    reader announces. *)
Theorem builder_reassembles_file (file : File) :
  let reader := ChunkedFileReader.constructor file in
  let builder := addChunks BlobBuilder.constructor (readChunks reader) in
  build builder = bytes file
  /\ getChunkCount builder = getTotalChunks reader.
Proof.
  intros reader builder. unfold builder, reader.
  pose proof (addChunks_chunk_list file
                (Z.to_nat (ceil_div (size file) CHUNK_SIZE)) 0
                BlobBuilder.constructor) as Hc.
  change (len (chunks BlobBuilder.constructor)) with 0 in Hc.
  rewrite <- readChunks_list in Hc. cbn [BlobBuilder.constructor chunks app] in Hc.
  unfold build, getChunkCount. rewrite Hc.
  rewrite <- (map_map data Some), defined_Some.
  split.
  - pose proof chunk_size_pos as HC.
    pose proof (len_nonneg (bytes file)) as HN. fold (size file) in HN.
    pose proof (total_chunks_nonneg file) as Hn.
    rewrite readChunks_list, concat_chunk_list by lia.
    rewrite Z2Nat.id by assumption.
    rewrite Z.min_r by (unfold ceil_div; Z.div_mod_to_equations; nia).
    apply slice_all.
  - unfold len. rewrite length_map. apply chunk_arithmetic_length.
Qed.

Lemma Array_store_comm {A : Type} (arr : list (option A)) (i j : nat)
  (x y : A) :
  i <> j ->
  Array_store (Array_store arr i x) j y
  = Array_store (Array_store arr j y) i x.
Proof.
  revert arr j. induction i as [|i IH]; intros arr [|j] Hij;
    try contradiction.
  - destruct arr; reflexivity.
  - destruct arr; reflexivity.
  - destruct arr as [|a arr]; cbn [Array_store]; f_equal; apply IH; lia.
Qed.

Lemma addChunk_comm (b : BlobBuilder.BlobBuilder) (d1 d2 : list Z) (i j : Z) :
  i <> j ->
  addChunk (addChunk b d1 i) d2 j = addChunk (addChunk b d2 j) d1 i.
Proof.
  intros Hij. unfold addChunk.
  destruct (Z.ltb_spec i 0), (Z.ltb_spec j 0); cbn [chunks];
    try reflexivity.
  f_equal. apply Array_store_comm. lia.
Qed.

Lemma addChunks_perm (l l' : list Chunk) :
  Permutation l l' -> NoDup (map index l) ->
  forall b, addChunks b l = addChunks b l'.
Proof.
  induction 1 as [|c l l' Hp IH|c1 c2 l|l l' l'' Hp1 IH1 Hp2 IH2];
    intros Hnd b.
  - reflexivity.
  - unfold addChunks. cbn [fold_left]. apply IH.
    cbn [map] in Hnd. now inversion Hnd.
  - unfold addChunks. cbn [fold_left]. f_equal.
    apply addChunk_comm. cbn [map] in Hnd.
    inversion Hnd as [|? ? Hin _]; subst. intros E. apply Hin. left.
    symmetry. exact E.
  - rewrite IH1 by assumption. apply IH2.
    apply (Permutation_NoDup (Permutation_map index Hp1) Hnd).
Qed.

(** X4. The order in which chunks reach a [BlobBuilder] does not matter:
    chunks with distinct indices, added in any order, leave the same
    builder and so the same blob. *)
Theorem builder_order_independent
  (b : BlobBuilder.BlobBuilder) (l l' : list Chunk) :
  Permutation l l' -> NoDup (map index l) ->
  addChunks b l = addChunks b l'
  /\ build (addChunks b l) = build (addChunks b l')
  /\ getChunkCount (addChunks b l) = getChunkCount (addChunks b l').
Proof.
  intros Hp Hnd. rewrite (addChunks_perm l l' Hp Hnd b).
  repeat split.
Qed.

Lemma builder_order_independent_witness :
  let c0 := {| data := [1; 2]; index := 0 |} in
  let c1 := {| data := [3]; index := 1 |} in
  let c2 := {| data := [4; 5; 6]; index := 2 |} in
  addChunks BlobBuilder.constructor [c2; c0; c1]
  = addChunks BlobBuilder.constructor [c0; c1; c2]
  /\ build (addChunks BlobBuilder.constructor [c2; c0; c1])
     = build (addChunks BlobBuilder.constructor [c0; c1; c2])
  /\ getChunkCount (addChunks BlobBuilder.constructor [c2; c0; c1])
     = getChunkCount (addChunks BlobBuilder.constructor [c0; c1; c2]).
Proof.
  intros c0 c1 c2.
  apply (builder_order_independent BlobBuilder.constructor
           [c2; c0; c1] [c0; c1; c2]).
  - apply (Permutation_cons_append [c0; c1] c2).
  - cbn [map index c0 c1 c2]. repeat constructor; cbn [In]; lia.
Defined.

Lemma Array_store_split {A : Type} (arr : list (option A)) (i : nat) (v : A) :
  Array_store arr i v
  = firstn i arr ++ repeat None (i - length arr) ++ Some v :: skipn (S i) arr.
Proof.
  revert arr. induction i as [|i IH]; intros [|a arr]; cbn [Array_store].
  - reflexivity.
  - reflexivity.
  - rewrite IH. cbn [firstn skipn length Nat.sub repeat app].
    rewrite Nat.sub_0_r. destruct i; reflexivity.
  - rewrite IH. reflexivity.
Qed.

Lemma defined_holes {A : Type} (n : nat) :
  defined (repeat (@None A) n) = [].
Proof. induction n; [reflexivity | assumption]. Qed.

(** X5. [addChunk] at an array index [i], [0 <= i < 2^32 - 1], puts the
    chunk between the chunks of lower and of higher index, in place of a
    chunk already stored there; holes are skipped by [build], and the count
    grows only when the index was free. *)
Theorem addChunk_replaces
  (b : BlobBuilder.BlobBuilder) (d : list Z) (i : Z) :
  0 <= i < 2 ^ 32 - 1 ->
  let before := defined (firstn (Z.to_nat i) (chunks b)) in
  let after := defined (skipn (S (Z.to_nat i)) (chunks b)) in
  build (addChunk b d i) = concat before ++ d ++ concat after
  /\ getChunkCount (addChunk b d i)
     = getChunkCount b
       + match nth_error (chunks b) (Z.to_nat i) with
         | Some (Some _) => 0
         | _ => 1
         end.
Proof.
  intros [Hi _] before after. unfold build, getChunkCount, addChunk.
  destruct (Z.ltb_spec i 0); [lia|]. cbn [chunks].
  rewrite Array_store_split, !defined_app, defined_holes.
  cbn [app defined]. fold before after.
  split.
  - rewrite concat_app. reflexivity.
  - assert (Hd : defined (chunks b)
                 = before ++ defined (skipn (Z.to_nat i) (chunks b))).
    { unfold before. rewrite <- defined_app, firstn_skipn. reflexivity. }
    rewrite Hd, !len_app, len_cons.
    destruct (Nat.le_gt_cases (length (chunks b)) (Z.to_nat i)) as [Hout|Hin].
    + rewrite (proj2 (nth_error_None _ _) Hout).
      unfold after. rewrite !(skipn_all2 (chunks b)) by lia.
      cbn [defined]. change (len (@nil (list Z))) with 0. lia.
    + unfold after.
      destruct (skipn (Z.to_nat i) (chunks b)) as [|x rest] eqn:E.
      * apply (f_equal (@length _)) in E. rewrite length_skipn in E.
        cbn [length] in E. lia.
      * assert (Es : skipn (S (Z.to_nat i)) (chunks b) = rest).
        { change (S (Z.to_nat i)) with (1 + Z.to_nat i)%nat.
          rewrite <- skipn_skipn, E. reflexivity. }
        assert (En : nth_error (chunks b) (Z.to_nat i) = Some x).
        { rewrite <- (firstn_skipn (Z.to_nat i) (chunks b)), E.
          rewrite nth_error_app2 by (rewrite length_firstn; lia).
          rewrite length_firstn, Nat.min_l, Nat.sub_diag by lia.
          reflexivity. }
        rewrite Es, En.
        destruct x; cbn [defined]; rewrite ?len_cons; lia.
Qed.

Lemma addChunk_replaces_witness :
  let b := addChunks BlobBuilder.constructor
             [{| data := [1; 2]; index := 0 |};
              {| data := [9]; index := 3 |}] in
  build (addChunk b [7; 7] 0) = [7; 7; 9]
  /\ getChunkCount (addChunk b [7; 7] 0) = 2
  /\ build (addChunk b [5] 2) = [1; 2; 5; 9]
  /\ getChunkCount (addChunk b [5] 2) = 3.
Proof.
  intros b.
  destruct (addChunk_replaces b [7; 7] 0 ltac:(lia)) as [H1 H2].
  destruct (addChunk_replaces b [5] 2 ltac:(lia)) as [H3 H4].
  split; [|split; [|split]];
    [rewrite H1 | rewrite H2 | rewrite H3 | rewrite H4]; reflexivity.
Defined.

End Reassembly.

(** ** File names, validation and the password meter *)

Section Names.

Import Unicode JSON Values Downloader FileValidator.

Lemma string_eqb_refl (s : list Z) : string_eqb s s = true.
Proof.
  induction s as [|c s IH]; [reflexivity|].
  cbn [string_eqb]. now rewrite Z.eqb_refl.
Qed.

Lemma string_eqb_eq (a b : list Z) : string_eqb a b = true <-> a = b.
Proof.
  split; [|intros ->; apply string_eqb_refl].
  revert b. induction a as [|x a IH]; intros [|y b] H; try discriminate.
  - reflexivity.
  - cbn [string_eqb] in H. apply andb_true_iff in H. destruct H as [H1 H2].
    apply Z.eqb_eq in H1. subst. f_equal. now apply IH.
Qed.

Lemma endsWith_app (s suffix : list Z) : endsWith (s ++ suffix) suffix = true.
Proof.
  unfold endsWith. rewrite length_app.
  replace (length s + length suffix - length suffix)%nat with (length s)
    by lia.
  rewrite skipn_app, skipn_all, Nat.sub_diag. cbn [skipn app].
  rewrite string_eqb_refl, andb_true_r. apply Nat.leb_le. lia.
Qed.

Lemma endsWith_spec (s suffix : list Z) :
  endsWith s suffix = true <-> exists stem, s = stem ++ suffix.
Proof.
  split.
  - unfold endsWith. intros H. apply andb_true_iff in H.
    destruct H as [_ H]. apply string_eqb_eq in H.
    exists (firstn (length s - length suffix) s).
    rewrite <- H at 2. now rewrite firstn_skipn.
  - intros [stem ->]. apply endsWith_app.
Qed.

Lemma replace_enc_encrypted (originalFilename : list Z) :
  replace_enc (getEncryptedFilename originalFilename) = originalFilename.
Proof.
  unfold replace_enc, getEncryptedFilename. rewrite endsWith_app.
  rewrite length_app.
  change (length (units ".enc")) with 4%nat.
  replace (length originalFilename + 4 - 4)%nat with (length originalFilename)
    by lia.
  rewrite firstn_app, firstn_all, Nat.sub_diag. cbn [firstn].
  apply app_nil_r.
Qed.

(** X6. The names of the two directions fit: the name
    [getEncryptedFilename] gives an encrypted file passes
    [validateEncryptedFile], and [getDecryptedFilename] recovers the
    original name from it when the metadata holds none (or an empty one),
    even when the original name itself ends in ".enc"; a name in the
    metadata is taken as it is. *)
Theorem filename_round_trip (originalFilename : list Z) (f : File) :
  let encrypted := getEncryptedFilename originalFilename in
  getDecryptedFilename encrypted None = JString originalFilename
  /\ getDecryptedFilename encrypted (Some (JString []))
     = JString originalFilename
  /\ (forall c stored,
        getDecryptedFilename encrypted (Some (JString (c :: stored)))
        = JString (c :: stored))
  /\ (name f = encrypted -> valid (validateEncryptedFile f) = true).
Proof.
  intros encrypted. unfold encrypted, getDecryptedFilename.
  cbn [ToBoolean]. rewrite replace_enc_encrypted.
  split; [reflexivity|]. split; [reflexivity|]. split; [reflexivity|].
  intros Hn. unfold validateEncryptedFile. rewrite Hn.
  unfold getEncryptedFilename. rewrite endsWith_app. reflexivity.
Qed.

(** X7. [validateForDecryption] accepts exactly the files of at most 2 GiB
    whose name ends in ".enc", and reports the first check that fails, in
    the order: a file is selected, its size, its extension.
    [validateForEncryption] makes the first two checks only. *)
Theorem validation_checks (file : option File) :
  let d := validateForDecryption file in
  let e := validateForEncryption file in
  (valid d = true <->
   exists f, file = Some f /\ size f <= MAX_FILE_SIZE
             /\ endsWith (name f) (units ".enc") = true)
  /\ (valid e = true <-> exists f, file = Some f /\ size f <= MAX_FILE_SIZE)
  /\ (error d = Some NoFileSelected <-> file = None)
  /\ (error d = Some FileSizeExceeds <->
      exists f, file = Some f /\ MAX_FILE_SIZE < size f)
  /\ (error d = Some NotAnEncryptedFile <->
      exists f, file = Some f /\ size f <= MAX_FILE_SIZE
                /\ endsWith (name f) (units ".enc") = false)
  /\ (valid d = true <-> error d = None)
  /\ (valid d = true -> valid e = true).
Proof.
  intros d e. unfold d, e, validateForDecryption, validateForEncryption.
  destruct file as [f|]; cbn [validateFileExists valid negb error].
  - unfold validateFileSize, validateEncryptedFile.
    destruct (Z.gtb_spec (size f) MAX_FILE_SIZE) as [Hs|Hs];
      cbn [valid negb error].
    + repeat split; try discriminate; try (intros (g & Hg & Hx));
        try (injection Hg as <-); try lia; try (destruct Hx; lia);
        eauto.
    + destruct (endsWith (name f) (units ".enc")) eqn:He;
        cbn [valid negb error].
      * repeat split; try discriminate; try (intros (g & Hg & Hx));
          try (injection Hg as <-); try lia;
          try (destruct Hx; congruence); eauto.
      * repeat split; try discriminate; try (intros (g & Hg & Hx));
          try (injection Hg as <-); try lia;
          try (destruct Hx; congruence); eauto.
  - repeat split; try discriminate; try (intros (g & Hg & _));
      try discriminate; eauto.
Qed.

(** X8. A file [validateForEncryption] accepts is cut into at most 205
    chunks. *)
Theorem accepted_file_chunks (f : File) :
  valid (validateForEncryption (Some f)) = true ->
  ChunkedFileReader.getTotalChunks (ChunkedFileReader.constructor f) <= 205.
Proof.
  unfold validateForEncryption, validateFileSize.
  cbn [validateFileExists valid negb].
  destruct (Z.gtb_spec (size f) MAX_FILE_SIZE) as [Hs|Hs];
    cbn [valid negb]; [discriminate|]. intros _.
  rewrite total_chunks. unfold ChunkedFileReader.ceil_div.
  unfold MAX_FILE_SIZE in Hs. unfold ChunkedFileReader.CHUNK_SIZE.
  Z.div_mod_to_equations. lia.
Qed.

Lemma accepted_file_chunks_witness :
  ChunkedFileReader.getTotalChunks
    (ChunkedFileReader.constructor Main.small_file) <= 205.
Proof. apply accepted_file_chunks. reflexivity. Defined.

End Names.

Section Meter.

Import Handlers.

Lemma existsb_nonempty {A : Type} (f : A -> bool) (l : list A) :
  existsb f l = true -> 0 < len l.
Proof.
  destruct l; [discriminate|]. intros _. rewrite len_cons.
  pose proof (len_nonneg l). lia.
Qed.

Lemma all_lower (password : list Z) :
  has_upper password = false -> has_digit password = false ->
  has_other password = false ->
  Forall (fun c => 97 <= c <= 122) password.
Proof.
  unfold has_upper, has_digit, has_other.
  induction password as [|c p IH]; [constructor|].
  cbn [existsb]. intros Hu Hd Ho.
  apply orb_false_iff in Hu, Hd, Ho.
  destruct Hu as [Hu Hu'], Hd as [Hd Hd'], Ho as [Ho Ho'].
  constructor; [|now apply IH].
  unfold is_alphanumeric in Ho. rewrite Hu, Hd in Ho. cbn [orb negb] in Ho.
  rewrite orb_false_r in Ho. apply negb_false_iff in Ho. lia.
Qed.

Lemma lower_only (password : list Z) :
  Forall (fun c => 97 <= c <= 122) password ->
  has_upper password = false /\ has_digit password = false
  /\ has_other password = false.
Proof.
  unfold has_upper, has_digit, has_other.
  induction 1 as [|c p Hc _ (IH1 & IH2 & IH3)]; [repeat split|].
  cbn [existsb]. rewrite IH1, IH2, IH3. unfold is_alphanumeric.
  repeat split; rewrite orb_false_r.
  - lia.
  - lia.
  - apply negb_false_iff. lia.
Qed.

(** X9. The password meter: the score lies between 0 and 100; the label
    is 'Weak' exactly for passwords of fewer than 8 characters, all of
    them lower-case letters (the empty one included), and 'Strong'
    exactly for passwords that have a character other than a letter or
    digit together with two of: 8 characters or more, an upper-case
    letter, a digit; or that have all three of these. *)
Theorem password_meter (password : list Z) :
  let long := len password >=? 8 in
  let upper := has_upper password in
  let digit := has_digit password in
  let other := has_other password in
  0 <= passwordStrength password <= 100
  /\ (strengthText password = Weak <->
      len password < 8 /\ Forall (fun c => 97 <= c <= 122) password)
  /\ (strengthText password = Strong <->
      other && ((long && upper) || (long && digit) || (upper && digit))
      || (long && upper && digit) = true).
Proof.
  intros long upper digit other.
  pose proof (len_nonneg password) as Hl.
  assert (Hne : upper || digit || other = true -> 0 < len password).
  { unfold upper, digit, other, has_upper, has_digit, has_other.
    intros Hx. apply orb_true_iff in Hx. destruct Hx as [Hx|Hx];
      [apply orb_true_iff in Hx; destruct Hx as [Hx|Hx]|];
      now apply existsb_nonempty in Hx. }
  assert (Hlow : upper = false /\ digit = false /\ other = false <->
                 Forall (fun c => 97 <= c <= 122) password).
  { split; [intros (H1 & H2 & H3); now apply all_lower | apply lower_only]. }
  unfold strengthText, passwordStrength.
  fold long upper digit other. cbv zeta.
  destruct (Z.gtb_spec (len password) 0) as [Hp|Hp];
    destruct (Z.geb_spec (len password) 8) as [H8|H8]; try lia;
    subst long; destruct upper, digit, other; cbn [orb andb] in *;
    try (specialize (Hne eq_refl); lia);
    (split; [lia|]); cbn;
    (split; split; intros Hx; try discriminate; try reflexivity;
     try lia;
     try (match goal with
          | Hc : _ /\ Forall _ _ |- _ =>
              destruct Hc as [? Hc]; try lia;
              apply Hlow in Hc; destruct Hc as (? & ? & ?); discriminate
          end);
     try (split; [lia | apply Hlow; repeat split])).
Qed.

End Meter.

Section Media.

Import Unicode JSON Values Decryption.

(** X10. [detectMediaType] throws a [TypeError] on anything but a string,
    and on a string raises at most one of its three flags: each exactly
    when the type starts with "image/", "video/" or "audio/", in lower
    case. *)
Theorem media_type_flags (mimeType : option value) :
  (forall s, mimeType = Some (JString s) ->
     exists m,
       detectMediaType mimeType = Return m
       /\ (isImage m = true <-> exists rest, s = units "image/" ++ rest)
       /\ (isVideo m = true <-> exists rest, s = units "video/" ++ rest)
       /\ (isAudio m = true <-> exists rest, s = units "audio/" ++ rest)
       /\ isImage m && isVideo m = false
       /\ isImage m && isAudio m = false
       /\ isVideo m && isAudio m = false)
  /\ ((forall s, mimeType <> Some (JString s)) ->
      detectMediaType mimeType = Raise TypeError).
Proof.
  split.
  - intros s ->. eexists. split; [reflexivity|]. cbn [isImage isVideo isAudio].
    assert (Hsw : forall p, startsWith s p = true <-> exists rest, s = p ++ rest).
    { intros p. revert s. induction p as [|c p IH]; intros s.
      - split; [intros _; now exists s | intros _; destruct s; reflexivity].
      - destruct s as [|x s]; cbn [startsWith].
        + split; [discriminate | intros [rest Hr]; discriminate].
        + rewrite andb_true_iff, Z.eqb_eq, IH. split.
          * intros [-> [rest ->]]. now exists rest.
          * intros [rest Hr]. injection Hr as -> ->. split; eauto. }
    split; [apply Hsw|]. split; [apply Hsw|]. split; [apply Hsw|].
    destruct s as [|x s]; [repeat split|].
    change (units "image/") with (105 :: units "mage/").
    change (units "video/") with (118 :: units "ideo/").
    change (units "audio/") with (97 :: units "udio/").
    cbn [startsWith].
    destruct (Z.eqb_spec x 105), (Z.eqb_spec x 118), (Z.eqb_spec x 97);
      try lia; repeat split.
  - intros Hn. destruct mimeType as [[]|]; try reflexivity.
    exfalso. eapply Hn. reflexivity.
Qed.

End Media.

(** ** The container, read back *)

Section Layout.

Import Unicode JSON Encryptor Decryptor.

(** A container laid out as the format says is parsed into its parts,
    whatever its metadata bytes are, as long as they hold a JSON text. *)
Lemma parse_layout (salt iv body metadataBytes : list Z) :
  len salt = 16 -> len iv = 12 -> 1 <= len metadataBytes < 2 ^ 32 ->
  parseEncryptedFile
    (salt ++ iv ++ body ++ metadataBytes ++ setUint32_le (len metadataBytes))
  = match JSON.parse (TextDecoder_decode metadataBytes) with
    | Some v => Ok {| salt := salt; iv := iv; encryptedData := body;
                      metadata := v |}
    | None => Throw InvalidMetadataJSON
    end.
Proof.
  intros Hsalt Hiv Hm.
  set (trailer := setUint32_le (len metadataBytes)).
  set (file := salt ++ iv ++ body ++ metadataBytes ++ trailer).
  pose proof (len_nonneg body) as Hbody.
  assert (HN : len file = 32 + len body + len metadataBytes)
    by (unfold file; rewrite !len_app, Hsalt, Hiv;
        unfold trailer; rewrite setUint32_le_length; lia).
  assert (Htrailer : slice file (len file - 4) (len file) = trailer).
  { unfold file at 1.
    replace (salt ++ iv ++ body ++ metadataBytes ++ trailer)
      with ((salt ++ iv ++ body ++ metadataBytes) ++ trailer ++ [])
      by (rewrite app_nil_r, <- !app_assoc; reflexivity).
    apply slice_between.
    - rewrite !len_app. lia.
    - rewrite !len_app. unfold trailer. rewrite setUint32_le_length. lia. }
  assert (HM : getUint32_le trailer = len metadataBytes)
    by (apply getUint32_le_set; lia).
  assert (Hmeta : slice file (len file - 4 - len metadataBytes) (len file - 4)
                  = metadataBytes).
  { unfold file at 1.
    replace (salt ++ iv ++ body ++ metadataBytes ++ trailer)
      with ((salt ++ iv ++ body) ++ metadataBytes ++ trailer)
      by (rewrite <- !app_assoc; reflexivity).
    apply slice_between; rewrite !len_app; lia. }
  assert (Hdata : slice file 28 (len file - 4 - len metadataBytes) = body).
  { unfold file at 1.
    replace (salt ++ iv ++ body ++ metadataBytes ++ trailer)
      with ((salt ++ iv) ++ body ++ metadataBytes ++ trailer)
      by (rewrite <- !app_assoc; reflexivity).
    apply slice_between; rewrite !len_app; lia. }
  assert (Hs : slice file 0 16 = salt).
  { unfold file. change (salt ++ ?l) with ([] ++ salt ++ l).
    apply slice_between; [reflexivity | change (len (@nil Z)) with 0; lia]. }
  assert (Hi : slice file 16 28 = iv).
  { unfold file. apply slice_between; lia. }
  rewrite parse_cases. cbv zeta.
  rewrite Htrailer, HM, Hmeta, Hdata, Hs, Hi.
  destruct (Z.ltb_spec (len file) 32); [lia|].
  destruct (Z.leb_spec (len metadataBytes) 0); [lia|].
  destruct (Z.gtb_spec (len metadataBytes) (len file - 32)); [lia|].
  cbn [orb]. destruct (JSON.parse _); reflexivity.
Qed.

Lemma Forall_slice {A : Type} (P : A -> Prop) (l : list A) (a b : Z) :
  Forall P l -> Forall P (slice l a b).
Proof.
  intros H. unfold slice.
  apply (Forall_skipn P (Z.to_nat a)) in H.
  rewrite <- (firstn_skipn (Z.to_nat (b - a))) in H.
  now apply Forall_app in H.
Qed.

Lemma setUint32_le_get (t : list Z) :
  len t = 4 -> Forall is_byte t -> setUint32_le (getUint32_le t) = t.
Proof.
  intros Hl Hb.
  destruct t as [|a [|b [|c [|d [|e t]]]]]; try discriminate Hl.
  2:{ exfalso. rewrite !len_cons in Hl. pose proof (len_nonneg t). lia. }
  inversion Hb as [|? ? Ha Hb1]; subst. inversion Hb1 as [|? ? Hb' Hb2]; subst.
  inversion Hb2 as [|? ? Hc Hb3]; subst. inversion Hb3 as [|? ? Hd _]; subst.
  unfold is_byte in *.
  unfold setUint32_le, getUint32_le, getUint32_be, setUint32_be.
  cbn [rev app nth].
  set (v := d * 2 ^ 24 + c * 2 ^ 16 + b * 2 ^ 8 + a).
  assert (Hv : 0 <= v < 2 ^ 32) by (unfold v; lia).
  rewrite (Z.mod_small v) by lia.
  assert (E1 : v / 2 ^ 24 = d)
    by (unfold v; change (2 ^ 24) with 16777216; change (2 ^ 16) with 65536;
        change (2 ^ 8) with 256; Z.div_mod_to_equations; lia).
  assert (E2 : (v / 2 ^ 16) mod 256 = c)
    by (unfold v; change (2 ^ 24) with 16777216; change (2 ^ 16) with 65536;
        change (2 ^ 8) with 256; Z.div_mod_to_equations; lia).
  assert (E3 : (v / 2 ^ 8) mod 256 = b)
    by (unfold v; change (2 ^ 24) with 16777216; change (2 ^ 16) with 65536;
        change (2 ^ 8) with 256; Z.div_mod_to_equations; lia).
  assert (E4 : v mod 256 = a)
    by (unfold v; change (2 ^ 24) with 16777216; change (2 ^ 16) with 65536;
        change (2 ^ 8) with 256; Z.div_mod_to_equations; lia).
  rewrite E1, E2, E3, E4. reflexivity.
Qed.

Lemma getUint32_le_range (t : list Z) :
  len t = 4 -> Forall is_byte t -> 0 <= getUint32_le t < 2 ^ 32.
Proof.
  intros Hl Hb.
  destruct t as [|a [|b [|c [|d [|e t]]]]]; try discriminate Hl.
  2:{ exfalso. rewrite !len_cons in Hl. pose proof (len_nonneg t). lia. }
  inversion Hb as [|? ? Ha Hb1]; subst. inversion Hb1 as [|? ? Hb' Hb2]; subst.
  inversion Hb2 as [|? ? Hc Hb3]; subst. inversion Hb3 as [|? ? Hd _]; subst.
  unfold is_byte in *. unfold getUint32_le, getUint32_be. cbn [rev app nth].
  lia.
Qed.

(** X11. [parseEncryptedFile] never throws 'Invalid file structure:
    metadata overlaps with header': the length check before it already
    excludes a metadata start below offset 28. *)
Theorem parse_never_reports_overlap (fileData : list Z) :
  parseEncryptedFile fileData <> Throw MetadataOverlapsHeader.
Proof.
  rewrite parse_cases. cbv zeta.
  destruct (_ <? 32); [discriminate|].
  destruct (_ || _); [discriminate|].
  destruct (JSON.parse _); discriminate.
Qed.

(** X12. [parseEncryptedFile] accepts exactly the byte strings laid out
    as salt (16 bytes), IV (12 bytes), encrypted data, metadata bytes (at
    least one, holding a JSON text) and their length in 4 little-endian
    bytes, and returns these parts: the input is split without loss. *)
Theorem parse_accepts_layout (fileData : list Z) (p : Parsed) :
  Forall is_byte fileData ->
  (parseEncryptedFile fileData = Ok p <->
   exists metadataBytes,
     fileData = salt p ++ iv p ++ encryptedData p ++ metadataBytes
                  ++ setUint32_le (len metadataBytes)
     /\ len (salt p) = 16 /\ len (iv p) = 12
     /\ 1 <= len metadataBytes < 2 ^ 32
     /\ JSON.parse (TextDecoder_decode metadataBytes) = Some (metadata p)).
Proof.
  intros Hbytes. split.
  - rewrite parse_cases. cbv zeta.
    set (N := len fileData).
    set (trailer := slice fileData (N - 4) N).
    set (M := getUint32_le trailer).
    destruct (Z.ltb_spec N 32) as [|HN]; [discriminate|].
    destruct (Z.leb_spec M 0) as [|HM0]; [discriminate|].
    destruct (Z.gtb_spec M (N - 32)) as [|HM]; [discriminate|].
    cbn [orb].
    destruct (JSON.parse _) as [v|] eqn:Ev; [|discriminate].
    intros Hp. injection Hp as <-. cbn [salt iv encryptedData metadata].
    exists (slice fileData (N - 4 - M) (N - 4)).
    assert (HN0 : N = len fileData) by reflexivity.
    assert (Hlt : len trailer = 4)
      by (unfold trailer; rewrite slice_len; lia).
    assert (Hlm : len (slice fileData (N - 4 - M) (N - 4)) = M)
      by (rewrite slice_len; lia).
    assert (Htb : Forall is_byte trailer) by now apply Forall_slice.
    rewrite Hlm.
    replace (setUint32_le M) with trailer
      by (symmetry; apply setUint32_le_get; assumption).
    pose proof (getUint32_le_range trailer Hlt Htb) as HMr. fold M in HMr.
    split; [|repeat split; try assumption; try lia;
             apply slice_len; lia].
    unfold trailer.
    rewrite (slice_app fileData (N - 4 - M) (N - 4) N) by lia.
    rewrite (slice_app fileData 28 (N - 4 - M) N) by lia.
    rewrite (slice_app fileData 16 28 N) by lia.
    rewrite (slice_app fileData 0 16 N) by lia.
    symmetry. apply slice_all.
  - intros (metadataBytes & -> & Hs & Hi & Hm & Hj).
    rewrite parse_layout, Hj by assumption. destruct p. reflexivity.
Qed.

Lemma parse_accepts_layout_witness :
  parseEncryptedFile (repeat 0 28 ++ [1; 2; 3] ++ [123; 125] ++ [2; 0; 0; 0])
  = Ok {| salt := repeat 0 16; iv := repeat 0 12;
          encryptedData := [1; 2; 3];
          metadata := JObject [] |}.
Proof.
  assert (Hb : Forall is_byte
                 (repeat 0 28 ++ [1; 2; 3] ++ [123; 125] ++ [2; 0; 0; 0]))
    by (apply is_byteb_spec; reflexivity).
  apply (proj2 (parse_accepts_layout _ _ Hb)).
  exists [123; 125]. cbn [salt iv encryptedData metadata].
  split; [reflexivity|]. split; [reflexivity|]. split; [reflexivity|].
  split; [split; [discriminate | reflexivity]|].
  vm_compute. reflexivity.
Defined.

End Layout.

(** ** Decryption *)

Section StandIn.

Lemma ToUint8_range (v : Z) : is_byte (ToUint8 v).
Proof.
  unfold is_byte, ToUint8. pose proof (Z.mod_pos_bound v 256 ltac:(lia)). lia.
Qed.

Lemma map_ToUint8_bytes (l : list Z) : Forall is_byte (map ToUint8 l).
Proof.
  apply Forall_forall. intros x Hx. apply in_map_iff in Hx.
  destruct Hx as (v & <- & _). apply ToUint8_range.
Qed.

Lemma map_ToUint8_id (l : list Z) : Forall is_byte l -> map ToUint8 l = l.
Proof.
  induction 1 as [|x l Hx _ IH]; [reflexivity|].
  cbn [map]. now rewrite IH, ToUint8_byte.
Qed.

(** The stand-in implementation has the laws assumed of the platform. *)
Lemma tag_laws : @CryptoLaws tag_crypto tag_decrypt.
Proof.
  constructor.
  - intros iv key data. apply map_ToUint8_bytes.
  - intros key. apply map_ToUint8_bytes.
  - intros iv key data Hd.
    cbn [decrypt_AES_GCM tag_decrypt encrypt_AES_GCM tag_crypto].
    rewrite (map_app ToUint8 data), (map_ToUint8_id data Hd).
    set (tag := map ToUint8 (iv ++ key)).
    rewrite length_app.
    replace (length data + length tag - length tag)%nat with (length data)
      by lia.
    rewrite skipn_app, skipn_all, Nat.sub_diag. cbn [skipn app].
    rewrite string_eqb_refl, andb_true_r.
    replace (length tag <=? length data + length tag)%nat with true
      by (symmetry; apply Nat.leb_le; lia).
    rewrite firstn_app, firstn_all, Nat.sub_diag. cbn [firstn].
    now rewrite app_nil_r.
  - intros keyData. cbn [importKey_AES_GCM exportKey_raw tag_crypto].
    now rewrite !(map_ToUint8_id (map ToUint8 keyData))
      by apply map_ToUint8_bytes.
Qed.

End StandIn.

Section Metadata.

Import Unicode JSON Values Encryptor.

Lemma Get_hasPassword (m : Metadata) :
  Get (metadata_value m) (units "hasPassword")
  = Return (Some (JBool (hasPassword m))).
Proof. reflexivity. Qed.

Lemma Get_key (m : Metadata) :
  Get (metadata_value m) (units "key")
  = Return (Some match key m with
                 | Some keyData => JArray (map (fun b => JNumber (num b)) keyData)
                 | None => JNull
                 end).
Proof. reflexivity. Qed.

Lemma Get_mimeType (m : Metadata) :
  Get (metadata_value m) (units "mimeType")
  = Return (Some (JString (mimeType m))).
Proof. reflexivity. Qed.

Lemma Get_filename (m : Metadata) :
  Get (metadata_value m) (units "filename")
  = Return (Some (JString (filename m))).
Proof. reflexivity. Qed.

Lemma byte_of_number_byte (b : Z) :
  is_byte b -> byte_of_number (JNumber (num b)) = Some b.
Proof.
  intros Hb. unfold byte_of_number, num. rewrite Qfloor_Z.
  rewrite (proj2 (Qeq_bool_iff _ _) (Qeq_refl _)).
  unfold is_safe_integerb. unfold is_byte in Hb.
  destruct (Z.leb_spec (- (2 ^ 53 - 1)) b); [|lia].
  destruct (Z.leb_spec b (2 ^ 53 - 1)); [|lia].
  cbn [andb]. now rewrite ToUint8_byte.
Qed.

Lemma Uint8Array_from_bytes (keyData : list Z) :
  Forall is_byte keyData ->
  Uint8Array_from (JArray (map (fun b => JNumber (num b)) keyData))
  = Some keyData.
Proof.
  unfold Uint8Array_from.
  induction 1 as [|b l Hb _ IH]; [reflexivity|].
  cbn [map bytes_of_numbers]. now rewrite byte_of_number_byte, IH.
Qed.

End Metadata.

Section DecryptKeys.

Import Unicode JSON Values Encryptor.

Context `{SubtleDecrypt}.

(** X13. What [Decryptor.prepareKey] does before it reaches the import of
    an embedded key: a [TypeError] on a [null] record; 'Password required
    for this file' when [hasPassword] is truthy and no password is given,
    whatever the record holds besides; with [hasPassword] truthy and a
    password given the key is derived from password and salt, and [key] is
    not looked at; 'Invalid file format: missing key data' when
    [hasPassword] is falsy or absent and so is [key], whatever the
    password; on a record that is no object (a number, a string, an array)
    always the latter. *)
Theorem prepareKey_errors (metadata : value) (password : option (list Z))
  (salt : list Z) :
  (metadata = JNull ->
   Decryption.prepareKey metadata password salt = Some (Raise TypeError))
  /\ (forall members,
        metadata = JObject members ->
        ToBoolean (lookup members (units "hasPassword")) = true ->
        Handlers.no_password password = true ->
        Decryption.prepareKey metadata password salt
        = Some (Raise (Err PasswordRequired)))
  /\ (forall members c pw,
        metadata = JObject members ->
        ToBoolean (lookup members (units "hasPassword")) = true ->
        password = Some (c :: pw) ->
        Decryption.prepareKey metadata password salt
        = Some (Return (deriveKey_PBKDF2 salt 100000
                          (importKey_PBKDF2 (TextEncoder_encode (c :: pw))))))
  /\ (forall members,
        metadata = JObject members ->
        ToBoolean (lookup members (units "hasPassword")) = false ->
        ToBoolean (lookup members (units "key")) = false ->
        Decryption.prepareKey metadata password salt
        = Some (Raise (Err MissingKeyData)))
  /\ (metadata <> JNull -> (forall members, metadata <> JObject members) ->
      Decryption.prepareKey metadata password salt
      = Some (Raise (Err MissingKeyData))).
Proof.
  split; [|split; [|split; [|split]]].
  - intros ->. reflexivity.
  - intros members -> Hp Hn. unfold Decryption.prepareKey. cbn [Get].
    rewrite Hp. destruct password as [[|c pw]|]; try reflexivity.
    discriminate Hn.
  - intros members c pw -> Hp ->. unfold Decryption.prepareKey. cbn [Get].
    rewrite Hp, deriveKey_returns. reflexivity.
  - intros members -> Hp Hk. unfold Decryption.prepareKey. cbn [Get].
    rewrite Hp, Hk. reflexivity.
  - intros Hn Ho. destruct metadata; try reflexivity.
    + contradiction.
    + exfalso. eapply Ho. reflexivity.
Qed.

End DecryptKeys.

(** ** An encryption run, decrypted *)

Section Runs.

Import Unicode JSON Values Encryptor ChunkedFileReader.

Context `{CryptoLaws}.

Lemma encrypt_chunks_data (chunks : list Chunk) (key : CryptoKey)
  (iv : list Z) :
  snd (Main.encrypt_chunks chunks key iv)
  = map (fun chunk => encrypt_AES_GCM iv key (data chunk)) chunks.
Proof.
  induction chunks as [|chunk rest IH]; [reflexivity|].
  cbn [Main.encrypt_chunks map]. unfold encryptChunk.
  destruct (Main.encrypt_chunks rest key iv) as [seals encryptedChunks].
  cbn [snd] in *. now rewrite IH.
Qed.

(** The MIME type a run records. *)
Lemma mime_code_units (t : list Z) :
  Forall is_code_unit t ->
  Forall is_code_unit
    match t with
    | [] => units "application/octet-stream"
    | c :: rest => c :: rest
    end.
Proof. intros Ht. destruct t; [apply units_code_units | exact Ht]. Qed.

(** What a run of [handleEncryption] returns. *)
Lemma run_blob (r : Randomness) (now : Z) (encryptFile : File)
  (usePassword : bool) (passwordValue : list Z) (out : Main.Encrypted) :
  Main.handleEncryption r now encryptFile usePassword passwordValue
  = Some (Ok out) ->
  let chunks := readChunks (constructor encryptFile) in
  exists key keyData,
    Encryptor.prepareKey r (if usePassword then Some passwordValue else None)
      (random_salt r) = Ok (key, keyData)
    /\ (usePassword = true -> passwordValue <> [])
    /\ Main.seals out
       = map (fun chunk =>
                {| seal_iv := random_iv r; seal_key := key;
                   seal_data := data chunk |}) chunks
    /\ Main.encryptedBlob out
       = random_salt r ++ random_iv r
           ++ concat (map (fun chunk =>
                             encrypt_AES_GCM (random_iv r) key (data chunk))
                          chunks)
           ++ serializeMetadata
                (createMetadata now (name encryptFile)
                   match type encryptFile with
                   | [] => units "application/octet-stream"
                   | t => t
                   end
                   usePassword (len chunks) keyData).
Proof.
  intros Hrun chunks. unfold Main.handleEncryption in Hrun.
  destruct (usePassword && (len passwordValue =? 0)) eqn:Hguard;
    [discriminate|].
  unfold KeyManager.generateSalt, KeyManager.generateIV in Hrun.
  destruct (Encryptor.prepareKey r _ _) as [[key keyData]|e] eqn:Hk;
    [|discriminate].
  pose proof (encrypt_chunks_seals chunks key (random_iv r)) as Hs.
  pose proof (encrypt_chunks_data chunks key (random_iv r)) as Hd.
  fold chunks in Hrun.
  destruct (Main.encrypt_chunks chunks key (random_iv r))
    as [seals encryptedChunks].
  cbn [fst snd] in Hs, Hd. subst seals encryptedChunks.
  injection Hrun as <-. cbn [Main.seals Main.encryptedBlob].
  exists key, keyData. split; [reflexivity|]. split; [|split].
  - intros -> ->. discriminate Hguard.
  - reflexivity.
  - rewrite build_layout. unfold len. now rewrite length_map.
Qed.

(** The two sides prepare the same key. *)
Lemma prepared_keys (r : Randomness) (now : Z) (filename mimeType : list Z)
  (usePassword : bool) (passwordValue passwordField salt : list Z)
  (n : Z) (key : CryptoKey) (keyData : option (list Z)) :
  Encryptor.prepareKey r (if usePassword then Some passwordValue else None)
    salt = Ok (key, keyData) ->
  (usePassword = true -> passwordValue <> []) ->
  (usePassword = true -> passwordField = passwordValue) ->
  keyData = (if usePassword then None else Some (exportKey_raw key))
  /\ Decryption.prepareKey
       (metadata_value
          (createMetadata now filename mimeType usePassword n keyData))
       (Handlers.password_or_null passwordField) salt
     = Some (Return key).
Proof.
  intros Hk Hne Hsame. unfold Decryption.prepareKey.
  rewrite Get_hasPassword, Get_key.
  cbn [createMetadata Encryptor.hasPassword Encryptor.key].
  destruct usePassword; cbn [ToBoolean].
  - rewrite (Hsame eq_refl).
    destruct passwordValue as [|c pw]; [now destruct (Hne eq_refl)|].
    cbn [Encryptor.prepareKey Handlers.password_or_null] in *.
    rewrite deriveKey_returns in *. injection Hk as <- <-.
    split; reflexivity.
  - cbn [Encryptor.prepareKey] in Hk. injection Hk as <- <-.
    split; [reflexivity|]. cbn [ToBoolean negb].
    rewrite Uint8Array_from_bytes by apply export_bytes.
    unfold KeyManager.importKey, KeyManager.exportKey,
      KeyManager.generateRandomKey.
    now rewrite import_export.
Qed.

Lemma createMetadata_wf (now : Z) (filename mimeType : list Z)
  (usePassword : bool) (n : Z) (keyData : option (list Z)) :
  Forall is_code_unit filename -> Forall is_code_unit mimeType ->
  is_safe_integer n -> is_safe_integer now ->
  match keyData with
  | Some k => Forall is_byte k
  | None => True
  end ->
  wf_metadata (createMetadata now filename mimeType usePassword n keyData).
Proof.
  intros Hf Hm Hn Ht Hk. unfold wf_metadata, createMetadata.
  cbn [version Encryptor.filename Encryptor.mimeType chunksCount timestamp
       Encryptor.key].
  repeat split; try assumption; try apply Hn; try apply Ht.
  apply units_code_units.
Qed.

Lemma accepted_chunks_safe (f : File) :
  FileValidator.valid (FileValidator.validateForEncryption (Some f)) = true ->
  is_safe_integer (len (readChunks (constructor f))).
Proof.
  intros Hv. rewrite chunk_arithmetic_length.
  pose proof (total_chunks_nonneg f) as Hnn. rewrite <- total_chunks in Hnn.
  revert Hv. unfold FileValidator.validateForEncryption,
    FileValidator.validateFileSize.
  cbn [FileValidator.validateFileExists FileValidator.valid negb].
  destruct (Z.gtb_spec (size f) FileValidator.MAX_FILE_SIZE) as [Hs|Hs];
    cbn [FileValidator.valid negb]; [discriminate|]. intros _.
  unfold is_safe_integer. split; [lia|].
  rewrite total_chunks in *. unfold ceil_div in *.
  unfold FileValidator.MAX_FILE_SIZE in Hs. unfold CHUNK_SIZE in *.
  Z.div_mod_to_equations. lia.
Qed.

(** The container of a run, parsed. *)
Lemma run_parsed (r : Randomness) (now : Z) (encryptFile : File)
  (usePassword : bool) (passwordValue : list Z) (out : Main.Encrypted) :
  Main.handleEncryption r now encryptFile usePassword passwordValue
  = Some (Ok out) ->
  len (random_salt r) = 16 -> len (random_iv r) = 12 ->
  Forall is_code_unit (name encryptFile) ->
  Forall is_code_unit (type encryptFile) ->
  is_safe_integer now ->
  is_safe_integer (len (readChunks (constructor encryptFile))) ->
  len (Main.encryptedBlob out) < 2 ^ 32 ->
  let chunks := readChunks (constructor encryptFile) in
  exists key,
    Encryptor.prepareKey r (if usePassword then Some passwordValue else None)
      (random_salt r)
    = Ok (key, if usePassword then None else Some (exportKey_raw key))
    /\ (usePassword = true -> passwordValue <> [])
    /\ Main.seals out
       = map (fun chunk =>
                {| seal_iv := random_iv r; seal_key := key;
                   seal_data := data chunk |}) chunks
    /\ (let m :=
          createMetadata now (name encryptFile)
            match type encryptFile with
            | [] => units "application/octet-stream"
            | t => t
            end
            usePassword (len chunks)
            (if usePassword then None else Some (exportKey_raw key)) in
        let encryptedData :=
          concat (map (fun chunk =>
                         encrypt_AES_GCM (random_iv r) key (data chunk))
                      chunks) in
        Main.encryptedBlob out
        = random_salt r ++ random_iv r ++ encryptedData
            ++ serializeMetadata m
        /\ Decryptor.parseEncryptedFile (Main.encryptedBlob out)
           = Ok {| Decryptor.salt := random_salt r;
                   Decryptor.iv := random_iv r;
                   Decryptor.encryptedData := encryptedData;
                   Decryptor.metadata := metadata_value m |}).
Proof.
  intros Hrun Hsalt Hiv Hname Htype Hnow Hcount Hsize chunks.
  destruct (run_blob _ _ _ _ _ _ Hrun) as (key & keyData & Hk & Hne & Hs & Hb).
  fold chunks in Hs, Hb.
  destruct (prepared_keys r now [] [] usePassword passwordValue passwordValue
              (random_salt r) 0 key keyData Hk Hne (fun _ => eq_refl))
    as [Hkd _].
  subst keyData. exists key.
  split; [exact Hk|]. split; [exact Hne|]. split; [exact Hs|].
  set (m := createMetadata _ _ _ _ _ _) in *.
  assert (Hwf : wf_metadata m).
  { apply createMetadata_wf; try assumption.
    - now apply mime_code_units.
    - destruct usePassword; [exact I | apply export_bytes]. }
  pose proof (encode_stringify_nonempty m) as Hpos.
  assert (Hlt : len (TextEncoder_encode (JSON_stringify m)) < 2 ^ 32).
  { rewrite Hb in Hsize. unfold serializeMetadata in Hsize.
    rewrite !len_app in Hsize.
    pose proof (len_nonneg (concat (map (fun chunk =>
                  encrypt_AES_GCM (random_iv r) key (data chunk)) chunks))).
    pose proof (len_nonneg (setUint32_le
                  (len (TextEncoder_encode (JSON_stringify m))))).
    lia. }
  cbv zeta. split; [exact Hb|]. rewrite Hb. unfold serializeMetadata.
  rewrite parse_layout by (assumption || lia).
  rewrite decode_encode_stringify, parse_JSON_stringify by assumption.
  reflexivity.
Qed.

(** [handleDecryption] on the container of a run: one call of
    [decryptChunk], on all the encrypted chunks put end to end. *)
Lemma decrypt_run (r : Randomness) (now : Z) (encryptFile : File)
  (usePassword : bool) (passwordValue passwordField : list Z)
  (out : Main.Encrypted) (downloaded : list Z) (t : list Z) :
  Main.handleEncryption r now encryptFile usePassword passwordValue
  = Some (Ok out) ->
  (usePassword = true -> passwordField = passwordValue) ->
  len (random_salt r) = 16 -> len (random_iv r) = 12 ->
  Forall is_code_unit (name encryptFile) ->
  Forall is_code_unit (type encryptFile) ->
  is_safe_integer now ->
  is_safe_integer (len (readChunks (constructor encryptFile))) ->
  len (Main.encryptedBlob out) < 2 ^ 32 ->
  let chunks := readChunks (constructor encryptFile) in
  let mimeType := match type encryptFile with
                  | [] => units "application/octet-stream"
                  | t => t
                  end in
  exists key,
    Main.seals out
    = map (fun chunk =>
             {| seal_iv := random_iv r; seal_key := key;
                seal_data := data chunk |}) chunks
    /\ Handlers.handleDecryption
         {| name := downloaded; type := t; bytes := Main.encryptedBlob out |}
         passwordField
       = Some
           (bind (Decryption.decryptChunk
                    (concat (map (fun chunk =>
                                    encrypt_AES_GCM (random_iv r) key
                                      (data chunk)) chunks))
                    key (random_iv r))
              (fun decryptedData =>
                 Return
                   {| Handlers.decryptedData := decryptedData;
                      Handlers.blobType := Some (JString mimeType);
                      Handlers.currentDecryptedFilename :=
                        Downloader.getDecryptedFilename downloaded
                          (Some (JString (name encryptFile)));
                      Handlers.view :=
                        if startsWith mimeType (units "image/")
                        then Handlers.ShowImage
                        else if startsWith mimeType (units "video/")
                        then Handlers.ShowVideo
                        else Handlers.Download |})).
Proof.
  intros Hrun Hsame Hsalt Hiv Hname Htype Hnow Hcount Hsize chunks mimeType.
  destruct (run_parsed _ _ _ _ _ _ Hrun Hsalt Hiv Hname Htype Hnow Hcount
              Hsize) as (key & Hk & Hne & Hs & _ & Hp).
  fold chunks mimeType in Hs, Hp.
  exists key. split; [exact Hs|].
  unfold Handlers.handleDecryption. cbn [bytes name]. rewrite Hp.
  cbn [Decryptor.salt Decryptor.iv Decryptor.encryptedData Decryptor.metadata].
  destruct (prepared_keys r now (name encryptFile) mimeType usePassword
              passwordValue passwordField (random_salt r) (len chunks) key _
              Hk Hne Hsame) as [_ Hd].
  rewrite Hd. rewrite Get_mimeType, Get_filename.
  cbn [createMetadata Encryptor.mimeType Encryptor.filename].
  destruct (Decryption.decryptChunk _ key (random_iv r)); reflexivity.
Qed.

End Runs.

Section RunClaims.

Import Unicode JSON Values Encryptor ChunkedFileReader.

Lemma single_chunk (f : File) :
  1 <= size f <= CHUNK_SIZE ->
  readChunks (constructor f) = [{| data := bytes f; index := 0 |}].
Proof.
  intros Hs. rewrite readChunks_list.
  assert (E : ceil_div (size f) CHUNK_SIZE = 1)
    by (unfold ceil_div, CHUNK_SIZE in *; Z.div_mod_to_equations; lia).
  rewrite E. change (Z.to_nat 1) with 1%nat. cbn [chunk_list].
  rewrite Z.add_0_l.
  rewrite Z.min_r by lia. unfold size. now rewrite slice_all.
Qed.

Lemma no_chunk (f : File) : size f = 0 -> readChunks (constructor f) = [].
Proof. intros Hs. rewrite readChunks_list, Hs. reflexivity. Qed.

Lemma decrypted_name (originalFilename : list Z) :
  Downloader.getDecryptedFilename
    (Downloader.getEncryptedFilename originalFilename)
    (Some (JString originalFilename))
  = JString originalFilename.
Proof.
  unfold Downloader.getDecryptedFilename.
  destruct originalFilename as [|c n] eqn:E; cbn [ToBoolean]; [|reflexivity].
  now rewrite replace_enc_encrypted.
Qed.

(** X14. Encryption and decryption are inverse on a file of one chunk (1
    byte to 10 MiB): [handleDecryption], given the container a run of
    [handleEncryption] produced under its download name, and the password
    of the run if there was one, returns the bytes, the name and the MIME
    type of the original file.  A password typed for a file encrypted
    without one is ignored. *)
Theorem decryption_round_trip `{CryptoLaws}
  (r : Randomness) (now : Z) (encryptFile decryptFile : File)
  (usePassword : bool) (passwordValue passwordField : list Z)
  (out : Main.Encrypted) :
  Main.handleEncryption r now encryptFile usePassword passwordValue
  = Some (Ok out) ->
  name decryptFile = Downloader.getEncryptedFilename (name encryptFile) ->
  bytes decryptFile = Main.encryptedBlob out ->
  (usePassword = true -> passwordField = passwordValue) ->
  1 <= size encryptFile <= CHUNK_SIZE ->
  Forall is_byte (bytes encryptFile) ->
  len (random_salt r) = 16 -> len (random_iv r) = 12 ->
  Forall is_code_unit (name encryptFile) ->
  Forall is_code_unit (type encryptFile) ->
  is_safe_integer now ->
  len (Main.encryptedBlob out) < 2 ^ 32 ->
  let mimeType := match type encryptFile with
                  | [] => units "application/octet-stream"
                  | t => t
                  end in
  Handlers.handleDecryption decryptFile passwordField
  = Some (Return
            {| Handlers.decryptedData := bytes encryptFile;
               Handlers.blobType := Some (JString mimeType);
               Handlers.currentDecryptedFilename := JString (name encryptFile);
               Handlers.view :=
                 if startsWith mimeType (units "image/")
                 then Handlers.ShowImage
                 else if startsWith mimeType (units "video/")
                 then Handlers.ShowVideo
                 else Handlers.Download |}).
Proof.
  intros Hrun Hname Hbytes Hsame Hsize Hb Hsalt Hiv Hn Ht Hnow Hlen mimeType.
  pose proof (single_chunk encryptFile Hsize) as Hc.
  assert (Hcount : is_safe_integer (len (readChunks (constructor encryptFile))))
    by (rewrite Hc; unfold is_safe_integer; cbn; lia).
  destruct (decrypt_run r now encryptFile usePassword passwordValue passwordField
              out (name decryptFile) (type decryptFile)
              Hrun Hsame Hsalt Hiv Hn Ht Hnow Hcount Hlen)
    as (key & _ & Hd).
  rewrite <- Hbytes in Hd. destruct decryptFile as [dn dt db].
  cbn [name type bytes] in *. rewrite Hd, Hc. cbn [map data concat].
  rewrite app_nil_r. unfold Decryption.decryptChunk.
  rewrite decrypt_encrypt by assumption. cbn [bind].
  rewrite Hname, decrypted_name. reflexivity.
Qed.

Lemma decryption_round_trip_witness :
  let run :=
    @Main.handleEncryption tag_crypto Main.some_randomness 1700000000000
      Main.small_file false [] in
  let out :=
    match run with
    | Some (Ok o) => o
    | _ => {| Main.seals := []; Main.encryptedBlob := [] |}
    end in
  @Handlers.handleDecryption tag_crypto tag_decrypt
    {| name := units "a.txt.enc"; type := [];
       bytes := Main.encryptedBlob out |} (units "ignored")
  = Some (Return
            {| Handlers.decryptedData := [104; 105; 33];
               Handlers.blobType := Some (JString (units "text/plain"));
               Handlers.currentDecryptedFilename := JString (units "a.txt");
               Handlers.view := Handlers.Download |}).
Proof.
  intros run out.
  apply (@decryption_round_trip tag_crypto tag_decrypt tag_laws
           Main.some_randomness 1700000000000 Main.small_file
           {| name := units "a.txt.enc"; type := [];
              bytes := Main.encryptedBlob out |}
           false [] (units "ignored") out).
  - vm_compute. reflexivity.
  - reflexivity.
  - reflexivity.
  - discriminate.
  - vm_compute. split; discriminate.
  - apply is_byteb_spec. reflexivity.
  - reflexivity.
  - reflexivity.
  - apply units_code_units.
  - apply units_code_units.
  - unfold is_safe_integer. lia.
  - vm_compute. reflexivity.
Defined.

(** X15. [handleDecryption] decrypts the whole encrypted region of a
    container in one call of [decryptChunk]: given the container of a run
    of [handleEncryption] on a file of any size, what it returns is the
    outcome of decrypting, under the key and the IV of the run, the
    encrypted chunks of the run put end to end. *)
Theorem decryption_is_one_call `{CryptoLaws}
  (r : Randomness) (now : Z) (encryptFile decryptFile : File)
  (usePassword : bool) (passwordValue passwordField : list Z)
  (out : Main.Encrypted) :
  Main.handleEncryption r now encryptFile usePassword passwordValue
  = Some (Ok out) ->
  bytes decryptFile = Main.encryptedBlob out ->
  (usePassword = true -> passwordField = passwordValue) ->
  FileValidator.valid (FileValidator.validateForEncryption (Some encryptFile))
  = true ->
  len (random_salt r) = 16 -> len (random_iv r) = 12 ->
  Forall is_code_unit (name encryptFile) ->
  Forall is_code_unit (type encryptFile) ->
  is_safe_integer now ->
  len (Main.encryptedBlob out) < 2 ^ 32 ->
  let mimeType := match type encryptFile with
                  | [] => units "application/octet-stream"
                  | t => t
                  end in
  let encryptedChunks :=
    map (fun seal =>
           encrypt_AES_GCM (seal_iv seal) (seal_key seal) (seal_data seal))
        (Main.seals out) in
  exists key,
    Forall (fun seal => seal_key seal = key) (Main.seals out)
    /\ Handlers.handleDecryption decryptFile passwordField
       = Some
           match decrypt_AES_GCM (random_iv r) key (concat encryptedChunks) with
           | None => Raise DecryptionFailed
           | Some decryptedData =>
               Return
                 {| Handlers.decryptedData := decryptedData;
                    Handlers.blobType := Some (JString mimeType);
                    Handlers.currentDecryptedFilename :=
                      Downloader.getDecryptedFilename (name decryptFile)
                        (Some (JString (name encryptFile)));
                    Handlers.view :=
                      if startsWith mimeType (units "image/")
                      then Handlers.ShowImage
                      else if startsWith mimeType (units "video/")
                      then Handlers.ShowVideo
                      else Handlers.Download |}
           end.
Proof.
  intros Hrun Hbytes Hsame Hvalid Hsalt Hiv Hn Ht Hnow Hlen mimeType
    encryptedChunks.
  pose proof (accepted_chunks_safe encryptFile Hvalid) as Hcount.
  destruct (decrypt_run r now encryptFile usePassword passwordValue passwordField
              out (name decryptFile) (type decryptFile)
              Hrun Hsame Hsalt Hiv Hn Ht Hnow Hcount Hlen)
    as (key & Hs & Hd).
  exists key. split.
  - rewrite Hs. apply Forall_forall. intros seal Hin.
    apply in_map_iff in Hin. destruct Hin as (chunk & <- & _). reflexivity.
  - rewrite <- Hbytes in Hd. destruct decryptFile as [dn dt db].
    cbn [name type bytes] in *. rewrite Hd.
    unfold encryptedChunks. rewrite Hs, map_map. cbn [seal_iv seal_key seal_data].
    unfold Decryption.decryptChunk.
    destruct (decrypt_AES_GCM _ key _); reflexivity.
Qed.

Lemma decryption_is_one_call_witness :
  let run :=
    @Main.handleEncryption tag_crypto Main.some_randomness 1700000000000
      Main.small_file true (units "pw") in
  let out :=
    match run with
    | Some (Ok o) => o
    | _ => {| Main.seals := []; Main.encryptedBlob := [] |}
    end in
  exists key,
    Forall (fun seal => @seal_key tag_crypto seal = key) (Main.seals out)
    /\ @Handlers.handleDecryption tag_crypto tag_decrypt
         {| name := units "download"; type := [];
            bytes := Main.encryptedBlob out |} (units "pw")
       = Some
           match @decrypt_AES_GCM tag_crypto tag_decrypt
                   (random_iv Main.some_randomness) key
                   (concat
                      (map (fun seal =>
                              @encrypt_AES_GCM tag_crypto (seal_iv seal)
                                (seal_key seal) (seal_data seal))
                           (Main.seals out))) with
           | None => Raise DecryptionFailed
           | Some decryptedData =>
               Return
                 {| Handlers.decryptedData := decryptedData;
                    Handlers.blobType := Some (JString (units "text/plain"));
                    Handlers.currentDecryptedFilename :=
                      JString (units "a.txt");
                    Handlers.view := Handlers.Download |}
           end.
Proof.
  intros run out.
  apply (@decryption_is_one_call tag_crypto tag_decrypt tag_laws
           Main.some_randomness 1700000000000 Main.small_file
           {| name := units "download"; type := [];
              bytes := Main.encryptedBlob out |}
           true (units "pw") (units "pw") out).
  - vm_compute. reflexivity.
  - reflexivity.
  - reflexivity.
  - reflexivity.
  - reflexivity.
  - reflexivity.
  - apply units_code_units.
  - apply units_code_units.
  - unfold is_safe_integer. lia.
  - vm_compute. reflexivity.
Defined.

(** X16. An empty file is encrypted without any call of [encryptChunk]:
    its container is the salt, the IV and the metadata, with an empty
    encrypted region and [chunksCount] 0. *)
Theorem empty_file_run `{CryptoLaws}
  (r : Randomness) (now : Z) (encryptFile : File)
  (usePassword : bool) (passwordValue : list Z) (out : Main.Encrypted) :
  Main.handleEncryption r now encryptFile usePassword passwordValue
  = Some (Ok out) ->
  size encryptFile = 0 ->
  len (random_salt r) = 16 -> len (random_iv r) = 12 ->
  Forall is_code_unit (name encryptFile) ->
  Forall is_code_unit (type encryptFile) ->
  is_safe_integer now ->
  len (Main.encryptedBlob out) < 2 ^ 32 ->
  Main.seals out = []
  /\ exists m,
       Main.encryptedBlob out
       = random_salt r ++ random_iv r ++ serializeMetadata m
       /\ chunksCount m = 0
       /\ Decryptor.parseEncryptedFile (Main.encryptedBlob out)
          = Ok {| Decryptor.salt := random_salt r;
                  Decryptor.iv := random_iv r;
                  Decryptor.encryptedData := [];
                  Decryptor.metadata := metadata_value m |}.
Proof.
  intros Hrun Hsize Hsalt Hiv Hn Ht Hnow Hlen.
  pose proof (no_chunk encryptFile Hsize) as Hc.
  assert (Hcount : is_safe_integer (len (readChunks (constructor encryptFile))))
    by (rewrite Hc; unfold is_safe_integer; cbn; lia).
  destruct (run_parsed _ _ _ _ _ _ Hrun Hsalt Hiv Hn Ht Hnow Hcount Hlen)
    as (key & _ & _ & Hs & Hb & Hp).
  rewrite Hc in Hs, Hb, Hp. cbn [map concat app] in Hs, Hb, Hp.
  split; [exact Hs|].
  eexists. split; [exact Hb|]. split; [reflexivity | exact Hp].
Qed.

Lemma empty_file_run_witness :
  let f := {| name := units "empty"; type := []; bytes := [] |} in
  let run :=
    @Main.handleEncryption tag_crypto Main.some_randomness 1700000000000
      f false [] in
  let out :=
    match run with
    | Some (Ok o) => o
    | _ => {| Main.seals := []; Main.encryptedBlob := [1] |}
    end in
  @Main.seals tag_crypto out = []
  /\ exists m,
       Main.encryptedBlob out
       = random_salt Main.some_randomness ++ random_iv Main.some_randomness
           ++ serializeMetadata m
       /\ chunksCount m = 0
       /\ Decryptor.parseEncryptedFile (Main.encryptedBlob out)
          = Ok {| Decryptor.salt := random_salt Main.some_randomness;
                  Decryptor.iv := random_iv Main.some_randomness;
                  Decryptor.encryptedData := [];
                  Decryptor.metadata := metadata_value m |}.
Proof.
  intros f run out.
  apply (@empty_file_run tag_crypto tag_decrypt tag_laws
           Main.some_randomness 1700000000000 f false [] out).
  - vm_compute. reflexivity.
  - reflexivity.
  - reflexivity.
  - reflexivity.
  - apply units_code_units.
  - constructor.
  - unfold is_safe_integer. lia.
  - vm_compute. reflexivity.
Defined.

(** X17. A container encrypted with a password is not decrypted without
    one: [handleDecryption] with an empty password field fails with
    'Password required for this file', and makes no call of
    [decryptChunk]. *)
Theorem decryption_requires_password `{CryptoLaws}
  (r : Randomness) (now : Z) (encryptFile decryptFile : File)
  (passwordValue : list Z) (out : Main.Encrypted) :
  Main.handleEncryption r now encryptFile true passwordValue
  = Some (Ok out) ->
  bytes decryptFile = Main.encryptedBlob out ->
  FileValidator.valid (FileValidator.validateForEncryption (Some encryptFile))
  = true ->
  len (random_salt r) = 16 -> len (random_iv r) = 12 ->
  Forall is_code_unit (name encryptFile) ->
  Forall is_code_unit (type encryptFile) ->
  is_safe_integer now ->
  len (Main.encryptedBlob out) < 2 ^ 32 ->
  Handlers.handleDecryption decryptFile []
  = Some (Raise (Err PasswordRequired)).
Proof.
  intros Hrun Hbytes Hvalid Hsalt Hiv Hn Ht Hnow Hlen.
  pose proof (accepted_chunks_safe encryptFile Hvalid) as Hcount.
  destruct (run_parsed _ _ _ _ _ _ Hrun Hsalt Hiv Hn Ht Hnow Hcount Hlen)
    as (key & _ & _ & _ & _ & Hp).
  unfold Handlers.handleDecryption. rewrite Hbytes, Hp.
  cbn [Decryptor.salt Decryptor.iv Decryptor.encryptedData Decryptor.metadata].
  unfold Decryption.prepareKey. rewrite Get_hasPassword. reflexivity.
Qed.

Lemma decryption_requires_password_witness :
  let run :=
    @Main.handleEncryption tag_crypto Main.some_randomness 1700000000000
      Main.small_file true (units "pw") in
  let out :=
    match run with
    | Some (Ok o) => o
    | _ => {| Main.seals := []; Main.encryptedBlob := [] |}
    end in
  @Handlers.handleDecryption tag_crypto tag_decrypt
    {| name := units "a.txt.enc"; type := [];
       bytes := Main.encryptedBlob out |} []
  = Some (Raise (Err PasswordRequired)).
Proof.
  intros run out.
  apply (@decryption_requires_password tag_crypto tag_decrypt tag_laws
           Main.some_randomness 1700000000000 Main.small_file
           {| name := units "a.txt.enc"; type := [];
              bytes := Main.encryptedBlob out |}
           (units "pw") out).
  - vm_compute. reflexivity.
  - reflexivity.
  - reflexivity.
  - reflexivity.
  - reflexivity.
  - apply units_code_units.
  - apply units_code_units.
  - unfold is_safe_integer. lia.
  - vm_compute. reflexivity.
Defined.

(** X18. The container of a run records the run: parsed, it gives back
    the salt and the IV drawn, the encrypted chunks end to end, and a
    metadata record with the name of the file, its MIME type
    ('application/octet-stream' when the file has none), the number of
    chunks, and the raw key exactly when no password was used; under a
    password it holds neither key nor password. *)
Theorem run_container `{CryptoLaws}
  (r : Randomness) (now : Z) (encryptFile : File)
  (usePassword : bool) (passwordValue : list Z) (out : Main.Encrypted) :
  Main.handleEncryption r now encryptFile usePassword passwordValue
  = Some (Ok out) ->
  FileValidator.valid (FileValidator.validateForEncryption (Some encryptFile))
  = true ->
  len (random_salt r) = 16 -> len (random_iv r) = 12 ->
  Forall is_code_unit (name encryptFile) ->
  Forall is_code_unit (type encryptFile) ->
  is_safe_integer now ->
  len (Main.encryptedBlob out) < 2 ^ 32 ->
  exists key,
    Forall (fun seal => seal_key seal = key) (Main.seals out)
    /\ Decryptor.parseEncryptedFile (Main.encryptedBlob out)
       = Ok {| Decryptor.salt := random_salt r;
               Decryptor.iv := random_iv r;
               Decryptor.encryptedData :=
                 concat (map (fun seal =>
                                encrypt_AES_GCM (seal_iv seal) (seal_key seal)
                                  (seal_data seal))
                             (Main.seals out));
               Decryptor.metadata :=
                 metadata_value
                   {| version := units "1.0";
                      filename := name encryptFile;
                      mimeType := match type encryptFile with
                                  | [] => units "application/octet-stream"
                                  | t => t
                                  end;
                      hasPassword := usePassword;
                      chunksCount := getTotalChunks (constructor encryptFile);
                      timestamp := now;
                      Encryptor.key :=
                        if usePassword then None
                        else Some (exportKey_raw key) |} |}.
Proof.
  intros Hrun Hvalid Hsalt Hiv Hn Ht Hnow Hlen.
  pose proof (accepted_chunks_safe encryptFile Hvalid) as Hcount.
  destruct (run_parsed _ _ _ _ _ _ Hrun Hsalt Hiv Hn Ht Hnow Hcount Hlen)
    as (key & _ & _ & Hs & _ & Hp).
  exists key. split.
  - rewrite Hs. apply Forall_forall. intros seal Hin.
    apply in_map_iff in Hin. destruct Hin as (chunk & <- & _). reflexivity.
  - rewrite Hp, Hs, map_map. cbn [seal_iv seal_key seal_data].
    rewrite chunk_arithmetic_length. reflexivity.
Qed.

Lemma run_container_witness :
  let run :=
    @Main.handleEncryption tag_crypto Main.some_randomness 1700000000000
      Main.small_file false [] in
  let out :=
    match run with
    | Some (Ok o) => o
    | _ => {| Main.seals := []; Main.encryptedBlob := [] |}
    end in
  exists key,
    Forall (fun seal => @seal_key tag_crypto seal = key) (Main.seals out)
    /\ Decryptor.parseEncryptedFile (Main.encryptedBlob out)
       = Ok {| Decryptor.salt := repeat 1 16;
               Decryptor.iv := repeat 2 12;
               Decryptor.encryptedData :=
                 concat (map (fun seal =>
                                @encrypt_AES_GCM tag_crypto (seal_iv seal)
                                  (seal_key seal) (seal_data seal))
                             (Main.seals out));
               Decryptor.metadata :=
                 metadata_value
                   {| version := units "1.0";
                      filename := units "a.txt";
                      mimeType := units "text/plain";
                      hasPassword := false;
                      chunksCount := 1;
                      timestamp := 1700000000000;
                      Encryptor.key :=
                        Some (@exportKey_raw tag_crypto key) |} |}.
Proof.
  intros run out.
  apply (@run_container tag_crypto tag_decrypt tag_laws
           Main.some_randomness 1700000000000 Main.small_file false [] out).
  - vm_compute. reflexivity.
  - reflexivity.
  - reflexivity.
  - reflexivity.
  - apply units_code_units.
  - apply units_code_units.
  - unfold is_safe_integer. lia.
  - vm_compute. reflexivity.
Defined.

End RunClaims.

(** ** More on the LSB codec *)

Section Reveal.

Import LSBEncoder BitStream Invariants.

Lemma Forall_set_nth {A : Type} (P : A -> Prop) (l : list A) (n : nat) (v : A) :
  Forall P l -> P v -> Forall P (set_nth l n v).
Proof.
  intros Hl Hv. revert n. induction Hl as [|x l Hx Hl IH]; intros [|n];
    cbn [set_nth]; constructor; auto.
Qed.

Lemma nth_set_nth_other {A : Type} (l : list A) (n k : nat) (v d : A) :
  n <> k -> nth k (set_nth l n v) d = nth k l d.
Proof.
  revert n k. induction l as [|x l IH]; intros [|n] [|k] Hnk;
    cbn [set_nth nth]; try reflexivity; try contradiction.
  apply IH. lia.
Qed.

Lemma store_length (buf : list Z) (idx v : Z) :
  length (Uint8Array_store buf idx v) = length buf.
Proof.
  unfold Uint8Array_store. destruct (idx <? 0); [reflexivity|].
  apply set_nth_length.
Qed.

Lemma store_bytes (buf : list Z) (idx v : Z) :
  Forall is_byte buf -> Forall is_byte (Uint8Array_store buf idx v).
Proof.
  intros Hb. unfold Uint8Array_store. destruct (idx <? 0); [exact Hb|].
  apply Forall_set_nth; [exact Hb | apply ToUint8_range].
Qed.

Lemma new_length (n : Z) : 0 <= n -> len (Uint8Array_new n) = n.
Proof.
  intros Hn. unfold len, Uint8Array_new. rewrite repeat_length. lia.
Qed.

Lemma new_bytes (n : Z) : Forall is_byte (Uint8Array_new n).
Proof.
  unfold Uint8Array_new. apply Forall_forall. intros x Hx.
  apply repeat_spec in Hx. subst. unfold is_byte. lia.
Qed.

(** The second pass never changes the size of its buffer, and stores
    bytes only. *)
Lemma read_step_buffer (dataLength : Z) (s : ReadState) (p : Z) :
  length (outputBuffer (read_step dataLength s p)) = length (outputBuffer s)
  /\ (Forall is_byte (outputBuffer s) ->
      Forall is_byte (outputBuffer (read_step dataLength s p))).
Proof.
  unfold read_step. cbn [read_channels].
  destruct (readingHeader s); [split; [reflexivity | trivial]|].
  destruct (outputIndex s >=? dataLength); [split; [reflexivity | trivial]|].
  destruct (rBitIndex s + 1 =? 8); cbn [outputBuffer].
  - split; [apply store_length | apply store_bytes].
  - split; [reflexivity | trivial].
Qed.

Lemma fold_read_buffer (dataLength : Z) (l : list Z) :
  forall s,
    length (outputBuffer (fold_left (read_step dataLength) l s))
    = length (outputBuffer s)
    /\ (Forall is_byte (outputBuffer s) ->
        Forall is_byte
          (outputBuffer (fold_left (read_step dataLength) l s))).
Proof.
  induction l as [|p l IH]; intros s; [split; [reflexivity | trivial]|].
  cbn [fold_left].
  destruct (IH (read_step dataLength s p)) as [I1 I2].
  destruct (read_step_buffer dataLength s p) as [S1 S2].
  split; [congruence | auto].
Qed.

Lemma header_step_inv (s : HeaderState) (p n : Z) :
  header_inv s n -> n < 32 -> header_inv (header_step s p) (n + 1).
Proof.
  intros (H1 & H2 & H3 & H4 & H5 & H6) Hn.
  rewrite header_step_eq by lia.
  destruct (Z.eqb_spec (hBitIndex s + 1) 8) as [E|E];
    unfold header_inv; cbn [byteIndex hBitIndex headerBytes].
  - repeat split; try lia.
    + now rewrite store_length.
    + now apply store_bytes.
    + intros Hb. unfold Uint8Array_store.
      destruct (Z.ltb_spec (byteIndex s) 0); [lia|].
      rewrite nth_set_nth_other by lia. apply H6. lia.
  - repeat split; try lia; assumption.
Qed.

Lemma fold_header_inv (bits : list Z) :
  forall s n,
    header_inv s n -> n + len bits < 32 ->
    header_inv (fold_left header_step bits s) (n + len bits).
Proof.
  induction bits as [|p bits IH]; intros s n Hs Hn.
  - change (len (@nil Z)) with 0. now rewrite Z.add_0_r.
  - rewrite len_cons in *. pose proof (len_nonneg bits).
    cbn [fold_left].
    replace (n + (1 + len bits)) with (n + 1 + len bits) by lia.
    apply IH; [apply header_step_inv; [assumption | lia] | lia].
Qed.

Lemma rgb_samples_count (pixels : list Z) :
  len (rgb_samples pixels) = 3 * (len pixels / 4).
Proof.
  induction pixels as [l Hl | r g b a rest IH] using pixel_ind.
  - assert (E : rgb_samples l = [])
      by (destruct l as [|r [|g [|b [|a rest]]]]; try reflexivity;
          cbn [length] in Hl; lia).
    rewrite E. change (len (@nil Z)) with 0.
    unfold len. rewrite Z.div_small; lia.
  - cbn [rgb_samples]. rewrite !len_cons, IH.
    pose proof (len_nonneg rest). Z.div_mod_to_equations. lia.
Qed.

(** X19. [reveal] on an image of fewer than 11 pixels, which cannot hold
    the 32 header bits, always throws 'No valid hidden data found or file
    corrupted.', whatever its samples. *)
Theorem reveal_needs_header (image : Image) :
  len (data image) < 44 -> reveal image = Throw NoValidHiddenData.
Proof.
  intros Hl. unfold reveal.
  set (s0 := {| headerBytes := Uint8Array_new 4; byteIndex := 0;
                hBitIndex := 0; hCurrentByte := 0 |}).
  rewrite header_pixels_fold.
  pose proof (rgb_samples_count (data image)) as Hr.
  pose proof (len_nonneg (data image)) as Hd.
  assert (H0 : header_inv s0 0).
  { unfold header_inv, s0. cbn [byteIndex hBitIndex headerBytes].
    repeat split; try lia. apply new_bytes. }
  assert (Hfew : 0 + len (rgb_samples (data image)) < 32)
    by (rewrite Hr; Z.div_mod_to_equations; lia).
  pose proof (fold_header_inv (rgb_samples (data image)) s0 0 H0 Hfew)
    as (H1 & H2 & H3 & H4 & H5 & H6).
  set (hb := headerBytes (fold_left header_step (rgb_samples (data image)) s0))
    in *.
  pose proof (len_nonneg (rgb_samples (data image))).
  specialize (H6 ltac:(lia)).
  destruct hb as [|b0 [|b1 [|b2 [|b3 [|b4 hb]]]]]; try discriminate H4.
  cbn [nth] in H6. subst b3.
  inversion H5 as [|? ? B0 H5a]; subst. inversion H5a as [|? ? B1 H5b]; subst.
  inversion H5b as [|? ? B2 _]; subst. unfold is_byte in *.
  unfold getUint32_be. cbn [nth].
  rewrite Qle_bool_div8.
  set (L := b0 * 2 ^ 24 + b1 * 2 ^ 16 + b2 * 2 ^ 8 + 0).
  destruct (Z.leb_spec L 0) as [|Hpos]; [reflexivity|]. cbn [orb].
  destruct (Z.leb_spec (8 * L) (len (data image) * 3)) as [Hle|];
    [|reflexivity].
  exfalso. unfold L in *. lia.
Qed.

Lemma reveal_needs_header_witness :
  reveal {| width := 5; height := 2; data := repeat 255 40 |}
  = Throw NoValidHiddenData.
Proof. apply reveal_needs_header. vm_compute. reflexivity. Defined.

(** X20. When [reveal] throws and what it returns, as the code has it:
    it throws exactly when the length its first pass reads is 0 or
    greater than [pixels.length * 3 / 8]; otherwise it returns a buffer of
    exactly that many bytes. *)
Theorem reveal_outcome (image : Image) :
  let pixels := data image in
  let declared :=
    getUint32_be
      (headerBytes
         (header_pixels pixels
            {| headerBytes := Uint8Array_new 4; byteIndex := 0;
               hBitIndex := 0; hCurrentByte := 0 |})) in
  (declared <= 0 \/ 3 * len pixels < 8 * declared ->
   reveal image = Throw NoValidHiddenData)
  /\ (1 <= declared -> 8 * declared <= 3 * len pixels ->
      exists out,
        reveal image = Ok out /\ len out = declared /\ Forall is_byte out).
Proof.
  intros pixels declared. unfold reveal. fold pixels. fold declared.
  rewrite Qle_bool_div8. split.
  - intros [Hd|Hd].
    + destruct (Z.leb_spec declared 0); [reflexivity | lia].
    + destruct (Z.leb_spec declared 0); [reflexivity|]. cbn [orb].
      destruct (Z.leb_spec (8 * declared) (len pixels * 3)); [lia|].
      reflexivity.
  - intros H1 H2.
    destruct (Z.leb_spec declared 0); [lia|]. cbn [orb].
    destruct (Z.leb_spec (8 * declared) (len pixels * 3)); [|lia].
    cbn [negb]. eexists. split; [reflexivity|].
    rewrite read_pixels_fold.
    match goal with
    | |- context [fold_left ?f ?l ?s] =>
        destruct (fold_read_buffer declared l s) as [I1 I2]
    end.
    cbn [outputBuffer] in I1, I2. split.
    + unfold len. rewrite I1. apply new_length. lia.
    + apply I2. apply new_bytes.
Qed.

End Reveal.

Section Hide.

Import LSBEncoder BitStream.

Lemma hide_wf (image : Image) (secretData pixels' : list Z) :
  wf_image image ->
  hide image secretData = (Ok tt, pixels') ->
  hasCapacity image (len secretData) = true
  /\ pixels' = embed (data image)
                 (bitstream (setUint32_be (len secretData) ++ secretData))
  /\ wf_image {| width := width image; height := height image;
                 data := pixels' |}.
Proof.
  intros (Hw & Hh & Hlen & Hbytes) Hhide.
  destruct (hasCapacity image (len secretData)) eqn:Hcap.
  - rewrite hide_success in Hhide by assumption.
    apply (f_equal snd) in Hhide. cbn [snd] in Hhide. subst pixels'.
    split; [reflexivity|]. split; [reflexivity|].
    unfold wf_image. cbn [width height data].
    repeat split; try assumption.
    + unfold len in *. now rewrite embed_length.
    + apply embed_bytes; [assumption | apply bitstream_bits].
  - rewrite hide_failure in Hhide by assumption. discriminate Hhide.
Qed.

(** An image in which the empty payload was hidden: the length [reveal]
    reads is 0. *)
Lemma reveal_embedded_empty (w h : Z) (pixels : list Z) :
  wf_image {| width := w; height := h; data := pixels |} ->
  0 <= (w * h * 3 - 32) / 8 ->
  reveal {| width := w; height := h;
            data := embed pixels (bitstream (setUint32_be 0 ++ [])) |}
  = Throw NoValidHiddenData.
Proof.
  intros (Hw & Hh & Hlen & Hbytes) Hcap. cbn [width height data] in *.
  assert (Hrgb : len (rgb_samples pixels) = 3 * (w * h))
    by (now apply rgb_samples_length).
  assert (Hbits : length (bitstream (setUint32_be 0 ++ [])) = 32%nat)
    by reflexivity.
  unfold reveal. cbn [data].
  rewrite header_pixels_fold, fold_header_lsb.
  fold (rgb_lsbs (embed pixels (bitstream (setUint32_be 0 ++ [])))).
  rewrite rgb_lsbs_embed.
  - rewrite app_nil_r, header_value by lia. reflexivity.
  - assumption.
  - apply bitstream_bits.
  - rewrite Hbits. unfold len in Hrgb.
    assert (32 <= w * h * 3) by (Z.div_mod_to_equations; lia). lia.
Qed.

(** X21. [hide] keeps an image well-formed, and a second [hide] overwrites
    the first: after [first] and then [second], bytes and fewer than
    [2^32] of them, were hidden in an image, [reveal] returns [second] when
    it is not empty, and throws 'No valid hidden data found or file
    corrupted.' when it is empty; [first] is found in neither case. *)
Theorem hide_again (image : Image) (first second pixels1 pixels2 : list Z) :
  wf_image image ->
  hide image first = (Ok tt, pixels1) ->
  let image1 := {| width := width image; height := height image;
                   data := pixels1 |} in
  hide image1 second = (Ok tt, pixels2) ->
  Forall is_byte second -> len second < 2 ^ 32 ->
  wf_image image1
  /\ wf_image {| width := width image; height := height image;
                 data := pixels2 |}
  /\ reveal {| width := width image; height := height image;
               data := pixels2 |}
     = match second with
       | [] => Throw NoValidHiddenData
       | _ :: _ => Ok second
       end.
Proof.
  intros Hwf H1 image1 H2 Hb Hl.
  destruct (hide_wf image first pixels1 Hwf H1) as (_ & _ & Hwf1).
  fold image1 in Hwf1.
  destruct (hide_wf image1 second pixels2 Hwf1 H2) as (Hcap & Hpx & Hwf2).
  cbn [width height image1] in Hwf2.
  split; [exact Hwf1|]. split; [exact Hwf2|]. subst pixels2.
  rewrite hasCapacity_spec, capacity_value in Hcap.
  cbn [width height data image1] in Hcap |- *.
  apply Z.leb_le in Hcap.
  destruct second as [|c rest].
  - apply reveal_embedded_empty; assumption.
  - pose proof (len_nonneg rest). rewrite len_cons in Hcap, Hl.
    apply reveal_embedded; try assumption; rewrite ?len_cons; lia.
Qed.

Lemma hide_again_witness :
  let image := {| width := 4; height := 4; data := repeat 254 64 |} in
  let pixels1 := snd (hide image [165; 66]) in
  let image1 := {| width := 4; height := 4; data := pixels1 |} in
  let pixels2 := snd (hide image1 [7]) in
  let pixels3 := snd (hide image1 []) in
  (wf_image image1
   /\ wf_image {| width := 4; height := 4; data := pixels2 |}
   /\ reveal {| width := 4; height := 4; data := pixels2 |} = Ok [7])
  /\ (wf_image image1
      /\ wf_image {| width := 4; height := 4; data := pixels3 |}
      /\ reveal {| width := 4; height := 4; data := pixels3 |}
         = Throw NoValidHiddenData).
Proof.
  intros image pixels1 image1 pixels2 pixels3. split.
  - apply (hide_again image [165; 66] [7] pixels1 pixels2).
    + apply wf_imageb_spec. reflexivity.
    + vm_compute. reflexivity.
    + vm_compute. reflexivity.
    + apply is_byteb_spec. reflexivity.
    + vm_compute. reflexivity.
  - apply (hide_again image [165; 66] [] pixels1 pixels3).
    + apply wf_imageb_spec. reflexivity.
    + vm_compute. reflexivity.
    + vm_compute. reflexivity.
    + constructor.
    + vm_compute. reflexivity.
Defined.

(** X22. The bit stream [hide] leaves in the least significant bits of the
    [R], [G], [B] samples, in raster order: the payload length as 32 bits,
    most significant first, then the payload bytes, each most significant
    bit first, then the bits the cover had there before. *)
Theorem hide_bit_stream (image : Image) (secretData pixels' : list Z) :
  wf_image image ->
  hide image secretData = (Ok tt, pixels') ->
  rgb_lsbs pixels'
  = bitstream (setUint32_be (len secretData)) ++ bitstream secretData
      ++ skipn (Z.to_nat (32 + 8 * len secretData)) (rgb_lsbs (data image)).
Proof.
  intros Hwf Hhide.
  destruct (hide_wf image secretData pixels' Hwf Hhide) as (Hcap & -> & _).
  destruct Hwf as (Hw & Hh & Hlen & Hbytes).
  rewrite hasCapacity_spec, capacity_value in Hcap.
  apply Z.leb_le in Hcap.
  pose proof (len_nonneg secretData) as Hn.
  assert (Hrgb : len (rgb_samples (data image))
                 = 3 * (width image * height image))
    by (now apply rgb_samples_length).
  assert (Hbits : length (bitstream (setUint32_be (len secretData)
                                       ++ secretData))
                  = Z.to_nat (32 + 8 * len secretData)).
  { rewrite bitstream_length, length_app, setUint32_be_length.
    unfold len. lia. }
  rewrite rgb_lsbs_embed.
  - rewrite Hbits, bitstream_app, <- app_assoc. reflexivity.
  - assumption.
  - apply bitstream_bits.
  - rewrite Hbits. unfold len in Hrgb.
    revert Hcap. Z.div_mod_to_equations. lia.
Qed.

Lemma hide_bit_stream_witness :
  let image := {| width := 4; height := 3; data := repeat 255 48 |} in
  rgb_lsbs (snd (hide image []))
  = bitstream (setUint32_be 0) ++ bitstream []
      ++ skipn 32 (rgb_lsbs (data image)).
Proof.
  intros image.
  apply (hide_bit_stream image [] (snd (hide image []))).
  - apply wf_imageb_spec. reflexivity.
  - vm_compute. reflexivity.
Defined.

End Hide.

(** ** Hiding and revealing an encrypted secret *)

Section Utf8Bytes.

Import Unicode.

Lemma lor_128 (v : Z) : 0 <= v < 64 -> Z.lor 128 v = 128 + v.
Proof.
  intros Hv.
  assert (Hc : check_range 6 0 (fun v => Z.lor 128 v =? 128 + v) = true)
    by (vm_compute; reflexivity).
  apply Z.eqb_eq. apply (check_range_spec 6 _ 0 Hc).
  change (2 ^ Z.of_nat 6) with 64. lia.
Qed.

Lemma continuation_byte (x : Z) : is_byte (Z.lor 128 (Z.land x 63)).
Proof.
  change 63 with (Z.ones 6). rewrite Z.land_ones by lia.
  pose proof (Z.mod_pos_bound x (2 ^ 6) ltac:(lia)) as Hm.
  change (2 ^ 6) with 64 in *. rewrite lor_128 by lia.
  unfold is_byte. lia.
Qed.

Lemma utf8_encode_bytes (cp : Z) :
  0 <= cp < 0x110000 -> Forall is_byte (utf8_encode cp).
Proof.
  intros Hcp. unfold utf8_encode.
  destruct (Z.leb_spec cp 0x7F).
  { repeat constructor; lia. }
  destruct (Z.leb_spec cp 0x7FF).
  { repeat (apply Forall_cons; [|]); try apply continuation_byte;
      [|constructor].
    rewrite Z.shiftr_div_pow2 by lia. change (2 ^ 6) with 64.
    unfold is_byte. Z.div_mod_to_equations. lia. }
  destruct (Z.leb_spec cp 0xFFFF).
  { repeat (apply Forall_cons; [|]); try apply continuation_byte;
      [|constructor].
    rewrite Z.shiftr_div_pow2 by lia. change (2 ^ 12) with 4096.
    unfold is_byte. Z.div_mod_to_equations. lia. }
  repeat (apply Forall_cons; [|]); try apply continuation_byte;
    [|constructor].
  rewrite Z.shiftr_div_pow2 by lia. change (2 ^ 18) with 262144.
  unfold is_byte. Z.div_mod_to_equations. lia.
Qed.

Lemma code_points_range (s : list Z) :
  Forall is_code_unit s ->
  Forall (fun cp => 0 <= cp < 0x110000) (StringToCodePoints s).
Proof.
  induction s as [| u | u v rest IH1 IH2] using units_ind; intros Hs.
  - constructor.
  - rewrite StringToCodePoints_one. inversion Hs; subst.
    unfold is_code_unit in *. repeat constructor; lia.
  - rewrite StringToCodePoints_cons2.
    inversion Hs as [|? ? Hu Hs1]; subst.
    inversion Hs1 as [|? ? Hv Hs2]; subst.
    unfold is_code_unit in Hu.
    destruct (is_leading u) eqn:El; [destruct (is_trailing v) eqn:Et|].
    + constructor; [|now apply IH2].
      pose proof (pair_bounds u v El Et). lia.
    + constructor; [lia | now apply IH1].
    + constructor; [lia | now apply IH1].
Qed.

Lemma TextEncoder_encode_bytes (s : list Z) :
  Forall is_code_unit s -> Forall is_byte (TextEncoder_encode s).
Proof.
  intros Hs. unfold TextEncoder_encode.
  apply code_points_range in Hs.
  induction Hs as [|cp cps Hcp _ IH]; [constructor|].
  cbn [map flat_map]. apply Forall_app. split; [|exact IH].
  apply utf8_encode_bytes. unfold to_scalar_value.
  destruct (is_surrogate cp); lia.
Qed.

End Utf8Bytes.

Section Hidden.

Import Unicode JSON Values Encryptor LSBEncoder BitStream.

Context `{CryptoLaws}.

(** A container built from a metadata record, parsed. *)
Lemma build_parsed (salt iv : list Z) (chunks : list (list Z)) (m : Metadata) :
  len salt = 16 -> len iv = 12 -> wf_metadata m ->
  len (TextEncoder_encode (JSON_stringify m)) < 2 ^ 32 ->
  Decryptor.parseEncryptedFile
    (buildEncryptedFile salt iv chunks (serializeMetadata m))
  = Ok {| Decryptor.salt := salt; Decryptor.iv := iv;
          Decryptor.encryptedData := concat chunks;
          Decryptor.metadata := metadata_value m |}.
Proof.
  intros Hsalt Hiv Hm Hlt.
  pose proof (encode_stringify_nonempty m) as Hpos.
  rewrite build_layout. unfold serializeMetadata.
  rewrite parse_layout by (assumption || lia).
  rewrite decode_encode_stringify, parse_JSON_stringify by assumption.
  reflexivity.
Qed.

Lemma setUint32_le_bytes (v : Z) : Forall is_byte (setUint32_le v).
Proof. unfold setUint32_le. apply Forall_rev. apply setUint32_be_bytes. Qed.

Lemma prepare_secret_wf (secret : Handlers.Secret)
  (dataToEncrypt filename mimeType : list Z) :
  Handlers.wf_secret secret ->
  Handlers.prepare_secret secret = Some (dataToEncrypt, filename, mimeType) ->
  Forall is_byte dataToEncrypt /\ Forall is_code_unit filename
  /\ Forall is_code_unit mimeType.
Proof.
  destruct secret as [[f|]|text]; cbn [Handlers.wf_secret Handlers.prepare_secret].
  - intros (Hb & Hn & Ht) E. injection E as <- <- <-.
    repeat split; try assumption. now apply mime_code_units.
  - discriminate.
  - intros Ht E. destruct text as [|c text]; [discriminate|].
    injection E as <- <- <-.
    split; [now apply TextEncoder_encode_bytes|].
    split; apply units_code_units.
Qed.

(** What the reveal handler finds in an image the hide handler made. *)
Lemma hidden_container (r : Randomness) (now : Z) (cover : Image)
  (secret : Handlers.Secret) (usePassword : bool) (passwordValue : list Z)
  (pixels : list Z) :
  Handlers.stegoHide r now cover secret usePassword passwordValue
  = Some (Ok pixels) ->
  wf_image cover -> getMaxCapacity cover < 2 ^ 32 ->
  Handlers.wf_secret secret ->
  len (random_salt r) = 16 -> len (random_iv r) = 12 ->
  Forall is_byte (random_salt r) -> Forall is_byte (random_iv r) ->
  is_safe_integer now ->
  exists dataToEncrypt filename mimeType key container,
    Handlers.prepare_secret secret = Some (dataToEncrypt, filename, mimeType)
    /\ Forall is_byte dataToEncrypt
    /\ Encryptor.prepareKey r
         (if usePassword then Some passwordValue else None) (random_salt r)
       = Ok (key, if usePassword then None else Some (exportKey_raw key))
    /\ (usePassword = true -> passwordValue <> [])
    /\ reveal {| width := width cover; height := height cover;
                 data := pixels |} = Ok container
    /\ Decryptor.parseEncryptedFile container
       = Ok {| Decryptor.salt := random_salt r;
               Decryptor.iv := random_iv r;
               Decryptor.encryptedData :=
                 encrypt_AES_GCM (random_iv r) key dataToEncrypt;
               Decryptor.metadata :=
                 metadata_value
                   (createMetadata now filename mimeType usePassword 1
                      (if usePassword then None
                       else Some (exportKey_raw key))) |}.
Proof.
  intros Hhide Hwf Hcap Hsec Hsalt Hiv Hsb Hivb Hnow.
  unfold Handlers.stegoHide in Hhide.
  destruct (Handlers.prepare_secret secret) as [[[d fn] mt]|] eqn:Eprep;
    [|discriminate].
  destruct (prepare_secret_wf secret d fn mt Hsec Eprep) as (Hd & Hfn & Hmt).
  destruct (usePassword && Handlers.no_password _) eqn:Hguard; [discriminate|].
  unfold KeyManager.generateSalt, KeyManager.generateIV in Hhide.
  destruct (Encryptor.prepareKey r _ _) as [[key keyData]|e] eqn:Hk;
    [|discriminate].
  assert (Hne : usePassword = true -> passwordValue <> []).
  { intros -> ->. discriminate Hguard. }
  destruct (prepared_keys r now [] [] usePassword passwordValue passwordValue
              (random_salt r) 0 key keyData Hk Hne (fun _ => eq_refl))
    as [Hkd _].
  subst keyData.
  unfold encryptChunk in Hhide. cbn [snd] in Hhide.
  set (m := createMetadata now fn mt usePassword 1 _) in *.
  set (c := encrypt_AES_GCM (random_iv r) key d) in *.
  set (container := buildEncryptedFile (random_salt r) (random_iv r) [c]
                      (serializeMetadata m)) in *.
  assert (Hwfm : wf_metadata m).
  { apply createMetadata_wf; try assumption.
    - unfold is_safe_integer. lia.
    - destruct usePassword; [exact I | apply export_bytes]. }
  assert (Hlayout : container
                    = random_salt r ++ random_iv r ++ c
                        ++ TextEncoder_encode (JSON_stringify m)
                        ++ setUint32_le
                             (len (TextEncoder_encode (JSON_stringify m)))).
  { unfold container. rewrite build_layout. cbn [concat].
    now rewrite app_nil_r. }
  assert (Hcb : Forall is_byte container).
  { rewrite Hlayout.
    apply Forall_app; split; [assumption|].
    apply Forall_app; split; [assumption|].
    apply Forall_app; split; [apply encrypt_bytes|].
    apply Forall_app; split; [|apply setUint32_le_bytes].
    apply TextEncoder_encode_bytes. apply (clean_stringify m Hwfm). }
  destruct (hide cover container) as [[[]|e] px] eqn:Ehide;
    [|discriminate].
  injection Hhide as ->.
  destruct (hide_wf cover container pixels Hwf Ehide) as (Hfit & -> & _).
  rewrite hasCapacity_spec in Hfit. apply Z.leb_le in Hfit.
  assert (Hlen : 16 <= len container).
  { rewrite Hlayout, !len_app, Hsalt.
    pose proof (len_nonneg (random_iv r)). pose proof (len_nonneg c).
    pose proof (len_nonneg (TextEncoder_encode (JSON_stringify m))).
    pose proof (len_nonneg (setUint32_le
                              (len (TextEncoder_encode (JSON_stringify m))))).
    lia. }
  assert (Hmlen : len (TextEncoder_encode (JSON_stringify m)) < 2 ^ 32).
  { rewrite Hlayout, !len_app in Hfit.
    pose proof (len_nonneg (random_salt r)).
    pose proof (len_nonneg (random_iv r)). pose proof (len_nonneg c).
    pose proof (len_nonneg (setUint32_le
                              (len (TextEncoder_encode (JSON_stringify m))))).
    lia. }
  exists d, fn, mt, key, container.
  split; [reflexivity|]. split; [exact Hd|]. split; [reflexivity|].
  split; [exact Hne|]. split.
  - destruct cover as [w h px0]. cbn [width height data] in *.
    apply reveal_embedded; try assumption.
    + rewrite capacity_value in Hfit. cbn [width height] in Hfit. lia.
    + lia.
  - unfold container. rewrite build_parsed by assumption.
    cbn [concat]. now rewrite app_nil_r.
Qed.

End Hidden.

Section HiddenClaims.

Import Unicode JSON Values Encryptor LSBEncoder BitStream.

(** X23. Hiding and revealing are inverse: the reveal handler, run on an
    image holding the samples the hide handler produced, and given the
    password of the hiding if there was one, returns the secret (the bytes
    of the file, or the UTF-8 encoding of the text) under the name and the
    MIME type the hide handler gave it. *)
Theorem hidden_secret_revealed `{CryptoLaws}
  (r : Randomness) (now : Z) (cover : Image) (secret : Handlers.Secret)
  (usePassword : bool) (passwordValue passwordField : list Z)
  (pixels : list Z) :
  Handlers.stegoHide r now cover secret usePassword passwordValue
  = Some (Ok pixels) ->
  (usePassword = true -> passwordField = passwordValue) ->
  wf_image cover -> getMaxCapacity cover < 2 ^ 32 ->
  Handlers.wf_secret secret ->
  len (random_salt r) = 16 -> len (random_iv r) = 12 ->
  Forall is_byte (random_salt r) -> Forall is_byte (random_iv r) ->
  is_safe_integer now ->
  exists dataToEncrypt filename mimeType,
    Handlers.prepare_secret secret = Some (dataToEncrypt, filename, mimeType)
    /\ Handlers.stegoReveal
         {| width := width cover; height := height cover; data := pixels |}
         passwordField
       = Some (Return
                 {| Handlers.revealedData := dataToEncrypt;
                    Handlers.revealedType := Some (JString mimeType);
                    Handlers.revealedFilename := Some (JString filename) |}).
Proof.
  intros Hhide Hsame Hwf Hcap Hsec Hsalt Hiv Hsb Hivb Hnow.
  destruct (hidden_container r now cover secret usePassword passwordValue
              pixels Hhide Hwf Hcap Hsec Hsalt Hiv Hsb Hivb Hnow)
    as (d & fn & mt & key & container & Hprep & Hd & Hk & Hne & Hrev & Hparse).
  exists d, fn, mt. split; [exact Hprep|].
  unfold Handlers.stegoReveal. rewrite Hrev, Hparse.
  cbn [Decryptor.salt Decryptor.iv Decryptor.encryptedData Decryptor.metadata].
  rewrite Get_hasPassword. cbn [createMetadata Encryptor.hasPassword ToBoolean].
  destruct (prepared_keys r now fn mt usePassword passwordValue passwordField
              (random_salt r) 1 key _ Hk Hne Hsame) as [_ Hkey].
  assert (Hguard : usePassword
                   && Handlers.no_password
                        (Handlers.password_or_null passwordField) = false).
  { destruct usePassword; [|reflexivity].
    rewrite (Hsame eq_refl). specialize (Hne eq_refl).
    destruct passwordValue; [contradiction | reflexivity]. }
  rewrite Hguard, Hkey. unfold Decryption.decryptChunk.
  rewrite decrypt_encrypt by assumption. cbn [bind].
  rewrite Get_mimeType, Get_filename. reflexivity.
Qed.

Lemma hidden_secret_revealed_witness :
  let cover := {| width := 24; height := 24; data := repeat 200 2304 |} in
  let hidden :=
    @Handlers.stegoHide tag_crypto Main.some_randomness 1700000000000 cover
      (Handlers.SecretText (units "hi")) true (units "pw") in
  let pixels := match hidden with Some (Ok px) => px | _ => [] end in
  exists dataToEncrypt filename mimeType,
    Handlers.prepare_secret (Handlers.SecretText (units "hi"))
    = Some (dataToEncrypt, filename, mimeType)
    /\ @Handlers.stegoReveal tag_crypto tag_decrypt
         {| width := 24; height := 24; data := pixels |} (units "pw")
       = Some (Return
                 {| Handlers.revealedData := dataToEncrypt;
                    Handlers.revealedType := Some (JString mimeType);
                    Handlers.revealedFilename := Some (JString filename) |}).
Proof.
  intros cover hidden pixels.
  apply (@hidden_secret_revealed tag_crypto tag_decrypt tag_laws
           Main.some_randomness 1700000000000 cover
           (Handlers.SecretText (units "hi")) true (units "pw") (units "pw")
           pixels).
  - vm_compute. reflexivity.
  - reflexivity.
  - apply wf_imageb_spec. vm_compute. reflexivity.
  - vm_compute. reflexivity.
  - apply units_code_units.
  - reflexivity.
  - reflexivity.
  - apply is_byteb_spec. reflexivity.
  - apply is_byteb_spec. reflexivity.
  - unfold is_safe_integer. lia.
Defined.

(** X24. A secret hidden under a password is not revealed without one:
    the reveal handler with an empty password field fails with 'Password
    required to decrypt hidden file.', before any key is prepared. *)
Theorem hidden_secret_requires_password `{CryptoLaws}
  (r : Randomness) (now : Z) (cover : Image) (secret : Handlers.Secret)
  (passwordValue : list Z) (pixels : list Z) :
  Handlers.stegoHide r now cover secret true passwordValue
  = Some (Ok pixels) ->
  wf_image cover -> getMaxCapacity cover < 2 ^ 32 ->
  Handlers.wf_secret secret ->
  len (random_salt r) = 16 -> len (random_iv r) = 12 ->
  Forall is_byte (random_salt r) -> Forall is_byte (random_iv r) ->
  is_safe_integer now ->
  Handlers.stegoReveal
    {| width := width cover; height := height cover; data := pixels |} []
  = Some (Raise HiddenPasswordRequired).
Proof.
  intros Hhide Hwf Hcap Hsec Hsalt Hiv Hsb Hivb Hnow.
  destruct (hidden_container r now cover secret true passwordValue
              pixels Hhide Hwf Hcap Hsec Hsalt Hiv Hsb Hivb Hnow)
    as (d & fn & mt & key & container & _ & _ & _ & _ & Hrev & Hparse).
  unfold Handlers.stegoReveal. rewrite Hrev, Hparse.
  cbn [Decryptor.salt Decryptor.iv Decryptor.encryptedData Decryptor.metadata].
  rewrite Get_hasPassword. reflexivity.
Qed.

Lemma hidden_secret_requires_password_witness :
  let cover := {| width := 24; height := 24; data := repeat 200 2304 |} in
  let hidden :=
    @Handlers.stegoHide tag_crypto Main.some_randomness 1700000000000 cover
      (Handlers.SecretFile (Some Main.small_file)) true (units "pw") in
  let pixels := match hidden with Some (Ok px) => px | _ => [] end in
  @Handlers.stegoReveal tag_crypto tag_decrypt
    {| width := 24; height := 24; data := pixels |} []
  = Some (Raise HiddenPasswordRequired).
Proof.
  intros cover hidden pixels.
  apply (@hidden_secret_requires_password tag_crypto tag_decrypt tag_laws
           Main.some_randomness 1700000000000 cover
           (Handlers.SecretFile (Some Main.small_file)) (units "pw") pixels).
  - vm_compute. reflexivity.
  - apply wf_imageb_spec. vm_compute. reflexivity.
  - vm_compute. reflexivity.
  - cbn [Handlers.wf_secret]. split; [apply is_byteb_spec; reflexivity|].
    split; apply units_code_units.
  - reflexivity.
  - reflexivity.
  - apply is_byteb_spec. reflexivity.
  - apply is_byteb_spec. reflexivity.
  - unfold is_safe_integer. lia.
Defined.

End HiddenClaims.

Section RevealFrame.

Import LSBEncoder BitStream.

(** X25. [reveal] reads nothing but the least significant bits of the
    [R], [G], [B] samples: two sample buffers of the same length that agree
    on these bits give the same outcome, whatever their alpha samples and
    their upper bits. *)
Theorem reveal_reads_lsbs (a b : Image) :
  len (data a) = len (data b) ->
  rgb_lsbs (data a) = rgb_lsbs (data b) ->
  reveal a = reveal b.
Proof.
  intros Hl Hb. unfold reveal.
  rewrite !header_pixels_fold, !read_pixels_fold.
  rewrite (fold_header_lsb (rgb_samples (data a))).
  rewrite (fold_header_lsb (rgb_samples (data b))).
  fold (rgb_lsbs (data a)). fold (rgb_lsbs (data b)). rewrite Hb, Hl.
  match goal with
  | |- (if ?c then _ else Ok (outputBuffer (fold_left ?f ?la ?s)))
       = (if ?c then _ else Ok (outputBuffer (fold_left ?f ?lb ?s))) =>
      rewrite (fold_read_lsb _ la s), (fold_read_lsb _ lb s)
  end.
  fold (rgb_lsbs (data a)). fold (rgb_lsbs (data b)). now rewrite Hb.
Qed.

Lemma reveal_reads_lsbs_witness :
  let stego := snd (hide {| width := 4; height := 4; data := repeat 254 64 |}
                      [165]) in
  reveal {| width := 4; height := 4; data := stego |}
  = reveal {| width := 2; height := 8;
              data := map (fun p => Z.land p 1) stego |}.
Proof.
  intros stego. apply reveal_reads_lsbs; vm_compute; reflexivity.
Defined.

End RevealFrame.

(** ** The blob URLs of the page *)

Section Urls.

Import JSON MemoryManager.

Lemma Set_has_In (s : list (list Z)) (url : list Z) :
  Set_has s url = true <-> In url s.
Proof.
  unfold Set_has. rewrite existsb_exists. split.
  - intros (x & Hx & E). apply string_eqb_eq in E. now subst.
  - intros Hin. exists url. split; [exact Hin | apply string_eqb_refl].
Qed.

Lemma count_url_app (url : list Z) (a b : list (list Z)) :
  count_url url (a ++ b) = (count_url url a + count_url url b)%nat.
Proof. unfold count_url. now rewrite filter_app, length_app. Qed.

Lemma count_url_absent (url : list Z) (l : list (list Z)) :
  ~ In url l -> count_url url l = 0%nat.
Proof.
  unfold count_url. induction l as [|x l IH]; intros Hn; [reflexivity|].
  cbn [filter]. destruct (string_eqb url x) eqn:E.
  - apply string_eqb_eq in E. subst. exfalso. apply Hn. now left.
  - apply IH. intros Hin. apply Hn. now right.
Qed.

Lemma count_url_delete (url u : list Z) (l : list (list Z)) :
  count_url url (Set_delete l u)
  = if string_eqb u url then 0%nat else count_url url l.
Proof.
  unfold count_url, Set_delete.
  induction l as [|x l IH]; [now destruct (string_eqb u url)|].
  cbn [filter]. destruct (string_eqb u x) eqn:Eux; cbn [negb].
  - rewrite IH. apply string_eqb_eq in Eux. subst x.
    destruct (string_eqb u url) eqn:E; [reflexivity|].
    destruct (string_eqb url u) eqn:E'; [|reflexivity].
    apply string_eqb_eq in E'. subst. rewrite string_eqb_refl in E.
    discriminate.
  - cbn [filter]. destruct (string_eqb url x) eqn:E; cbn [length]; rewrite IH.
    + apply string_eqb_eq in E. subst x. now rewrite Eux.
    + reflexivity.
Qed.

Lemma count_url_NoDup (url : list Z) (l : list (list Z)) :
  NoDup l -> (count_url url l <= 1)%nat.
Proof.
  induction 1 as [|x l Hx Hl IH]; [cbn; lia|].
  unfold count_url in *. cbn [filter].
  destruct (string_eqb url x) eqn:E; [|exact IH].
  apply string_eqb_eq in E. subst x. cbn [length].
  pose proof (count_url_absent url l Hx) as H0. unfold count_url in H0. lia.
Qed.

Lemma count_url_one (url : list Z) :
  count_url url [url] = 1%nat.
Proof. unfold count_url. cbn [filter]. now rewrite string_eqb_refl. Qed.

Lemma count_url_other (url u : list Z) :
  string_eqb url u = false -> count_url url [u] = 0%nat.
Proof. intros E. unfold count_url. cbn [filter]. now rewrite E. Qed.

Lemma call_invariant (m : MemoryManager.MemoryManager) (cs : list Call)
  (c : Call) :
  (NoDup (activeBlobUrls m)
   /\ forall url,
        (count_url url (revoked m) + count_url url (activeBlobUrls m)
         <= count_url url (created cs))%nat) ->
  NoDup (activeBlobUrls (call m c))
  /\ forall url,
       (count_url url (revoked (call m c))
        + count_url url (activeBlobUrls (call m c))
        <= count_url url (created (cs ++ [c])))%nat.
Proof.
  intros [Hnd Hcount]. unfold created. rewrite flat_map_app.
  fold (created cs). cbn [flat_map]. rewrite app_nil_r.
  destruct c as [u|u|]; cbn [call createBlobUrl fst].
  - cbn [activeBlobUrls revoked]. unfold Set_add.
    destruct (Set_has (activeBlobUrls m) u) eqn:Eh.
    + split; [exact Hnd|]. intros url. specialize (Hcount url).
      rewrite count_url_app. lia.
    + assert (Hn : ~ In u (activeBlobUrls m)).
      { intros Hin. apply Set_has_In in Hin. congruence. }
      split.
      * apply NoDup_app; [exact Hnd | repeat constructor; intros [] |].
        intros x Hx [->|[]]. contradiction.
      * intros url. specialize (Hcount url). rewrite !count_url_app. lia.
  - unfold revokeBlobUrl. destruct (Set_has (activeBlobUrls m) u) eqn:Eh;
      cbn [activeBlobUrls revoked].
    + split; [apply NoDup_filter; exact Hnd|].
      intros url. specialize (Hcount url).
      rewrite count_url_app, count_url_delete, app_nil_r.
      destruct (string_eqb u url) eqn:E.
      * apply string_eqb_eq in E. subst url. rewrite count_url_one.
        apply Set_has_In in Eh.
        assert (Hone : count_url u (activeBlobUrls m) = 1%nat).
        { pose proof (count_url_NoDup u _ Hnd).
          destruct (count_url u (activeBlobUrls m)) eqn:Ec; [|lia].
          exfalso. unfold count_url in Ec.
          apply length_zero_iff_nil in Ec.
          assert (Hin : In u (filter (string_eqb u) (activeBlobUrls m)))
            by (apply filter_In; split;
                [exact Eh | apply string_eqb_refl]).
          rewrite Ec in Hin. exact Hin. }
        lia.
      * rewrite count_url_other; [lia|].
        destruct (string_eqb url u) eqn:E'; [|reflexivity].
        apply string_eqb_eq in E'. subst.
        rewrite string_eqb_refl in E. discriminate.
    + split; [exact Hnd|]. intros url. specialize (Hcount url).
      rewrite app_nil_r. exact Hcount.
  - cbn [cleanup activeBlobUrls revoked]. split; [constructor|].
    intros url. specialize (Hcount url).
    rewrite count_url_app, app_nil_r. cbn. lia.
Qed.

(** X26. Whatever calls a page makes on a [MemoryManager], the set of
    active URLs holds no URL twice, and no URL is revoked more often than
    it was handed to [createBlobUrl]: a URL still active has one
    revocation left, [revokeBlobUrl] on a URL that is not active does
    nothing, and [cleanup] leaves no URL active. *)
Theorem urls_revoked_once (calls : list Call) :
  let m := fold_left call calls MemoryManager.constructor in
  NoDup (activeBlobUrls m)
  /\ (forall url,
        (count_url url (revoked m) + count_url url (activeBlobUrls m)
         <= count_url url (created calls))%nat)
  /\ (forall url,
        Set_has (activeBlobUrls m) url = false -> revokeBlobUrl m url = m)
  /\ getActiveCount (cleanup m) = 0.
Proof.
  intros m.
  assert (Hinv : NoDup (activeBlobUrls m)
                 /\ forall url,
                      (count_url url (revoked m)
                       + count_url url (activeBlobUrls m)
                       <= count_url url (created calls))%nat).
  { unfold m. induction calls as [|c cs IH] using rev_ind.
    - split; [constructor | intros url; cbn; lia].
    - rewrite fold_left_app. cbn [fold_left]. now apply call_invariant. }
  destruct Hinv as [H1 H2]. split; [exact H1|]. split; [exact H2|].
  split; [|reflexivity].
  intros url Hh. unfold revokeBlobUrl. now rewrite Hh.
Qed.

End Urls.

Section TypedPassword.

Import Unicode JSON Values Encryptor ChunkedFileReader.

(** X27. A typed password is checked by decryption only: on a container
    encrypted with a password, [handleDecryption] with any non-empty
    password field derives a key from what was typed and the salt of the
    container, and returns the outcome of the one call of [decryptChunk]
    under that key. *)
Theorem decryption_uses_typed_password `{CryptoLaws}
  (r : Randomness) (now : Z) (encryptFile decryptFile : File)
  (passwordValue : list Z) (c : Z) (typed : list Z) (out : Main.Encrypted) :
  Main.handleEncryption r now encryptFile true passwordValue
  = Some (Ok out) ->
  bytes decryptFile = Main.encryptedBlob out ->
  FileValidator.valid (FileValidator.validateForEncryption (Some encryptFile))
  = true ->
  len (random_salt r) = 16 -> len (random_iv r) = 12 ->
  Forall is_code_unit (name encryptFile) ->
  Forall is_code_unit (type encryptFile) ->
  is_safe_integer now ->
  len (Main.encryptedBlob out) < 2 ^ 32 ->
  let mimeType := match type encryptFile with
                  | [] => units "application/octet-stream"
                  | t => t
                  end in
  let encryptedChunks :=
    map (fun seal =>
           encrypt_AES_GCM (seal_iv seal) (seal_key seal) (seal_data seal))
        (Main.seals out) in
  let typedKey :=
    deriveKey_PBKDF2 (random_salt r) 100000
      (importKey_PBKDF2 (TextEncoder_encode (c :: typed))) in
  Handlers.handleDecryption decryptFile (c :: typed)
  = Some
      match decrypt_AES_GCM (random_iv r) typedKey (concat encryptedChunks)
      with
      | None => Raise DecryptionFailed
      | Some decryptedData =>
          Return
            {| Handlers.decryptedData := decryptedData;
               Handlers.blobType := Some (JString mimeType);
               Handlers.currentDecryptedFilename :=
                 Downloader.getDecryptedFilename (name decryptFile)
                   (Some (JString (name encryptFile)));
               Handlers.view :=
                 if startsWith mimeType (units "image/")
                 then Handlers.ShowImage
                 else if startsWith mimeType (units "video/")
                 then Handlers.ShowVideo
                 else Handlers.Download |}
      end.
Proof.
  intros Hrun Hbytes Hvalid Hsalt Hiv Hn Ht Hnow Hlen mimeType
    encryptedChunks typedKey.
  pose proof (accepted_chunks_safe encryptFile Hvalid) as Hcount.
  destruct (run_parsed _ _ _ _ _ _ Hrun Hsalt Hiv Hn Ht Hnow Hcount Hlen)
    as (key & _ & _ & Hs & _ & Hp).
  unfold Handlers.handleDecryption. rewrite Hbytes, Hp.
  cbn [Decryptor.salt Decryptor.iv Decryptor.encryptedData Decryptor.metadata].
  unfold Decryption.prepareKey. rewrite Get_hasPassword.
  cbn [createMetadata Encryptor.hasPassword ToBoolean Handlers.password_or_null].
  rewrite deriveKey_returns. cbn [of_result]. fold typedKey.
  rewrite Get_mimeType, Get_filename.
  cbn [createMetadata Encryptor.mimeType Encryptor.filename].
  unfold encryptedChunks. rewrite Hs, map_map. cbn [seal_iv seal_key seal_data].
  unfold Decryption.decryptChunk.
  destruct (decrypt_AES_GCM _ typedKey _); reflexivity.
Qed.

Lemma decryption_uses_typed_password_witness :
  let run :=
    @Main.handleEncryption tag_crypto Main.some_randomness 1700000000000
      Main.small_file true (units "pw") in
  let out :=
    match run with
    | Some (Ok o) => o
    | _ => {| Main.seals := []; Main.encryptedBlob := [] |}
    end in
  @Handlers.handleDecryption tag_crypto tag_decrypt
    {| name := units "a.txt.enc"; type := [];
       bytes := Main.encryptedBlob out |} (units "no")
  = Some (Raise DecryptionFailed).
Proof.
  intros run out.
  refine (eq_trans
            (@decryption_uses_typed_password tag_crypto tag_decrypt tag_laws
               Main.some_randomness 1700000000000 Main.small_file
               {| name := units "a.txt.enc"; type := [];
                  bytes := Main.encryptedBlob out |}
               (units "pw") 110 [111] out _ _ _ _ _ _ _ _ _) _).
  - vm_compute. reflexivity.
  - reflexivity.
  - reflexivity.
  - reflexivity.
  - reflexivity.
  - apply units_code_units.
  - apply units_code_units.
  - unfold is_safe_integer. lia.
  - vm_compute. reflexivity.
  - vm_compute. reflexivity.
Defined.

End TypedPassword.
